(** * Bencode codec of ayu-ch/Bittorrent-Client: a shallow embedding

    The development embeds the two files of package [bencode]
    (the decoder [Unmarshal] and the encoder [Marshal]) and the pure part
    of package [torrent], and proves or refutes the properties the
    specification states about them.

    Conventions of the embedding.
    - Go's [string] and [[]byte] are Rocq [string]s (sequences of 8-bit
      characters).
    - Go's [int] is the 64-bit signed integer of the usual 64-bit targets;
      it is a [Z] together with the range predicate [int_range].
    - Go's [any] is the inductive type [any]; a [map[string]any] is an
      association list whose order stands for one (arbitrary) iteration
      order of the map, with pairwise distinct keys ([valid]).
    - A call either returns a value, returns an error, or panics; loops and
      recursion of the decoder are driven by a fuel argument and the fourth
      outcome [OutOfFuel] is shown unreachable from [Unmarshal].
    - The decoder comes twice: [Unmarshal] is the decoder when neither the
      memory nor the stack runs out, and [Unmarshal_on] is the decoder on
      a runtime with a given number of bytes and of nested calls left,
      where an allocation or a call that does not fit ends the process;
      they are related in [unmarshal_on_cases], [unmarshal_on_Ok] and
      [unmarshal_on_unlimited].
    - Package [torrent] is embedded from [NewTorrentFromBencode] down to
      [parsePeers]; its functions that read a file or talk to a tracker
      are left out. *)

From Stdlib Require Import ZArith List String Ascii Bool Lia Arith.
From Stdlib Require Import Permutation Sorted.
Import ListNotations.

Local Open Scope string_scope.
Local Open Scope Z_scope.

(** ** Errors and outcomes *)

(** The [error] values the two files can return.  [EOF] and
    [ErrUnexpectedEOF] are [io.EOF] and [io.ErrUnexpectedEOF];
    [ErrNegativePosition] is the error of [bytes.Reader.Seek];
    [ErrInvalidInteger] is [fmt.Errorf("invalid integer value: %v", err)],
    [ErrInvalidLength] is [fmt.Errorf("invalid string length: %v", err)]
    (the wrapped [*strconv.NumError] is not kept);
    [ErrUnsupportedType] is [fmt.Errorf("Unsupported type:%T", v)]. *)
Inductive error : Type :=
| EOF
| ErrUnexpectedEOF
| ErrNegativePosition
| ErrInvalidInteger
| ErrInvalidLength
| ErrUnsupportedType (ty : string).

(** Outcome of a call: a value, a returned error, a run-time panic (or, on
    a runtime with limits, one of its fatal errors: both end the process
    with a message), or an exhausted fuel budget (an artefact of the
    embedding only). *)
Inductive result (A : Type) : Type :=
| Ok (a : A)
| Err (e : error)
| Panic (msg : string)
| OutOfFuel.

Arguments Ok {A} a.
Arguments Err {A} e.
Arguments Panic {A} msg.
Arguments OutOfFuel {A}.

Definition bind {A B : Type} (m : result A) (k : A -> result B) : result B :=
  match m with
  | Ok a => k a
  | Err e => Err e
  | Panic msg => Panic msg
  | OutOfFuel => OutOfFuel
  end.

Notation "x <- m ;; k" := (bind m (fun x => k))
  (at level 61, m at next level, right associativity).
Notation "' p <- m ;; k" := (bind m (fun x => let 'p := x in k))
  (at level 61, p pattern, m at next level, right associativity).

(** ** The value model: Go's [any] *)

(** The four dynamic types the codec handles, plus [VOther ty] for a value
    of any other dynamic type (named [ty] by [%T]); [nil], [[]byte],
    [int64] and the like are such values. *)
#[warnings="-register-all"]
Inductive any : Type :=
| VInt (n : Z)
| VString (s : string)
| VList (l : list any)
| VDict (m : list (string * any))
| VOther (ty : string).

(** Range of Go's [int] on 64-bit targets. *)
Definition int_range (n : Z) : Prop := - 2 ^ 63 <= n < 2 ^ 63.

Definition int_rangeb (n : Z) : bool := (- 2 ^ 63 <=? n) && (n <? 2 ^ 63).

(** [runtime.maxAlloc] on 64-bit targets: [make([]byte, n)] panics with
    "makeslice: len out of range" when [n < 0] or [n > maxAlloc]. *)
Definition maxAlloc : Z := 2 ^ 48.

(** ** Package strconv *)

Module strconv.

Definition is_digit (c : ascii) : bool :=
  (48 <=? nat_of_ascii c)%nat && (nat_of_ascii c <=? 57)%nat.

Definition digit_val (c : ascii) : Z := Z.of_nat (nat_of_ascii c) - 48.

Definition digit_of (d : Z) : ascii := ascii_of_nat (48 + Z.to_nat d).

(** Value of a run of decimal digits, [None] on a non-digit. *)
Fixpoint parse_digits (acc : Z) (s : string) : option Z :=
  match s with
  | EmptyString => Some acc
  | String c s' =>
      if is_digit c then parse_digits (10 * acc + digit_val c) s' else None
  end.

(** [strconv.Atoi]: an optional sign, a non-empty run of decimal digits, and
    a value that fits [int]; [None] is the [*NumError]. *)
Definition Atoi (s : string) : option Z :=
  match s with
  | EmptyString => None
  | String c s' =>
      let neg := Ascii.eqb c "-" in
      let ds := if neg || Ascii.eqb c "+" then s' else s in
      match ds with
      | EmptyString => None
      | _ =>
          match parse_digits 0 ds with
          | None => None
          | Some n =>
              let v := if neg then - n else n in
              if int_rangeb v then Some v else None
          end
      end
  end.

(** Decimal digits of a non-negative number, most significant first. *)
Fixpoint utoa_aux (fuel : nat) (n : Z) : string :=
  match fuel with
  | O => EmptyString
  | S f =>
      if n <? 10 then String (digit_of n) EmptyString
      else utoa_aux f (n / 10) ++ String (digit_of (n mod 10)) EmptyString
  end.

Definition utoa (n : Z) : string := utoa_aux (S (Z.to_nat (Z.log2 n))) n.

(** [strconv.Itoa]: the minimal decimal representation. *)
Definition Itoa (n : Z) : string :=
  if n <? 0 then String "-" (utoa (- n)) else utoa n.

End strconv.

Import strconv.

(** ** Packages bytes and io *)

Module bytes.

(** The fields [s] and [i] of [bytes.Reader]: the data and the offset of the
    next byte to read. *)
Record Reader : Type := mkReader { rd_s : string; rd_i : nat }.

Definition NewReader (data : string) : Reader := mkReader data 0.

(** [drop n s] is Go's [s[n:]] (empty when [n] exceeds the length). *)
Fixpoint drop (n : nat) (s : string) : string :=
  match n, s with
  | O, _ => s
  | S n', String _ s' => drop n' s'
  | S _, EmptyString => EmptyString
  end.

(** [take n s] is Go's [s[:n]] (the whole of [s] when it is shorter). *)
Fixpoint take (n : nat) (s : string) : string :=
  match n, s with
  | O, _ => EmptyString
  | S n', String c s' => String c (take n' s')
  | S _, EmptyString => EmptyString
  end.

(** The unread part [r.s[r.i:]]. *)
Definition remaining (r : Reader) : string := drop (rd_i r) (rd_s r).

(** The reader after [n] more bytes were read. *)
Definition advance (n : nat) (r : Reader) : Reader :=
  mkReader (rd_s r) (n + rd_i r).

(** [bytes.Buffer]: the bytes written so far. *)
Definition WriteRune (b : string) (c : ascii) : string :=
  b ++ String c EmptyString.

Definition WriteString (b s : string) : string := b ++ s.

End bytes.

Import bytes.

Module io.

(** [io.ReadFull(r, buf)] for a buffer of [n >= 0] bytes: all of them, or
    [io.EOF] when nothing is left, or [io.ErrUnexpectedEOF]. *)
Definition ReadFull (r : Reader) (n : Z) : result (string * Reader) :=
  let rest := remaining r in
  if n <=? Z.of_nat (length rest)
  then Ok (take (Z.to_nat n) rest, advance (Z.to_nat n) r)
  else if (length rest =? 0)%nat then Err EOF
  else Err ErrUnexpectedEOF.

End io.

Import io.

(** [make([]byte, length)] when the runtime has the memory: the length of
    the buffer, or the panic.  [make_bytes_on] below is the allocation on
    a runtime that has a given number of bytes left. *)
Definition make_bytes (length : Z) : result Z :=
  if (length <? 0) || (maxAlloc <? length)
  then Panic "runtime error: makeslice: len out of range"
  else Ok length.

(** ** The decoder *)

(** [readByte]: one byte through [r.Read], [io.EOF] at the end of the data. *)
Definition readByte (r : Reader) : result (ascii * Reader) :=
  match get (rd_i r) (rd_s r) with
  | Some ch => Ok (ch, advance 1 r)
  | None => Err EOF
  end.

(** [unreadByte]: [seeker.Seek(-1, io.SeekCurrent)]; the byte argument is
    not used by the source either. *)
Definition unreadByte (r : Reader) (b : ascii) : result Reader :=
  match rd_i r with
  | O => Err ErrNegativePosition
  | S k => Ok (mkReader (rd_s r) k)
  end.

(** [readUntilColon]: the bytes before the next [':'], which is consumed. *)
Fixpoint readUntilColon_loop (fuel : nat) (r : Reader) (buf : string)
  : result (string * Reader) :=
  match fuel with
  | O => OutOfFuel
  | S f =>
      '(ch, r1) <- readByte r ;;
      if Ascii.eqb ch ":" then Ok (buf, r1)
      else readUntilColon_loop f r1 (buf ++ String ch EmptyString)
  end.

Definition readUntilColon (fuel : nat) (r : Reader) : result (string * Reader) :=
  readUntilColon_loop fuel r EmptyString.

(** The loop of [unmarshalInt]: the bytes before the next ['e']. *)
Fixpoint unmarshalInt_loop (fuel : nat) (r : Reader) (buf : string)
  : result (string * Reader) :=
  match fuel with
  | O => OutOfFuel
  | S f =>
      '(ch, r1) <- readByte r ;;
      if Ascii.eqb ch "e" then Ok (buf, r1)
      else unmarshalInt_loop f r1 (buf ++ String ch EmptyString)
  end.

Definition unmarshalInt (fuel : nat) (r : Reader) : result (Z * Reader) :=
  '(buf, r1) <- unmarshalInt_loop fuel r EmptyString ;;
  match strconv.Atoi buf with
  | None => Err ErrInvalidInteger
  | Some value => Ok (value, r1)
  end.

Definition unmarshalString (fuel : nat) (r : Reader) : result (string * Reader) :=
  '(lengthStr, r1) <- readUntilColon fuel r ;;
  match strconv.Atoi lengthStr with
  | None => Err ErrInvalidLength
  | Some length =>
      strData <- make_bytes length ;;
      io.ReadFull r1 strData
  end.

(** [dict[key] = value] on the association list: the binding of an existing
    key is replaced, a new key is added. *)
Fixpoint map_set (key : string) (value : any) (dict : list (string * any))
  : list (string * any) :=
  match dict with
  | [] => [(key, value)]
  | (k, v) :: rest =>
      if String.eqb k key then (k, value) :: rest
      else (k, v) :: map_set key value rest
  end.

(** [dict[key]], [None] when the key is absent. *)
Fixpoint map_get (key : string) (dict : list (string * any)) : option any :=
  match dict with
  | [] => None
  | (k, v) :: rest => if String.eqb k key then Some v else map_get key rest
  end.

(** [unmarshalValue], [unmarshalList] and [unmarshalDict]; the last two take
    the list or map built so far, as the source's loops do. *)
Fixpoint unmarshalValue (fuel : nat) (r : Reader) : result (any * Reader) :=
  match fuel with
  | O => OutOfFuel
  | S f =>
      '(ch, r1) <- readByte r ;;
      if Ascii.eqb ch "i" then
        '(n, r2) <- unmarshalInt f r1 ;; Ok (VInt n, r2)
      else if Ascii.eqb ch "l" then
        '(l, r2) <- unmarshalList f r1 [] ;; Ok (VList l, r2)
      else if Ascii.eqb ch "d" then
        '(m, r2) <- unmarshalDict f r1 [] ;; Ok (VDict m, r2)
      else
        r2 <- unreadByte r1 ch ;;
        '(str, r3) <- unmarshalString f r2 ;; Ok (VString str, r3)
  end

with unmarshalList (fuel : nat) (r : Reader) (lst : list any)
  : result (list any * Reader) :=
  match fuel with
  | O => OutOfFuel
  | S f =>
      '(ch, r1) <- readByte r ;;
      if Ascii.eqb ch "e" then Ok (lst, r1)
      else
        r2 <- unreadByte r1 ch ;;
        '(value, r3) <- unmarshalValue f r2 ;;
        unmarshalList f r3 (lst ++ [value])%list
  end

with unmarshalDict (fuel : nat) (r : Reader) (dict : list (string * any))
  : result (list (string * any) * Reader) :=
  match fuel with
  | O => OutOfFuel
  | S f =>
      '(ch, r1) <- readByte r ;;
      if Ascii.eqb ch "e" then Ok (dict, r1)
      else
        r2 <- unreadByte r1 ch ;;
        '(key, r3) <- unmarshalString f r2 ;;
        '(value, r4) <- unmarshalValue f r3 ;;
        unmarshalDict f r4 (map_set key value dict)
  end.

(** Fuel that the decoder cannot exhaust on [data] (see [Unmarshal_fuel]). *)
Definition fuel_for (data : string) : nat := 2 * length data + 4.

(** [Unmarshal]: decodes the first value of [data]; the reader and with it
    the number of bytes consumed are dropped. *)
Definition Unmarshal (data : string) : result any :=
  '(v, _) <- unmarshalValue (fuel_for data) (bytes.NewReader data) ;; Ok v.

(** ** The decoder under the limits of the runtime *)

(** The two fatal errors of the Go runtime the decoder can run into.  They
    end the process the way a panic that nobody recovers does, and are
    kept as panics with these messages. *)
Definition out_of_memory : string := "fatal error: out of memory".

Definition stack_overflow : string := "fatal error: stack overflow".

Section runtime.

(** What the machine has left when the decoder runs: [heap], the bytes the
    allocator can still provide, and [stack], the number of nested calls of
    [unmarshalValue], [unmarshalList] and [unmarshalDict] the goroutine
    stack can hold (the other functions do not recurse and add a bounded
    number of frames).  The functions above are the decoder on a runtime
    where neither runs out (see [unmarshal_on_unlimited]). *)
Variable heap : Z.

Variable stack : nat.

(** [make([]byte, length)]: the buffer is allocated before a byte of it is
    read, so a length the allocator cannot provide ends the process. *)
Definition make_bytes_on (length : Z) : result Z :=
  if (length <? 0) || (maxAlloc <? length)
  then Panic "runtime error: makeslice: len out of range"
  else if heap <? length then Panic out_of_memory
  else Ok length.

Definition unmarshalString_on (fuel : nat) (r : Reader)
  : result (string * Reader) :=
  '(lengthStr, r1) <- readUntilColon fuel r ;;
  match strconv.Atoi lengthStr with
  | None => Err ErrInvalidLength
  | Some length =>
      strData <- make_bytes_on length ;;
      io.ReadFull r1 strData
  end.

(** The three recursive functions, with the depth of the call: a call
    that does not fit the stack ends the process; the calls inside a loop
    are one level deeper than the loop. *)
Fixpoint unmarshalValue_on (fuel depth : nat) (r : Reader)
  : result (any * Reader) :=
  match fuel with
  | O => OutOfFuel
  | S f =>
      if (stack <? depth)%nat then Panic stack_overflow
      else
        '(ch, r1) <- readByte r ;;
        if Ascii.eqb ch "i" then
          '(n, r2) <- unmarshalInt f r1 ;; Ok (VInt n, r2)
        else if Ascii.eqb ch "l" then
          '(l, r2) <- unmarshalList_on f (S depth) r1 [] ;; Ok (VList l, r2)
        else if Ascii.eqb ch "d" then
          '(m, r2) <- unmarshalDict_on f (S depth) r1 [] ;; Ok (VDict m, r2)
        else
          r2 <- unreadByte r1 ch ;;
          '(str, r3) <- unmarshalString_on f r2 ;; Ok (VString str, r3)
  end

with unmarshalList_on (fuel depth : nat) (r : Reader) (lst : list any)
  : result (list any * Reader) :=
  match fuel with
  | O => OutOfFuel
  | S f =>
      if (stack <? depth)%nat then Panic stack_overflow
      else
        '(ch, r1) <- readByte r ;;
        if Ascii.eqb ch "e" then Ok (lst, r1)
        else
          r2 <- unreadByte r1 ch ;;
          '(value, r3) <- unmarshalValue_on f (S depth) r2 ;;
          unmarshalList_on f depth r3 (lst ++ [value])%list
  end

with unmarshalDict_on (fuel depth : nat) (r : Reader)
  (dict : list (string * any)) : result (list (string * any) * Reader) :=
  match fuel with
  | O => OutOfFuel
  | S f =>
      if (stack <? depth)%nat then Panic stack_overflow
      else
        '(ch, r1) <- readByte r ;;
        if Ascii.eqb ch "e" then Ok (dict, r1)
        else
          r2 <- unreadByte r1 ch ;;
          '(key, r3) <- unmarshalString_on f r2 ;;
          '(value, r4) <- unmarshalValue_on f (S depth) r3 ;;
          unmarshalDict_on f depth r4 (map_set key value dict)
  end.

(** [Unmarshal] on that runtime; its call of [unmarshalValue] is the
    first level. *)
Definition Unmarshal_on (data : string) : result any :=
  '(v, _) <- unmarshalValue_on (fuel_for data) 1 (bytes.NewReader data) ;;
  Ok v.

End runtime.

(** ** The encoder *)

Definition marshalInt (v : Z) (b : string) : string :=
  WriteRune (WriteString (WriteRune b "i") (strconv.Itoa v)) "e".

Definition marshalString (s : string) (b : string) : string :=
  WriteString
    (WriteRune (WriteString b (strconv.Itoa (Z.of_nat (length s)))) ":") s.

(** [sort.Strings]: the ascending rearrangement under the byte-wise
    lexicographic order of Go's [<] on strings, here by insertion. *)
Fixpoint insert_string (k : string) (keys : list string) : list string :=
  match keys with
  | [] => [k]
  | k' :: rest =>
      if String.leb k k' then k :: k' :: rest
      else k' :: insert_string k rest
  end.

Fixpoint sort_strings (keys : list string) : list string :=
  match keys with
  | [] => []
  | k :: rest => insert_string k (sort_strings rest)
  end.

Section marshal_containers.

(** The recursive reference to [marshalValue]. *)
Variable marshalValue : any -> string -> string * option error.

(** [marshalList]: an error of an item ends the function, and is lost
    with it since the function returns nothing. *)
Fixpoint marshalList_loop (items : list any) (b : string) : string :=
  match items with
  | [] => WriteRune b "e"
  | item :: rest =>
      match marshalValue item b with
      | (b1, Some _) => b1
      | (b1, None) => marshalList_loop rest b1
      end
  end.

Definition marshalList (lst : list any) (b : string) : string :=
  marshalList_loop lst (WriteRune b "l").

(** [marshalValue(dict[k], buf)]; an absent key would index to [nil]. *)
Fixpoint marshalValue_at (k : string) (dict : list (string * any))
  (buf : string) : string * option error :=
  match dict with
  | [] => (buf, Some (ErrUnsupportedType "<nil>"))
  | (k', v) :: rest =>
      if String.eqb k' k then marshalValue v buf
      else marshalValue_at k rest buf
  end.

Fixpoint marshalDict_loop (dict : list (string * any)) (keys : list string)
  (buf : string) : string :=
  match keys with
  | [] => WriteRune buf "e"
  | k :: rest =>
      match marshalValue_at k dict (marshalString k buf) with
      | (buf1, Some _) => buf1
      | (buf1, None) => marshalDict_loop dict rest buf1
      end
  end.

Definition marshalDict (dict : list (string * any)) (buf : string) : string :=
  marshalDict_loop dict (sort_strings (map fst dict)) (WriteRune buf "d").

End marshal_containers.

Fixpoint marshalValue (v : any) (b : string) {struct v} : string * option error :=
  match v with
  | VInt value => (marshalInt value b, None)
  | VString value => (marshalString value b, None)
  | VList value => (marshalList marshalValue value b, None)
  | VDict value => (marshalDict marshalValue value b, None)
  | VOther ty => (b, Some (ErrUnsupportedType ty))
  end.

(** [Marshal]: the bytes of the buffer, or the error of [marshalValue]. *)
Definition Marshal (v : any) : result string :=
  match marshalValue v EmptyString with
  | (_, Some err) => Err err
  | (buf, None) => Ok buf
  end.

(** ** Predicates of the statements *)

(** Pairwise distinct keys, as in every Go map. *)
Fixpoint nodupb (keys : list string) : bool :=
  match keys with
  | [] => true
  | k :: rest => negb (existsb (String.eqb k) rest) && nodupb rest
  end.

(** A string that fits an allocation. *)
Definition len_ok (s : string) : bool := Z.of_nat (length s) <=? maxAlloc.

(** What holds of every value a Go program can hold: an [int] is in range,
    a string fits in memory, the keys of a map are pairwise distinct. *)
Fixpoint valid (v : any) : bool :=
  match v with
  | VInt n => int_rangeb n
  | VString s => len_ok s
  | VList l => forallb valid l
  | VDict m =>
      nodupb (map fst m)
      && forallb (fun kv => len_ok (fst kv) && valid (snd kv)) m
  | VOther _ => true
  end.

(** A value tree built solely from the four variants. *)
Fixpoint supported (v : any) : bool :=
  match v with
  | VInt _ => true
  | VString _ => true
  | VList l => forallb supported l
  | VDict m => forallb (fun kv => supported (snd kv)) m
  | VOther _ => false
  end.

Inductive opt_rel {A : Type} (R : A -> A -> Prop) : option A -> option A -> Prop :=
| opt_rel_none : opt_rel R None None
| opt_rel_some (a b : A) : R a b -> opt_rel R (Some a) (Some b).

(** Equality of values up to the iteration order of maps: two maps are
    equal when every key has equal bindings in both. *)
#[warnings="-register-all"]
Inductive equiv : any -> any -> Prop :=
| equiv_int (n : Z) : equiv (VInt n) (VInt n)
| equiv_string (s : string) : equiv (VString s) (VString s)
| equiv_list (l1 l2 : list any) :
    Forall2 equiv l1 l2 -> equiv (VList l1) (VList l2)
| equiv_dict (m1 m2 : list (string * any)) :
    (forall k, opt_rel equiv (map_get k m1) (map_get k m2)) ->
    equiv (VDict m1) (VDict m2)
| equiv_other (ty : string) : equiv (VOther ty) (VOther ty).

(** Go's [<=] and [<] on strings: byte-wise lexicographic. *)
Definition str_le (a b : string) : Prop := String.leb a b = true.
Definition str_lt (a b : string) : Prop := String.ltb a b = true.

(** A value whose dynamic type is none of the four cases of the type
    switch of [marshalValue]. *)
Definition is_other (v : any) : bool :=
  match v with
  | VOther _ => true
  | _ => false
  end.

(** [mv] appends to the buffer, and what it appends and returns depends on
    the value alone. *)
Definition appends (mv : any -> string -> string * option error) (v : any)
  : Prop :=
  forall b, mv v b = (b ++ fst (mv v ""), snd (mv v "")).

(** The bytes [marshalValue] appends for [v]. *)
Definition enc (v : any) : string := fst (marshalValue v EmptyString).

Fixpoint enc_items (l : list any) : string :=
  match l with
  | [] => EmptyString
  | v :: rest => enc v ++ enc_items rest
  end.

Definition enc_entry (kv : string * any) : string :=
  marshalString (fst kv) EmptyString ++ enc (snd kv).

Fixpoint enc_entries (es : list (string * any)) : string :=
  match es with
  | [] => EmptyString
  | kv :: rest => enc_entry kv ++ enc_entries rest
  end.

(** The bindings of [dict] for the keys [keys], in the order of [keys]. *)
Fixpoint entries_at (keys : list string) (dict : list (string * any))
  : list (string * any) :=
  match keys with
  | [] => []
  | k :: rest =>
      match map_get k dict with
      | Some v => (k, v) :: entries_at rest dict
      | None => entries_at rest dict
      end
  end.

(** The decoder's map after the bindings [es] were assigned in turn. *)
Definition assign_all (es dict : list (string * any)) : list (string * any) :=
  fold_left (fun d kv => map_set (fst kv) (snd kv) d) es dict.

(** What the decoder returns for the encoding of a value [v]: a valid value
    of the four variants that equals [v] up to the order of maps. *)
Definition value_rel (v' v : any) : Prop :=
  equiv v' v /\ valid v' = true /\ supported v' = true.

Definition entry_rel (e' e : string * any) : Prop :=
  fst e' = fst e /\ value_rel (snd e') (snd e).

(** [unmarshalValue] reads [v] back from a reader positioned at its
    encoding, and advances the reader by the length of the encoding. *)
Definition decodes_back (v : any) : Prop :=
  forall fuel r tl,
    remaining r = enc v ++ tl ->
    (2 * length (enc v) <= fuel)%nat ->
    exists v',
      unmarshalValue fuel r = Ok (v', advance (length (enc v)) r)
      /\ value_rel v' v.

(** The number of unread bytes, [len(r.s) - r.i]. *)
Definition bytes_left (r : Reader) : nat := (length (rd_s r) - rd_i r)%nat.

(** A runtime with memory for a copy of the input and a stack for two
    nested calls per byte of it. *)
Definition has_room (heap : Z) (stack : nat) (data : string) : Prop :=
  Z.of_nat (length data) <= heap /\ (2 * length data <= stack)%nat.

(** The reader over the data of [r] followed by [t], at the offset of [r]. *)
Definition extend (t : string) (r : Reader) : Reader :=
  mkReader (rd_s r ++ t) (rd_i r).

(** The loop of [unmarshalDict] with the assignment [dict[key] = value]
    replaced by an append: the bindings of the input, in their order and
    with their repetitions. *)
Fixpoint dictBindings (fuel : nat) (r : Reader) (acc : list (string * any))
  : result (list (string * any) * Reader) :=
  match fuel with
  | O => OutOfFuel
  | S f =>
      '(ch, r1) <- readByte r ;;
      if Ascii.eqb ch "e" then Ok (acc, r1)
      else
        r2 <- unreadByte r1 ch ;;
        '(key, r3) <- unmarshalString f r2 ;;
        '(value, r4) <- unmarshalValue f r3 ;;
        dictBindings f r4 (acc ++ [(key, value)])%list
  end.

(** The bindings of an input that starts with ['d'], read with the fuel
    [Unmarshal] leaves to [unmarshalDict]. *)
Definition bindings_of (data : string) : result (list (string * any)) :=
  '(es, _) <- dictBindings (2 * length data + 3) (advance 1 (NewReader data)) [] ;;
  Ok es.

(** The two classes of decode errors. *)
Definition is_truncation (e : error) : bool :=
  match e with
  | EOF | ErrUnexpectedEOF => true
  | _ => false
  end.

Definition is_syntax (e : error) : bool :=
  match e with
  | ErrInvalidInteger | ErrInvalidLength => true
  | _ => false
  end.

(** [occurs c s]: the byte [c] occurs in [s]. *)
Fixpoint occurs (c : ascii) (s : string) : bool :=
  match s with
  | EmptyString => false
  | String x s' => Ascii.eqb x c || occurs c s'
  end.

(** *** The grammar of canonical encodings *)

Fixpoint all_digits (s : string) : bool :=
  match s with
  | EmptyString => true
  | String c s' => is_digit c && all_digits s'
  end.

(** [digit+] without a leading zero, ["0"] itself apart. *)
Definition canonical_digits (s : string) : bool :=
  match s with
  | EmptyString => false
  | String c s' =>
      all_digits s
      && (negb (Ascii.eqb c "0") || String.eqb s' EmptyString)
  end.

(** [sign? digit+] without a leading zero and other than ["-0"]. *)
Definition canonical_int_text (s : string) : bool :=
  match s with
  | EmptyString => false
  | String c s' =>
      if Ascii.eqb c "-"
      then canonical_digits s' && negb (String.eqb s' "0")
      else canonical_digits s
  end.

Fixpoint digits_value (acc : Z) (s : string) : Z :=
  match s with
  | EmptyString => acc
  | String c s' => digits_value (10 * acc + digit_val c) s'
  end.

Definition int_text_value (s : string) : Z :=
  match s with
  | EmptyString => 0
  | String c s' =>
      if Ascii.eqb c "-" then - digits_value 0 s' else digits_value 0 s
  end.

(** A key that may follow the previous key [prev] of its dictionary. *)
Definition above (prev : option string) (k : string) : Prop :=
  match prev with
  | None => True
  | Some p => String.ltb p k = true
  end.

(** [canonical b]: [b] is one value of the grammar
    [[
      value      := integer | string | list | dictionary
      integer    := 'i' sign? digit+ 'e'
      string     := length ':' raw-bytes(length)
      list       := 'l' value* 'e'
      dictionary := 'd' (string value)* 'e'
    ]]
    with numerals free of leading zeros, integers in the 64-bit range and
    the keys of every dictionary strictly ascending. *)
Inductive canonical : string -> Prop :=
| canonical_integer (t : string) :
    canonical_int_text t = true ->
    int_range (int_text_value t) ->
    canonical (String "i" (t ++ "e"))
| canonical_string (t s : string) :
    canonical_digits t = true ->
    digits_value 0 t = Z.of_nat (length s) ->
    canonical (t ++ String ":" s)
| canonical_list (b : string) :
    canonical_seq b -> canonical (String "l" (b ++ "e"))
| canonical_dict (b : string) :
    canonical_entries None b -> canonical (String "d" (b ++ "e"))

with canonical_seq : string -> Prop :=
| canonical_seq_nil : canonical_seq EmptyString
| canonical_seq_cons (b bs : string) :
    canonical b -> canonical_seq bs -> canonical_seq (b ++ bs)

with canonical_entries : option string -> string -> Prop :=
| canonical_entries_nil (prev : option string) :
    canonical_entries prev EmptyString
| canonical_entries_cons (prev : option string) (t k b bs : string) :
    canonical_digits t = true ->
    digits_value 0 t = Z.of_nat (length k) ->
    above prev k ->
    canonical b ->
    canonical_entries (Some k) bs ->
    canonical_entries prev (t ++ String ":" k ++ b ++ bs).

Scheme canonical_mut := Minimality for canonical Sort Prop
  with canonical_seq_mut := Minimality for canonical_seq Sort Prop
  with canonical_entries_mut := Minimality for canonical_entries Sort Prop.

(** A run of digits that starts with a digit other than ['0']. *)
Definition leading_nonzero (s : string) : bool :=
  match s with
  | EmptyString => false
  | String c _ => negb (Ascii.eqb c "0")
  end.

(** Strictly ascending keys, the first of them above [prev]. *)
Definition ascending_from (prev : option string) (keys : list string) : Prop :=
  StronglySorted str_lt keys
  /\ match keys with
     | [] => True
     | k :: _ => above prev k
     end.

(** *** Deep nestings *)

(** [n + 1] lists inside one another, and their encoding. *)
Fixpoint nested (n : nat) : any :=
  match n with
  | O => VList []
  | S n' => VList [nested n']
  end.

Fixpoint deep (n : nat) : string :=
  match n with
  | O => "le"
  | S n' => String "l" (deep n' ++ "e")
  end.

Fixpoint depth (v : any) : nat :=
  match v with
  | VList l => S (fold_right (fun x d => Nat.max (depth x) d) O l)
  | VDict m => S (fold_right (fun kv d => Nat.max (depth (snd kv)) d) O m)
  | _ => O
  end.

(** ** Predicates of the further properties *)

(** The first byte of the three productions [unmarshalValue] tells apart. *)
Definition is_marker (c : ascii) : bool :=
  Ascii.eqb c "i" || Ascii.eqb c "l" || Ascii.eqb c "d".

(** The input starts with one of those bytes. *)
Definition head_marker (data : string) : bool :=
  match data with
  | EmptyString => false
  | String c _ => is_marker c
  end.

(** A byte with which no text accepted by [strconv.Atoi] starts. *)
Definition not_numeral_head (c : ascii) : bool :=
  negb (is_digit c) && negb (Ascii.eqb c "-") && negb (Ascii.eqb c "+").

(** A value the decoder can return. *)
Definition well_formed (v : any) : Prop :=
  valid v = true /\ supported v = true.

(** A map the loop of [unmarshalDict] can hold. *)
Definition dict_well_formed (m : list (string * any)) : Prop :=
  NoDup (map fst m)
  /\ Forall (fun e => len_ok (fst e) = true /\ well_formed (snd e)) m.

(** ** Package torrent *)

(** The errors the package returns.  [ErrUnmarshalBencoded err] is
    [fmt.Errorf("failed to unmarshal bencoded data: %w", err)],
    [ErrUpdateInfoHash err] is
    [fmt.Errorf("failed to update info hash: %w", ...)] around
    [fmt.Errorf("failed to marshal info for hash: %w", err)],
    [ErrUnmarshalTracker err] is
    [fmt.Errorf("failed to unmarshal tracker response: %w", err)]; the last
    three are the errors of [parseTrackerResponse] about the interval and
    the peers. *)
Inductive torrent_error : Type :=
| ErrUnmarshalBencoded (err : error)
| ErrUpdateInfoHash (err : error)
| ErrUnmarshalTracker (err : error)
| ErrInvalidInterval
| ErrInvalidPeers
| ErrMissingPeers.

(** Outcome of a call into the package: a value, a returned error, a
    run-time panic, or an exhausted fuel budget (an artefact of the
    embedding only). *)
Inductive outcome (A : Type) : Type :=
| Done (a : A)
| Failed (e : torrent_error)
| Crashed (msg : string)
| Starved.

Arguments Done {A} a.
Arguments Failed {A} e.
Arguments Crashed {A} msg.
Arguments Starved {A}.

Definition and_then {A B : Type} (m : outcome A) (k : A -> outcome B)
  : outcome B :=
  match m with
  | Done a => k a
  | Failed e => Failed e
  | Crashed msg => Crashed msg
  | Starved => Starved
  end.

Notation "x <~ m ;; k" := (and_then m (fun x => k))
  (at level 61, m at next level, right associativity).

(** A call into package bencode followed by [if err != nil]: the error goes
    to [on_error], a panic unwinds through the caller. *)
Definition call {A B : Type} (m : result A) (on_error : error -> outcome B)
  (k : A -> outcome B) : outcome B :=
  match m with
  | Ok a => k a
  | Err err => on_error err
  | Panic msg => Crashed msg
  | OutOfFuel => Starved
  end.

(** The type assertions [v.(T)] without the comma-ok form: they panic with
    an interface conversion error (the dynamic types the message names are
    not kept). *)
Definition interface_conversion : string := "interface conversion".

Definition assert_string (v : any) : outcome string :=
  match v with
  | VString s => Done s
  | _ => Crashed interface_conversion
  end.

Definition assert_int (v : any) : outcome Z :=
  match v with
  | VInt n => Done n
  | _ => Crashed interface_conversion
  end.

Definition assert_slice (v : any) : outcome (list any) :=
  match v with
  | VList l => Done l
  | _ => Crashed interface_conversion
  end.

Definition assert_map (v : any) : outcome (list (string * any)) :=
  match v with
  | VDict m => Done m
  | _ => Crashed interface_conversion
  end.

(** [v.([]byte)]; the bytes themselves are no part of [VOther]. *)
Definition assert_bytes (v : any) : outcome unit :=
  match v with
  | VOther ty =>
      if String.eqb ty "[]uint8" then Done tt
      else Crashed interface_conversion
  | _ => Crashed interface_conversion
  end.

(** [m[key]] as an expression: [nil] when the key is absent. *)
Definition map_index (m : list (string * any)) (key : string) : any :=
  match map_get key m with
  | Some v => v
  | None => VOther "<nil>"
  end.

Record File : Type := mkFile {
  File_Length : Z;
  File_Path : list string
}.

(** [Pieces] holds arrays of 20 bytes, here strings. *)
Record Info : Type := mkInfo {
  Info_Name : string;
  Info_PieceLength : Z;
  Info_Pieces : list string;
  Info_Length : Z;
  Info_Files : list File
}.

Record Torrent : Type := mkTorrent {
  Torrent_InfoHash : string;
  Torrent_Info : Info;
  Torrent_Announce : string
}.

(** The zero value of [[20]byte]. *)
Definition zero20 : string :=
  String.concat "" (repeat (String "000" EmptyString) 20).

Section range.

Context {St : Type}.

(** The body of a [for key, value := range m] loop, on the variables the
    loop updates. *)
Variable body : string -> any -> St -> outcome St.

(** The loop, over the bindings in the order the map yields them. *)
Fixpoint range_map (m : list (string * any)) (s : St) : outcome St :=
  match m with
  | [] => Done s
  | (key, value) :: rest =>
      s1 <~ body key value s ;; range_map rest s1
  end.

End range.

(** [for _, path := range value.([]any) { f.Path = append(f.Path,
    path.(string)) }] *)
Fixpoint appendPaths (paths : list any) (Path : list string)
  : outcome (list string) :=
  match paths with
  | [] => Done Path
  | path :: rest =>
      s <~ assert_string path ;; appendPaths rest (Path ++ [s])
  end.

Definition newFile_case (key : string) (value : any) (f : File)
  : outcome File :=
  if String.eqb key "length" then
    n <~ assert_int value ;; Done (mkFile n (File_Path f))
  else if String.eqb key "path" then
    paths <~ assert_slice value ;;
    Path <~ appendPaths paths (File_Path f) ;;
    Done (mkFile (File_Length f) Path)
  else Done f.

Definition newFile (m : list (string * any)) : outcome File :=
  range_map newFile_case m (mkFile 0 []).

(** [pieces[n] = x] inside the bounds. *)
Fixpoint list_set {A : Type} (n : nat) (x : A) (l : list A) : list A :=
  match l, n with
  | [], _ => []
  | _ :: rest, O => x :: rest
  | y :: rest, S n' => y :: list_set n' x rest
  end.

(** [for i := 0; i < len(piecesStr); i += 20 { copy(info.Pieces[i/20][:],
    piecesStr[i:i+20]) }]: the index is checked, then the bounds of the
    slice; the copy fills the 20 bytes of the array. *)
Fixpoint copyPieces (fuel i : nat) (piecesStr : string) (Pieces : list string)
  : outcome (list string) :=
  match fuel with
  | O => Starved
  | S fuel' =>
      if (i <? length piecesStr)%nat then
        if (i / 20 <? List.length Pieces)%nat then
          if (i + 20 <=? length piecesStr)%nat then
            copyPieces fuel' (i + 20) piecesStr
              (list_set (i / 20) (take 20 (drop i piecesStr)) Pieces)
          else Crashed "runtime error: slice bounds out of range"
        else Crashed "runtime error: index out of range"
      else Done Pieces
  end.

(** [info.Pieces = make([][20]byte, len(piecesStr)/20)] and the loop. *)
Definition splitPieces (piecesStr : string) : outcome (list string) :=
  copyPieces (S (length piecesStr)) 0 piecesStr
    (repeat zero20 (length piecesStr / 20)).

(** [for _, file := range value.([]any) { info.Files = append(info.Files,
    newFile(file.(map[string]any))) }] *)
Fixpoint appendFiles (files : list any) (Files : list File)
  : outcome (list File) :=
  match files with
  | [] => Done Files
  | file :: rest =>
      m <~ assert_map file ;;
      f <~ newFile m ;;
      appendFiles rest (Files ++ [f])
  end.

Definition newInfo_case (key : string) (value : any) (info : Info)
  : outcome Info :=
  if String.eqb key "name" then
    s <~ assert_string value ;;
    Done (mkInfo s (Info_PieceLength info) (Info_Pieces info)
            (Info_Length info) (Info_Files info))
  else if String.eqb key "piece length" then
    n <~ assert_int value ;;
    Done (mkInfo (Info_Name info) n (Info_Pieces info)
            (Info_Length info) (Info_Files info))
  else if String.eqb key "pieces" then
    piecesStr <~ assert_string value ;;
    Pieces <~ splitPieces piecesStr ;;
    Done (mkInfo (Info_Name info) (Info_PieceLength info) Pieces
            (Info_Length info) (Info_Files info))
  else if String.eqb key "length" then
    n <~ assert_int value ;;
    Done (mkInfo (Info_Name info) (Info_PieceLength info) (Info_Pieces info)
            n (Info_Files info))
  else if String.eqb key "files" then
    files <~ assert_slice value ;;
    Files <~ appendFiles files (Info_Files info) ;;
    Done (mkInfo (Info_Name info) (Info_PieceLength info) (Info_Pieces info)
            (Info_Length info) Files)
  else Done info.

Definition newInfo (m : list (string * any)) : outcome Info :=
  range_map newInfo_case m (mkInfo "" 0 [] 0 []).

(** [for _, path := range f.Path { m["path"] = append(m["path"].([]any),
    path) }] *)
Fixpoint marshallableFile_loop (Path : list string) (m : list (string * any))
  : outcome (list (string * any)) :=
  match Path with
  | [] => Done m
  | path :: rest =>
      l <~ assert_slice (map_index m "path") ;;
      marshallableFile_loop rest
        (map_set "path" (VList (l ++ [VString path])) m)
  end.

Definition marshallableFile (f : File) : outcome (list (string * any)) :=
  marshallableFile_loop (File_Path f)
    [("length", VInt (File_Length f)); ("path", VList [])].

(** [for _, piece := range info.Pieces { m["pieces"] =
    append(m["pieces"].([]byte), piece[:]...) }]; the value stays a
    [[]byte]. *)
Fixpoint marshallableInfo_pieces (Pieces : list string)
  (m : list (string * any)) : outcome (list (string * any)) :=
  match Pieces with
  | [] => Done m
  | _ :: rest =>
      _ <~ assert_bytes (map_index m "pieces") ;;
      marshallableInfo_pieces rest (map_set "pieces" (VOther "[]uint8") m)
  end.

(** [for _, file := range info.Files { m["files"] =
    append(m["files"].([]any), marshallableFile(file)) }] *)
Fixpoint marshallableInfo_files (Files : list File) (m : list (string * any))
  : outcome (list (string * any)) :=
  match Files with
  | [] => Done m
  | file :: rest =>
      l <~ assert_slice (map_index m "files") ;;
      fm <~ marshallableFile file ;;
      marshallableInfo_files rest
        (map_set "files" (VList (l ++ [VDict fm])) m)
  end.

Definition marshallableInfo (info : Info) : outcome (list (string * any)) :=
  let m := [("name", VString (Info_Name info));
            ("piece length", VInt (Info_PieceLength info));
            ("pieces", VOther "[]uint8")] in
  m1 <~ marshallableInfo_pieces (Info_Pieces info) m ;;
  let m2 :=
    if (0 <? List.length (Info_Files info))%nat
    then map_set "files" (VList []) m1
    else map_set "length" (VInt (Info_Length info)) m1 in
  marshallableInfo_files (Info_Files info) m2.

Section info_hash.

(** [crypto/sha1.Sum]. *)
Variable sha1_Sum : string -> string.

(** [updateInfoHash]: the torrent with its hash set, or the error. *)
Definition updateInfoHash (t : Torrent) : outcome Torrent :=
  info <~ marshallableInfo (Torrent_Info t) ;;
  call (Marshal (VDict info))
    (fun err => Failed (ErrUpdateInfoHash err))
    (fun infoBencoded =>
       Done (mkTorrent (sha1_Sum infoBencoded) (Torrent_Info t)
               (Torrent_Announce t))).

Definition NewTorrentFromBencode_case (key : string) (value : any)
  (t : Torrent) : outcome Torrent :=
  if String.eqb key "info" then
    m <~ assert_map value ;;
    info <~ newInfo m ;;
    Done (mkTorrent (Torrent_InfoHash t) info (Torrent_Announce t))
  else if String.eqb key "announce" then
    s <~ assert_string value ;;
    Done (mkTorrent (Torrent_InfoHash t) (Torrent_Info t) s)
  else Done t.

Definition NewTorrentFromBencode (bencoded : string) : outcome Torrent :=
  call (Unmarshal bencoded)
    (fun err => Failed (ErrUnmarshalBencoded err))
    (fun unmarshalledData =>
       m <~ assert_map unmarshalledData ;;
       t <~ range_map NewTorrentFromBencode_case m
              (mkTorrent zero20 (mkInfo "" 0 [] 0 []) "") ;;
       updateInfoHash t).

End info_hash.

(** [s[lo:hi]] with its bounds check. *)
Definition slice (s : string) (lo hi : nat) : outcome string :=
  if ((lo <=? hi) && (hi <=? length s))%nat
  then Done (take (hi - lo) (drop lo s))
  else Crashed "runtime error: slice bounds out of range".

(** [s[k]] with its bounds check, as the number the byte is. *)
Definition byte_at (s : string) (k : nat) : outcome Z :=
  match String.get k s with
  | Some c => Done (Z.of_nat (nat_of_ascii c))
  | None => Crashed "runtime error: index out of range"
  end.

(** Conversion to [uint16], and the wrap-around of its operations. *)
Definition uint16 (z : Z) : Z := z mod 2 ^ 16.

Definition newline : string := String "010" EmptyString.

(** The body of the loop of [parsePeers]: the line it prints for the six
    bytes of a peer. *)
Definition parsePeers_line (peer : string) : outcome string :=
  b0 <~ byte_at peer 0 ;;
  b1 <~ byte_at peer 1 ;;
  b2 <~ byte_at peer 2 ;;
  b3 <~ byte_at peer 3 ;;
  let ip := Itoa b0 ++ "." ++ Itoa b1 ++ "." ++ Itoa b2 ++ "." ++ Itoa b3 in
  b4 <~ byte_at peer 4 ;;
  b5 <~ byte_at peer 5 ;;
  let port := Z.lor (uint16 (Z.shiftl (uint16 b4) 8)) (uint16 b5) in
  Done ("Peer: " ++ ip ++ ":" ++ Itoa port ++ newline).

(** [for i := 0; i < numPeers; i++], with [count] iterations left; [out]
    is what was printed so far. *)
Fixpoint parsePeers_loop (count i : nat) (peers : string) (out : list string)
  : outcome (list string) :=
  match count with
  | O => Done out
  | S count' =>
      peer <~ slice peers (i * 6) ((i + 1) * 6) ;;
      line <~ parsePeers_line peer ;;
      parsePeers_loop count' (S i) peers (out ++ [line])
  end.

(** [parsePeers]: the lines printed. *)
Definition parsePeers (peers : string) : outcome (list string) :=
  parsePeers_loop (length peers / 6) 0 peers [].

(** [parseTrackerResponse]: the error returned, or on [nil] the lines
    [parsePeers] printed (the two lines printed before, the raw response
    and the interval, are not kept). *)
Definition parseTrackerResponse (data : string) : outcome (list string) :=
  call (Unmarshal data)
    (fun err => Failed (ErrUnmarshalTracker err))
    (fun response =>
       trackerData <~ assert_map response ;;
       match map_index trackerData "interval" with
       | VInt _ =>
           match map_get "peers" trackerData with
           | Some (VString peers) => parsePeers peers
           | Some _ => Failed ErrInvalidPeers
           | None => Failed ErrMissingPeers
           end
       | _ => Failed ErrInvalidInterval
       end).

(** The dictionary of a file in the metainfo. *)
Definition file_value (f : File) : any :=
  VDict [("length", VInt (File_Length f));
         ("path", VList (map VString (File_Path f)))].

(** The binding of an info dictionary that tells a single file from a
    list of files. *)
Definition info_first (info : Info) : string * any :=
  match Info_Files info with
  | [] => ("length", VInt (Info_Length info))
  | files => ("files", VList (map file_value files))
  end.

(** The bytes [updateInfoHash] hashes: the bindings before ["pieces"] in
    the order of their keys, then the key ["pieces"] alone. *)
Definition info_bytes (info : Info) : string :=
  String "d"
    (enc_entries [info_first info;
                  ("name", VString (Info_Name info));
                  ("piece length", VInt (Info_PieceLength info))]
     ++ marshalString "pieces" EmptyString).

(** Outcomes that are the same but for the message of a panic. *)
Definition agree {A : Type} (a b : outcome A) : Prop :=
  match a, b with
  | Done x, Done y => x = y
  | Failed e, Failed e' => e = e'
  | Crashed _, Crashed _ => True
  | Starved, Starved => True
  | _, _ => False
  end.

(** An outcome of a function that has no error result. *)
Definition no_error {A : Type} (m : outcome A) : Prop :=
  match m with
  | Done _ | Crashed _ => True
  | Failed _ | Starved => False
  end.

(** The first [n] blocks of 20 bytes of [s]. *)
Fixpoint chunks (n : nat) (s : string) : list string :=
  match n with
  | O => []
  | S n' => take 20 s :: chunks n' (drop 20 s)
  end.

(** *** What [NewTorrentFromBencode] checks and what it returns *)

Definition is_string (v : any) : bool :=
  match v with
  | VString _ => true
  | _ => false
  end.

Definition is_int (v : any) : bool :=
  match v with
  | VInt _ => true
  | _ => false
  end.

(** A binding of a file dictionary on which the body of the loop of
    [newFile] panics. *)
Definition file_binding_panics (key : string) (value : any) : bool :=
  if String.eqb key "length" then negb (is_int value)
  else if String.eqb key "path" then
    match value with
    | VList paths => negb (forallb is_string paths)
    | _ => true
    end
  else false.

(** An item of the list of files that is no dictionary, or has such a
    binding. *)
Definition file_panics (file : any) : bool :=
  match file with
  | VDict m => existsb (fun kv => file_binding_panics (fst kv) (snd kv)) m
  | _ => true
  end.

(** The same for the info dictionary and the loop of [newInfo]. *)
Definition info_binding_panics (key : string) (value : any) : bool :=
  if String.eqb key "name" then negb (is_string value)
  else if String.eqb key "piece length" then negb (is_int value)
  else if String.eqb key "pieces" then
    match value with
    | VString s => negb (length s mod 20 =? 0)%nat
    | _ => true
    end
  else if String.eqb key "length" then negb (is_int value)
  else if String.eqb key "files" then
    match value with
    | VList files => existsb file_panics files
    | _ => true
    end
  else false.

Definition info_panics (value : any) : bool :=
  match value with
  | VDict m => existsb (fun kv => info_binding_panics (fst kv) (snd kv)) m
  | _ => true
  end.

(** The same for the decoded metainfo and the loop of
    [NewTorrentFromBencode]. *)
Definition torrent_binding_panics (key : string) (value : any) : bool :=
  if String.eqb key "info" then info_panics value
  else if String.eqb key "announce" then negb (is_string value)
  else false.

Definition metainfo_panics (v : any) : bool :=
  match v with
  | VDict m => existsb (fun kv => torrent_binding_panics (fst kv) (snd kv)) m
  | _ => true
  end.

(** The string or integer bound to a key, the zero value when the key is
    absent. *)
Definition string_at (key : string) (m : list (string * any)) : string :=
  match map_get key m with
  | Some (VString s) => s
  | _ => EmptyString
  end.

Definition int_at (key : string) (m : list (string * any)) : Z :=
  match map_get key m with
  | Some (VInt n) => n
  | _ => 0
  end.

Definition strings_in (l : list any) : list string :=
  flat_map (fun v => match v with VString s => [s] | _ => [] end) l.

(** The file, the info and the torrent that a dictionary describes, by
    lookups. *)
Definition file_of (file : any) : File :=
  match file with
  | VDict m =>
      mkFile (int_at "length" m)
        match map_get "path" m with
        | Some (VList paths) => strings_in paths
        | _ => []
        end
  | _ => mkFile 0 []
  end.

Definition info_of (m : list (string * any)) : Info :=
  mkInfo (string_at "name" m) (int_at "piece length" m)
    (chunks (length (string_at "pieces" m) / 20) (string_at "pieces" m))
    (int_at "length" m)
    match map_get "files" m with
    | Some (VList files) => map file_of files
    | _ => []
    end.

Definition torrent_of (sha1_Sum : string -> string) (m : list (string * any))
  : Torrent :=
  let info :=
    match map_get "info" m with
    | Some (VDict im) => info_of im
    | _ => mkInfo "" 0 [] 0 []
    end in
  mkTorrent (sha1_Sum (info_bytes info)) info (string_at "announce" m).

(** *** What [parsePeers] prints *)

(** The number the byte [s[k]] is. *)
Definition byte_val (s : string) (k : nat) : Z :=
  match String.get k s with
  | Some c => Z.of_nat (nat_of_ascii c)
  | None => 0
  end.

(** The line of a peer in the compact format: four bytes of address, two
    bytes of port, the high one first. *)
Definition peer_text (peer : string) : string :=
  "Peer: " ++ Itoa (byte_val peer 0) ++ "." ++ Itoa (byte_val peer 1)
  ++ "." ++ Itoa (byte_val peer 2) ++ "." ++ Itoa (byte_val peer 3)
  ++ ":" ++ Itoa (256 * byte_val peer 4 + byte_val peer 5) ++ newline.

(** * Proofs *)

(** ** Outcomes *)

Lemma bind_Ok_inv {A B : Type} (m : result A) (k : A -> result B) (b : B) :
  bind m k = Ok b -> exists a, m = Ok a /\ k a = Ok b.
Proof. destruct m; simpl; try discriminate. eauto. Qed.

Lemma bind_not_out {A B : Type} (m : result A) (k : A -> result B) :
  m <> OutOfFuel -> (forall a, m = Ok a -> k a <> OutOfFuel) ->
  bind m k <> OutOfFuel.
Proof. destruct m; simpl; intros H1 H2; try discriminate; auto. Qed.

(** Inversion of a successful [bind], naming or splitting the value. *)
Ltac inv_bind H :=
  let a := fresh "a" in
  let E := fresh "E" in
  apply bind_Ok_inv in H; destruct H as (a & E & H);
  try (destruct a as [? ?]); cbv beta iota in H.

Ltac step_bind H E :=
  apply bind_Ok_inv in H; destruct H as ([? ?] & E & H); cbv beta iota in H.

(** ** Strings *)

Lemma str_app_nil_r (a : string) : a ++ "" = a.
Proof. induction a as [|c a IH]; simpl; [reflexivity | now rewrite IH]. Qed.

Lemma str_app_assoc (a b c : string) : (a ++ b) ++ c = a ++ (b ++ c).
Proof. induction a as [|x a IH]; simpl; [reflexivity | now rewrite IH]. Qed.

Lemma str_length_app (a b : string) :
  length (a ++ b) = (length a + length b)%nat.
Proof. induction a as [|x a IH]; simpl; [reflexivity | now rewrite IH]. Qed.

Lemma get_drop (n : nat) (s : string) :
  get n s = match drop n s with String c _ => Some c | EmptyString => None end.
Proof.
  revert s; induction n as [|n IH]; intros [|c s]; simpl; auto.
Qed.

Lemma drop_nil (n : nat) : drop n "" = "".
Proof. destruct n; reflexivity. Qed.

Lemma drop_drop (n m : nat) (s : string) : drop n (drop m s) = drop (n + m) s.
Proof.
  revert s; induction m as [|m IH]; intros s.
  - now rewrite Nat.add_0_r.
  - rewrite Nat.add_succ_r. destruct s as [|c s]; simpl.
    + apply drop_nil.
    + apply IH.
Qed.

Lemma drop_length_app (a b : string) : drop (length a) (a ++ b) = b.
Proof. induction a as [|x a IH]; simpl; auto. Qed.

Lemma take_length_app (a b : string) : take (length a) (a ++ b) = a.
Proof. induction a as [|x a IH]; simpl; [reflexivity | now rewrite IH]. Qed.

Lemma length_drop (n : nat) (s : string) :
  length (drop n s) = (length s - n)%nat.
Proof.
  revert s; induction n as [|n IH]; intros [|c s]; simpl; auto.
Qed.

Lemma drop_app_l (n : nat) (a b : string) :
  (n <= length a)%nat -> drop n (a ++ b) = drop n a ++ b.
Proof.
  revert a; induction n as [|n IH]; intros [|c a]; simpl; intros H;
    try reflexivity; try lia.
  apply IH; lia.
Qed.

Lemma take_app_l (n : nat) (a b : string) :
  (n <= length a)%nat -> take n (a ++ b) = take n a.
Proof.
  revert a; induction n as [|n IH]; intros [|c a]; simpl; intros H;
    try reflexivity; try lia.
  rewrite IH; [reflexivity | lia].
Qed.

(** Induction on a string from its end. *)
Lemma string_rev_ind (P : string -> Prop) :
  P "" ->
  (forall s c, P s -> P (s ++ String c "")) ->
  forall s, P s.
Proof.
  intros Hnil Hsnoc s.
  assert (H : forall n s, length s = n -> P s).
  { clear s. induction n as [|n IH]; intros s Hlen.
    - destruct s; [exact Hnil | discriminate].
    - assert (Hex : exists s' c, s = s' ++ String c "" /\ length s' = n).
      { clear IH. revert n Hlen. induction s as [|x s IHs]; intros n Hlen;
          [discriminate|].
        destruct s as [|y s].
        - exists "", x. simpl in Hlen. split; [reflexivity | simpl; lia].
        - destruct n as [|n]; [discriminate|].
          destruct (IHs n) as (s' & c & Heq & Hl).
          { simpl in *; lia. }
          exists (String x s'), c. rewrite Heq. simpl. split; [reflexivity | lia]. }
      destruct Hex as (s' & c & -> & Hl). apply Hsnoc, IH, Hl. }
  apply (H (length s)); reflexivity.
Qed.

(** ** The reader *)

Lemma remaining_advance (n : nat) (r : Reader) :
  remaining (advance n r) = drop n (remaining r).
Proof. unfold remaining, advance; simpl. now rewrite drop_drop. Qed.

Lemma advance_advance (n m : nat) (r : Reader) :
  advance n (advance m r) = advance (n + m) r.
Proof. unfold advance; simpl. f_equal. lia. Qed.

Lemma advance_0 (r : Reader) : advance 0 r = r.
Proof. destruct r; reflexivity. Qed.

Lemma readByte_cons (r : Reader) (c : ascii) (t : string) :
  remaining r = String c t -> readByte r = Ok (c, advance 1 r).
Proof.
  unfold readByte, remaining. intros H. now rewrite get_drop, H.
Qed.

Lemma readByte_nil (r : Reader) : remaining r = "" -> readByte r = Err EOF.
Proof.
  unfold readByte, remaining. intros H. now rewrite get_drop, H.
Qed.

Lemma remaining_advance_cons (r : Reader) (c : ascii) (t : string) :
  remaining r = String c t -> remaining (advance 1 r) = t.
Proof. intros H. now rewrite remaining_advance, H. Qed.

Lemma remaining_advance_app (r : Reader) (a t : string) :
  remaining r = a ++ t -> remaining (advance (length a) r) = t.
Proof. intros H. now rewrite remaining_advance, H, drop_length_app. Qed.

Lemma unreadByte_advance (r : Reader) (c : ascii) :
  unreadByte (advance 1 r) c = Ok r.
Proof. destruct r; reflexivity. Qed.

Lemma ReadFull_enough (r : Reader) (a t : string) :
  remaining r = a ++ t ->
  ReadFull r (Z.of_nat (length a)) = Ok (a, advance (length a) r).
Proof.
  intros H. unfold ReadFull. rewrite H, str_length_app.
  destruct (Z.leb_spec (Z.of_nat (length a)) (Z.of_nat (length a + length t)));
    [|lia].
  now rewrite Nat2Z.id, take_length_app.
Qed.

(** ** Decimal numerals *)

Lemma is_digit_bounds (c : ascii) :
  is_digit c = true <-> (48 <= nat_of_ascii c <= 57)%nat.
Proof.
  unfold is_digit. rewrite andb_true_iff, !Nat.leb_le. tauto.
Qed.

Lemma digit_val_range (c : ascii) :
  is_digit c = true -> 0 <= digit_val c <= 9.
Proof. rewrite is_digit_bounds. unfold digit_val. lia. Qed.

Lemma digit_of_val (c : ascii) : is_digit c = true -> digit_of (digit_val c) = c.
Proof.
  rewrite is_digit_bounds. intros H. unfold digit_of, digit_val.
  replace (48 + Z.to_nat (Z.of_nat (nat_of_ascii c) - 48))%nat
    with (nat_of_ascii c) by lia.
  apply ascii_nat_embedding.
Qed.

Lemma nat_of_digit_of (d : Z) :
  0 <= d <= 9 -> nat_of_ascii (digit_of d) = (48 + Z.to_nat d)%nat.
Proof.
  intros H. unfold digit_of. apply nat_ascii_embedding. lia.
Qed.

Lemma is_digit_of (d : Z) : 0 <= d <= 9 -> is_digit (digit_of d) = true.
Proof.
  intros H. apply is_digit_bounds. rewrite nat_of_digit_of by exact H. lia.
Qed.

Lemma digit_val_of (d : Z) : 0 <= d <= 9 -> digit_val (digit_of d) = d.
Proof.
  intros H. unfold digit_val. rewrite nat_of_digit_of by exact H. lia.
Qed.

Lemma is_digit_neq (c x : ascii) :
  is_digit c = true -> is_digit x = false -> Ascii.eqb c x = false.
Proof.
  intros Hc Hx. apply Ascii.eqb_neq. intros ->. congruence.
Qed.

Lemma all_digits_app (a b : string) :
  all_digits (a ++ b) = all_digits a && all_digits b.
Proof.
  induction a as [|c a IH]; simpl; [reflexivity|].
  now rewrite IH, andb_assoc.
Qed.

Lemma all_digits_occurs (x : ascii) (s : string) :
  all_digits s = true -> is_digit x = false -> occurs x s = false.
Proof.
  intros Hs Hx. induction s as [|c s IH]; simpl in *; [reflexivity|].
  apply andb_true_iff in Hs as [Hc Hs].
  now rewrite (is_digit_neq c x Hc Hx), IH.
Qed.

Lemma occurs_app (x : ascii) (a b : string) :
  occurs x (a ++ b) = occurs x a || occurs x b.
Proof.
  induction a as [|c a IH]; simpl; [reflexivity|].
  now rewrite IH, orb_assoc.
Qed.

Lemma digits_value_snoc (acc : Z) (s : string) (c : ascii) :
  digits_value acc (s ++ String c "") = 10 * digits_value acc s + digit_val c.
Proof.
  revert acc; induction s as [|x s IH]; intros acc; simpl; [reflexivity|].
  apply IH.
Qed.

Lemma digits_value_lower (acc : Z) (s : string) :
  all_digits s = true -> 0 <= acc -> acc <= digits_value acc s.
Proof.
  revert acc; induction s as [|c s IH]; intros acc Hs Hacc;
    cbn [digits_value all_digits] in *; [lia|].
  apply andb_true_iff in Hs as [Hc Hs].
  pose proof (digit_val_range c Hc).
  specialize (IH (10 * acc + digit_val c) Hs). lia.
Qed.

Lemma parse_digits_value (acc : Z) (s : string) :
  all_digits s = true -> parse_digits acc s = Some (digits_value acc s).
Proof.
  revert acc; induction s as [|c s IH]; intros acc Hs;
    cbn [digits_value all_digits parse_digits] in *; [reflexivity|].
  apply andb_true_iff in Hs as [Hc Hs]. rewrite Hc. now apply IH.
Qed.

Lemma log2_div10 (n : Z) : 10 <= n -> Z.log2 (n / 10) < Z.log2 n.
Proof.
  intros H.
  assert (Hm : 1 <= n / 10) by (apply Z.div_le_lower_bound; lia).
  assert (H2 : 2 * (n / 10) <= n).
  { pose proof (Z.mul_div_le n 10). lia. }
  pose proof (Z.log2_double (n / 10) ltac:(lia)) as Hd.
  pose proof (Z.log2_le_mono _ _ H2). lia.
Qed.

(** The digits of [utoa_aux] and their value, for any sufficient fuel. *)
Lemma utoa_aux_spec (fuel : nat) (n : Z) :
  0 <= n -> Z.log2 n < Z.of_nat fuel ->
  all_digits (utoa_aux fuel n) = true
  /\ utoa_aux fuel n <> ""
  /\ digits_value 0 (utoa_aux fuel n) = n.
Proof.
  revert n; induction fuel as [|f IH]; intros n Hn Hf.
  - pose proof (Z.log2_nonneg n). lia.
  - cbn [utoa_aux]. destruct (Z.ltb_spec n 10) as [Hlt | Hge].
    + cbn [all_digits digits_value].
      rewrite is_digit_of, digit_val_of by lia.
      split; [reflexivity | split; [discriminate | lia]].
    + pose proof (log2_div10 n Hge) as Hlog.
      assert (Hq : 0 <= n / 10) by (apply Z.div_pos; lia).
      destruct (IH (n / 10) Hq ltac:(lia)) as (Hd & Hne & Hv).
      pose proof (Z.mod_pos_bound n 10 ltac:(lia)) as Hm.
      split; [|split].
      * rewrite all_digits_app, Hd. cbn [all_digits].
        rewrite is_digit_of by lia. reflexivity.
      * destruct (utoa_aux f (n / 10)); [congruence | discriminate].
      * rewrite digits_value_snoc, Hv, digit_val_of by lia.
        pose proof (Z.div_mod n 10 ltac:(lia)). lia.
Qed.

Lemma utoa_spec (n : Z) :
  0 <= n ->
  all_digits (utoa n) = true /\ utoa n <> "" /\ digits_value 0 (utoa n) = n.
Proof.
  intros Hn. apply utoa_aux_spec; [exact Hn|].
  pose proof (Z.log2_nonneg n). lia.
Qed.

Lemma all_digits_head (c : ascii) (s : string) (x : ascii) :
  all_digits (String c s) = true -> is_digit x = false ->
  Ascii.eqb c x = false.
Proof.
  simpl. intros H Hx. apply andb_true_iff in H as [Hc _].
  now apply is_digit_neq.
Qed.

(** [Atoi] reads back what [Itoa] prints. *)
Lemma int_rangeb_true (n : Z) : int_range n -> int_rangeb n = true.
Proof.
  unfold int_range, int_rangeb. intros H.
  apply andb_true_iff. split; [apply Z.leb_le | apply Z.ltb_lt]; lia.
Qed.

Lemma int_rangeb_iff (n : Z) : int_rangeb n = true <-> int_range n.
Proof.
  unfold int_range, int_rangeb.
  rewrite andb_true_iff, Z.leb_le, Z.ltb_lt. tauto.
Qed.

(** [Atoi] on an unsigned run of digits. *)
Lemma Atoi_digits (s : string) :
  all_digits s = true -> s <> "" ->
  Atoi s =
  if int_rangeb (digits_value 0 s) then Some (digits_value 0 s) else None.
Proof.
  intros Hd Hne. destruct s as [|c s]; [congruence|].
  unfold Atoi.
  rewrite (all_digits_head c s "-" Hd eq_refl).
  rewrite (all_digits_head c s "+" Hd eq_refl). cbn [orb].
  now rewrite parse_digits_value by exact Hd.
Qed.

(** [Atoi] on a minus sign and a run of digits. *)
Lemma Atoi_minus_digits (s : string) :
  all_digits s = true -> s <> "" ->
  Atoi (String "-" s) =
  if int_rangeb (- digits_value 0 s) then Some (- digits_value 0 s) else None.
Proof.
  intros Hd Hne. destruct s as [|c s]; [congruence|].
  unfold Atoi. change (Ascii.eqb "-" "-") with true. cbn [orb].
  now rewrite parse_digits_value by exact Hd.
Qed.

(** [Atoi] reads back what [Itoa] prints. *)
Lemma Atoi_Itoa (n : Z) : int_range n -> Atoi (Itoa n) = Some n.
Proof.
  intros Hr. unfold Itoa. destruct (Z.ltb_spec n 0) as [Hneg | Hpos].
  - destruct (utoa_spec (- n) ltac:(lia)) as (Hd & Hne & Hv).
    rewrite Atoi_minus_digits, Hv by assumption.
    replace (- - n) with n by lia.
    now rewrite int_rangeb_true.
  - destruct (utoa_spec n Hpos) as (Hd & Hne & Hv).
    rewrite Atoi_digits, Hv by assumption.
    now rewrite int_rangeb_true.
Qed.

Lemma Itoa_occurs (x : ascii) (n : Z) :
  is_digit x = false -> Ascii.eqb "-" x = false -> occurs x (Itoa n) = false.
Proof.
  intros Hx Hm. unfold Itoa. destruct (Z.ltb_spec n 0).
  - cbn [occurs]. rewrite Hm. cbn [orb]. apply all_digits_occurs; [|exact Hx].
    apply utoa_spec. lia.
  - apply all_digits_occurs; [|exact Hx]. apply utoa_spec. lia.
Qed.

Lemma Itoa_nat_digits (n : nat) :
  all_digits (Itoa (Z.of_nat n)) = true /\ Itoa (Z.of_nat n) <> "".
Proof.
  unfold Itoa. destruct (Z.ltb_spec (Z.of_nat n) 0); [lia|].
  split; apply utoa_spec; lia.
Qed.

(** ** The order of keys and [sort.Strings] *)

Lemma ascii_compare_refl (x : ascii) : Ascii.compare x x = Eq.
Proof. apply N.compare_refl. Qed.

Lemma ascii_compare_lt_trans (x y z : ascii) :
  Ascii.compare x y = Lt -> Ascii.compare y z = Lt -> Ascii.compare x z = Lt.
Proof.
  unfold Ascii.compare. rewrite !N.compare_lt_iff. lia.
Qed.

Lemma compare_not_gt_trans (a b c : string) :
  String.compare a b <> Gt -> String.compare b c <> Gt ->
  String.compare a c <> Gt.
Proof.
  revert b c; induction a as [|x a IH]; intros [|y b] [|z c]; simpl;
    try congruence.
  destruct (Ascii.compare x y) eqn:Exy; try congruence;
    destruct (Ascii.compare y z) eqn:Eyz; try congruence; intros H1 H2.
  - apply Ascii.compare_eq_iff in Exy, Eyz. subst.
    rewrite ascii_compare_refl. now apply (IH b c).
  - apply Ascii.compare_eq_iff in Exy. subst. now rewrite Eyz.
  - apply Ascii.compare_eq_iff in Eyz. subst. now rewrite Exy.
  - now rewrite (ascii_compare_lt_trans x y z Exy Eyz).
Qed.

Lemma str_le_trans (a b c : string) : str_le a b -> str_le b c -> str_le a c.
Proof.
  unfold str_le, String.leb. intros H1 H2.
  pose proof (compare_not_gt_trans a b c) as H.
  destruct (String.compare a b); try discriminate;
    destruct (String.compare b c); try discriminate;
    destruct (String.compare a c); try reflexivity;
    exfalso; apply H; congruence.
Qed.

Lemma str_le_total (a b : string) : str_le a b \/ str_le b a.
Proof. apply String.leb_total. Qed.

Lemma str_le_antisym (a b : string) : str_le a b -> str_le b a -> a = b.
Proof. apply String.leb_antisym. Qed.

Lemma str_lt_le (a b : string) : str_lt a b -> str_le a b.
Proof.
  unfold str_lt, str_le, String.ltb, String.leb.
  destruct (String.compare a b); congruence.
Qed.

Lemma str_le_neq_lt (a b : string) : str_le a b -> a <> b -> str_lt a b.
Proof.
  unfold str_lt, str_le, String.ltb, String.leb. intros H Hne.
  destruct (String.compare a b) eqn:E; try congruence.
  apply String.compare_eq_iff in E. contradiction.
Qed.

Lemma str_lt_irrefl (a : string) : ~ str_lt a a.
Proof.
  unfold str_lt, String.ltb. intros H.
  pose proof (String.compare_antisym a a) as E.
  destruct (String.compare a a); simpl in E; congruence.
Qed.

Lemma insert_string_perm (k : string) (l : list string) :
  Permutation (insert_string k l) (k :: l).
Proof.
  induction l as [|x l IH]; simpl; [reflexivity|].
  destruct (String.leb k x); [reflexivity|].
  rewrite IH. apply perm_swap.
Qed.

Lemma sort_strings_perm (l : list string) : Permutation (sort_strings l) l.
Proof.
  induction l as [|x l IH]; simpl; [reflexivity|].
  now rewrite insert_string_perm, IH.
Qed.

Lemma insert_string_sorted (k : string) (l : list string) :
  StronglySorted str_le l -> StronglySorted str_le (insert_string k l).
Proof.
  induction 1 as [|x l Hs IH Hx]; simpl.
  - repeat constructor.
  - destruct (String.leb k x) eqn:E.
    + constructor; [constructor; assumption|].
      constructor; [exact E|].
      eapply Forall_impl; [|exact Hx].
      intros y Hy. now apply (str_le_trans k x y).
    + constructor; [exact IH|].
      apply (Permutation_Forall (Permutation_sym (insert_string_perm k l))).
      constructor; [|exact Hx].
      destruct (str_le_total k x) as [H | H]; [|exact H].
      unfold str_le in H. congruence.
Qed.

Lemma sort_strings_sorted (l : list string) :
  StronglySorted str_le (sort_strings l).
Proof.
  induction l as [|x l IH]; simpl; [constructor|].
  now apply insert_string_sorted.
Qed.

(** An ascending list is determined by its elements. *)
Lemma sorted_perm_unique (l1 l2 : list string) :
  StronglySorted str_le l1 -> StronglySorted str_le l2 ->
  Permutation l1 l2 -> l1 = l2.
Proof.
  revert l2; induction l1 as [|a l1 IH]; intros l2 H1 H2 Hp.
  - now apply Permutation_nil in Hp.
  - destruct l2 as [|b l2].
    + apply Permutation_sym, Permutation_nil in Hp. discriminate.
    + apply StronglySorted_inv in H1 as [H1 Ha].
      apply StronglySorted_inv in H2 as [H2 Hb].
      assert (Hab : a = b).
      { assert (Ia : In a (b :: l2))
          by (eapply Permutation_in; [exact Hp | now left]).
        assert (Ib : In b (a :: l1))
          by (eapply Permutation_in;
              [apply Permutation_sym; exact Hp | now left]).
        destruct Ia as [<- | Ia]; [reflexivity|].
        destruct Ib as [-> | Ib]; [reflexivity|].
        rewrite Forall_forall in Ha, Hb.
        apply str_le_antisym; auto. }
      subst b. f_equal. apply IH; try assumption.
      now apply Permutation_cons_inv in Hp.
Qed.

Lemma sort_strings_perm_eq (l1 l2 : list string) :
  Permutation l1 l2 -> sort_strings l1 = sort_strings l2.
Proof.
  intros Hp. apply sorted_perm_unique; try apply sort_strings_sorted.
  now rewrite !sort_strings_perm.
Qed.

Lemma strict_sorted_le (l : list string) :
  StronglySorted str_lt l -> StronglySorted str_le l.
Proof.
  induction 1 as [|x l Hs IH Hx]; constructor; [exact IH|].
  eapply Forall_impl; [|exact Hx]. intros y. apply str_lt_le.
Qed.

Lemma sort_strings_sorted_id (l : list string) :
  StronglySorted str_lt l -> sort_strings l = l.
Proof.
  intros H. apply sorted_perm_unique.
  - apply sort_strings_sorted.
  - now apply strict_sorted_le.
  - apply sort_strings_perm.
Qed.

Lemma sorted_nodup_strict (l : list string) :
  StronglySorted str_le l -> NoDup l -> StronglySorted str_lt l.
Proof.
  induction 1 as [|x l Hs IH Hx]; intros Hn; [constructor|].
  inversion Hn as [|? ? Hnot Hn']; subst.
  constructor; [now apply IH|].
  rewrite Forall_forall in *. intros y Hy.
  apply str_le_neq_lt; [now apply Hx|]. intros ->. contradiction.
Qed.

Lemma strict_sorted_nodup (l : list string) :
  StronglySorted str_lt l -> NoDup l.
Proof.
  induction 1 as [|x l Hs IH Hx]; constructor; [|exact IH].
  intros Hin. rewrite Forall_forall in Hx.
  exact (str_lt_irrefl x (Hx x Hin)).
Qed.

Lemma sort_strings_strict (l : list string) :
  NoDup l -> StronglySorted str_lt (sort_strings l).
Proof.
  intros Hn. apply sorted_nodup_strict; [apply sort_strings_sorted|].
  eapply Permutation_NoDup; [|exact Hn].
  apply Permutation_sym, sort_strings_perm.
Qed.

Lemma existsb_eqb_In (k : string) (l : list string) :
  existsb (String.eqb k) l = true <-> In k l.
Proof.
  rewrite existsb_exists. split.
  - intros (x & Hx & E). apply String.eqb_eq in E. now subst.
  - intros H. exists k. split; [exact H | apply String.eqb_refl].
Qed.

Lemma nodupb_NoDup (l : list string) : nodupb l = true <-> NoDup l.
Proof.
  induction l as [|k l IH]; simpl.
  - split; [constructor | reflexivity].
  - rewrite andb_true_iff, negb_true_iff, IH. split.
    + intros [Hk Hn]. constructor; [|exact Hn].
      rewrite <- existsb_eqb_In. congruence.
    + intros Hn. inversion Hn as [|? ? Hk Hn']; subst. split; [|exact Hn'].
      destruct (existsb (String.eqb k) l) eqn:E; [|reflexivity].
      apply existsb_eqb_In in E. contradiction.
Qed.

(** ** The encoder *)

(** Induction on values, with the hypothesis for the members of a list and
    for the values of a map. *)
Lemma any_ind' (P : any -> Prop) :
  (forall n, P (VInt n)) ->
  (forall s, P (VString s)) ->
  (forall l, Forall P l -> P (VList l)) ->
  (forall m, Forall (fun kv => P (snd kv)) m -> P (VDict m)) ->
  (forall ty, P (VOther ty)) ->
  forall v, P v.
Proof.
  intros Hi Hs Hl Hd Ho. fix IH 1. intros [n | s | l | m | ty].
  - apply Hi.
  - apply Hs.
  - apply Hl. induction l as [|x l IHl]; constructor; [apply IH | exact IHl].
  - apply Hd. induction m as [|[k x] m IHm]; constructor;
      [apply IH | exact IHm].
  - apply Ho.
Qed.

Lemma marshalInt_app (n : Z) (b : string) :
  marshalInt n b = b ++ String "i" (Itoa n ++ "e").
Proof.
  unfold marshalInt, WriteRune, WriteString.
  now rewrite !str_app_assoc.
Qed.

Lemma marshalString_app (s b : string) :
  marshalString s b = b ++ (Itoa (Z.of_nat (length s)) ++ String ":" s).
Proof.
  unfold marshalString, WriteRune, WriteString.
  now rewrite !str_app_assoc.
Qed.

Section marshal_facts.

Variable mv : any -> string -> string * option error.

Lemma marshalList_loop_app (l : list any) :
  Forall (appends mv) l ->
  forall b, marshalList_loop mv l b = b ++ marshalList_loop mv l "".
Proof.
  induction 1 as [|x l Hx Hl IH]; intros b; simpl.
  - unfold WriteRune. reflexivity.
  - rewrite (Hx b). destruct (mv x "") as [o [e|]]; simpl.
    + reflexivity.
    + rewrite (IH (b ++ o)), (IH o). now rewrite str_app_assoc.
Qed.

Lemma marshalValue_at_get (k : string) (m : list (string * any)) (b : string) :
  marshalValue_at mv k m b =
  match map_get k m with
  | Some v => mv v b
  | None => (b, Some (ErrUnsupportedType "<nil>"))
  end.
Proof.
  induction m as [|[k' v] m IH]; simpl; [reflexivity|].
  destruct (String.eqb k' k); [reflexivity | exact IH].
Qed.

Lemma map_get_In (k : string) (m : list (string * any)) (v : any) :
  map_get k m = Some v -> In (k, v) m.
Proof.
  induction m as [|[k' x] m IH]; simpl; [discriminate|].
  destruct (String.eqb_spec k' k) as [-> | Hne].
  - intros [= ->]. now left.
  - intros H. right. now apply IH.
Qed.

Lemma marshalDict_loop_app (m : list (string * any)) (ks : list string) :
  Forall (fun kv => appends mv (snd kv)) m ->
  forall b, marshalDict_loop mv m ks b = b ++ marshalDict_loop mv m ks "".
Proof.
  intros Hm. induction ks as [|k ks IH]; intros b; simpl.
  - reflexivity.
  - rewrite !marshalValue_at_get.
    destruct (map_get k m) as [v|] eqn:E.
    + assert (Hv : appends mv v).
      { rewrite Forall_forall in Hm.
        apply (Hm (k, v)). now apply map_get_In. }
      rewrite (Hv (marshalString k b)), (Hv (marshalString k "")).
      rewrite (marshalString_app k b), (marshalString_app k "").
      destruct (mv v "") as [o [e|]]; simpl.
      * now rewrite !str_app_assoc.
      * rewrite (IH ((b ++ _) ++ o)), (IH (_ ++ o)).
        now rewrite !str_app_assoc.
    + rewrite (marshalString_app k b), (marshalString_app k "").
      reflexivity.
Qed.

End marshal_facts.

(** [marshalValue] appends [enc v] to the buffer whatever the buffer holds,
    and its error depends on [v] alone. *)
Lemma marshalValue_app (v : any) :
  forall b, marshalValue v b = (b ++ enc v, snd (marshalValue v "")).
Proof.
  unfold enc. induction v as [n | s | l IH | m IH | ty] using any_ind';
    intros b; cbn [marshalValue fst snd].
  - now rewrite !marshalInt_app.
  - now rewrite !marshalString_app.
  - unfold marshalList, WriteRune.
    rewrite (marshalList_loop_app marshalValue l IH (b ++ "l")).
    rewrite (marshalList_loop_app marshalValue l IH ("" ++ "l")).
    now rewrite !str_app_assoc.
  - unfold marshalDict, WriteRune.
    rewrite (marshalDict_loop_app marshalValue m _ IH (b ++ "d")).
    rewrite (marshalDict_loop_app marshalValue m _ IH ("" ++ "d")).
    now rewrite !str_app_assoc.
  - now rewrite str_app_nil_r.
Qed.

Lemma marshalValue_error (v : any) :
  snd (marshalValue v "") =
  match v with
  | VOther ty => Some (ErrUnsupportedType ty)
  | _ => None
  end.
Proof. destruct v; reflexivity. Qed.

Lemma marshalValue_ok (v : any) (b : string) :
  is_other v = false -> marshalValue v b = (b ++ enc v, None).
Proof.
  intros H. rewrite marshalValue_app, marshalValue_error.
  destruct v; try reflexivity. discriminate.
Qed.

Lemma Marshal_ok (v : any) : is_other v = false -> Marshal v = Ok (enc v).
Proof.
  intros H. unfold Marshal. now rewrite (marshalValue_ok v "" H).
Qed.

Lemma enc_VInt (n : Z) : enc (VInt n) = String "i" (Itoa n ++ "e").
Proof. unfold enc. simpl. now rewrite marshalInt_app. Qed.

Lemma enc_VString (s : string) :
  enc (VString s) = Itoa (Z.of_nat (length s)) ++ String ":" s.
Proof. unfold enc. simpl. now rewrite marshalString_app. Qed.

Lemma marshalList_loop_items (l : list any) :
  Forall (fun v => is_other v = false) l ->
  marshalList_loop marshalValue l "" = enc_items l ++ "e".
Proof.
  induction 1 as [|x l Hx Hl IH]; simpl; [reflexivity|].
  rewrite (marshalValue_ok x "" Hx). simpl.
  rewrite marshalList_loop_app, IH.
  - now rewrite str_app_assoc.
  - apply Forall_forall. intros v _ b. apply marshalValue_app.
Qed.

Lemma enc_VList (l : list any) :
  Forall (fun v => is_other v = false) l ->
  enc (VList l) = String "l" (enc_items l ++ "e").
Proof.
  intros H. unfold enc. simpl. unfold marshalList, WriteRune. simpl.
  rewrite marshalList_loop_app.
  - now rewrite marshalList_loop_items by auto.
  - apply Forall_forall. intros v _ b. apply marshalValue_app.
Qed.

Lemma marshalDict_loop_entries (m : list (string * any)) (ks : list string) :
  Forall (fun kv => is_other (snd kv) = false) m ->
  Forall (fun k => map_get k m <> None) ks ->
  marshalDict_loop marshalValue m ks "" = enc_entries (entries_at ks m) ++ "e".
Proof.
  intros Hm. induction 1 as [|k ks Hk Hks IH]; simpl; [reflexivity|].
  rewrite marshalValue_at_get.
  destruct (map_get k m) as [v|] eqn:E; [|congruence].
  assert (Hv : is_other v = false).
  { rewrite Forall_forall in Hm. apply (Hm (k, v)). now apply map_get_In. }
  rewrite (marshalValue_ok v _ Hv).
  rewrite marshalDict_loop_app, IH.
  - unfold enc_entries at 2; fold enc_entries. unfold enc_entry. simpl.
    now rewrite !str_app_assoc.
  - apply Forall_forall. intros kv _ b. apply marshalValue_app.
Qed.

Lemma map_get_key_In (k : string) (m : list (string * any)) :
  In k (map fst m) -> map_get k m <> None.
Proof.
  induction m as [|[k' v] m IH]; simpl; [tauto|].
  destruct (String.eqb_spec k' k) as [-> | Hne]; [discriminate|].
  intros [H | H]; [contradiction | now apply IH].
Qed.

Lemma map_get_None (k : string) (m : list (string * any)) :
  ~ In k (map fst m) -> map_get k m = None.
Proof.
  induction m as [|[k' v] m IH]; simpl; [reflexivity|].
  destruct (String.eqb_spec k' k) as [-> | Hne]; [tauto|].
  intros H. apply IH. tauto.
Qed.

Lemma enc_VDict (m : list (string * any)) :
  Forall (fun kv => is_other (snd kv) = false) m ->
  enc (VDict m) =
  String "d" (enc_entries (entries_at (sort_strings (map fst m)) m) ++ "e").
Proof.
  intros H. unfold enc. simpl. unfold marshalDict, WriteRune. simpl.
  rewrite marshalDict_loop_app.
  - rewrite marshalDict_loop_entries; [reflexivity | exact H |].
    apply Forall_forall. intros k Hk. apply map_get_key_In.
    eapply Permutation_in; [apply sort_strings_perm | exact Hk].
  - apply Forall_forall. intros kv _ b. apply marshalValue_app.
Qed.

(** ** The decoder on the output of the encoder *)

Lemma readUntilColon_loop_spec (t : string) :
  forall fuel r buf tl,
    occurs ":" t = false ->
    remaining r = t ++ String ":" tl ->
    (length t < fuel)%nat ->
    readUntilColon_loop fuel r buf = Ok (buf ++ t, advance (S (length t)) r).
Proof.
  induction t as [|c t IH]; intros fuel r buf tl Hocc Hrem Hfuel;
    (destruct fuel as [|f]; [simpl in Hfuel; lia|]); simpl in Hrem |- *.
  - rewrite (readByte_cons r _ _ Hrem). simpl. now rewrite str_app_nil_r.
  - simpl in Hocc. apply orb_false_iff in Hocc as [Hc Hocc].
    rewrite (readByte_cons r _ _ Hrem). simpl. rewrite Hc.
    rewrite (IH f (advance 1 r) _ tl Hocc).
    + rewrite str_app_assoc, advance_advance. simpl.
      now rewrite Nat.add_1_r.
    + now apply remaining_advance_cons in Hrem.
    + simpl in Hfuel. lia.
Qed.

Lemma unmarshalInt_loop_spec (t : string) :
  forall fuel r buf tl,
    occurs "e" t = false ->
    remaining r = t ++ String "e" tl ->
    (length t < fuel)%nat ->
    unmarshalInt_loop fuel r buf = Ok (buf ++ t, advance (S (length t)) r).
Proof.
  induction t as [|c t IH]; intros fuel r buf tl Hocc Hrem Hfuel;
    (destruct fuel as [|f]; [simpl in Hfuel; lia|]); simpl in Hrem |- *.
  - rewrite (readByte_cons r _ _ Hrem). simpl. now rewrite str_app_nil_r.
  - simpl in Hocc. apply orb_false_iff in Hocc as [Hc Hocc].
    rewrite (readByte_cons r _ _ Hrem). simpl. rewrite Hc.
    rewrite (IH f (advance 1 r) _ tl Hocc).
    + rewrite str_app_assoc, advance_advance. simpl.
      now rewrite Nat.add_1_r.
    + now apply remaining_advance_cons in Hrem.
    + simpl in Hfuel. lia.
Qed.

(** [unmarshalInt] behind the ['i'] of an encoded integer. *)
Lemma unmarshalInt_Itoa (n : Z) (fuel : nat) (r : Reader) (tl : string) :
  int_range n ->
  remaining r = Itoa n ++ String "e" tl ->
  (length (Itoa n) < fuel)%nat ->
  unmarshalInt fuel r = Ok (n, advance (S (length (Itoa n))) r).
Proof.
  intros Hr Hrem Hfuel. unfold unmarshalInt.
  rewrite (unmarshalInt_loop_spec (Itoa n) fuel r "" tl); try assumption.
  - cbn [bind append]. now rewrite Atoi_Itoa.
  - now apply Itoa_occurs.
Qed.

Lemma len_ok_range (s : string) :
  len_ok s = true -> 0 <= Z.of_nat (length s) <= maxAlloc.
Proof. unfold len_ok. rewrite Z.leb_le. lia. Qed.

Lemma maxAlloc_int_range (n : Z) : 0 <= n <= maxAlloc -> int_range n.
Proof. unfold maxAlloc, int_range. lia. Qed.

Lemma make_bytes_ok (n : Z) : 0 <= n <= maxAlloc -> make_bytes n = Ok n.
Proof.
  intros H. unfold make_bytes.
  destruct (Z.ltb_spec n 0); [lia|].
  destruct (Z.ltb_spec maxAlloc n); [lia | reflexivity].
Qed.

(** [unmarshalString] on an encoded string. *)
Lemma unmarshalString_spec (s : string) (fuel : nat) (r : Reader) (tl : string) :
  len_ok s = true ->
  remaining r = marshalString s "" ++ tl ->
  (length (Itoa (Z.of_nat (length s))) < fuel)%nat ->
  unmarshalString fuel r = Ok (s, advance (length (marshalString s "")) r).
Proof.
  intros Hlen Hrem Hfuel. apply len_ok_range in Hlen.
  rewrite marshalString_app in Hrem |- *. cbn [append] in Hrem |- *.
  rewrite str_app_assoc in Hrem. cbn [append] in Hrem.
  unfold unmarshalString, readUntilColon.
  rewrite (readUntilColon_loop_spec (Itoa (Z.of_nat (length s))) fuel r ""
             (s ++ tl)); try assumption.
  - cbn [bind append].
    rewrite Atoi_Itoa by now apply maxAlloc_int_range.
    rewrite make_bytes_ok by assumption. cbn [bind].
    rewrite (ReadFull_enough _ s tl).
    + rewrite advance_advance, str_length_app. cbn [length].
      do 3 f_equal. lia.
    + rewrite remaining_advance, Hrem.
      change (S (length (Itoa (Z.of_nat (length s)))))
        with (1 + length (Itoa (Z.of_nat (length s))))%nat.
      rewrite <- drop_drop, drop_length_app. reflexivity.
  - now apply Itoa_occurs.
Qed.

(** The first byte of an encoded string is a digit. *)
Lemma marshalString_head (s : string) :
  exists c t, marshalString s "" = String c t /\ is_digit c = true.
Proof.
  rewrite marshalString_app. cbn [append].
  destruct (Itoa_nat_digits (length s)) as [Hd Hne].
  destruct (Itoa (Z.of_nat (length s))) as [|c t]; [congruence|].
  exists c, (t ++ String ":" s). split; [reflexivity|].
  cbn [all_digits] in Hd. now apply andb_true_iff in Hd.
Qed.

(** The first byte of an encoded value is not the terminator. *)
Lemma enc_head (v : any) :
  is_other v = false ->
  exists c t, enc v = String c t /\ Ascii.eqb c "e" = false.
Proof.
  intros H. destruct v as [n | s | l | m | ty]; try discriminate.
  - rewrite enc_VInt. eauto.
  - rewrite enc_VString. destruct (marshalString_head s) as (c & t & E & Hd).
    rewrite marshalString_app in E. cbn [append] in E. rewrite E.
    exists c, t. split; [reflexivity|]. now apply is_digit_neq.
  - exists "l"%char, (marshalList_loop marshalValue l "").
    split; [|reflexivity]. unfold enc. cbn [marshalValue fst].
    unfold marshalList, WriteRune. cbn [append].
    rewrite marshalList_loop_app; [reflexivity|].
    apply Forall_forall. intros x _ b. apply marshalValue_app.
  - exists "d"%char, (marshalDict_loop marshalValue m (sort_strings (map fst m)) "").
    split; [|reflexivity]. unfold enc. cbn [marshalValue fst].
    unfold marshalDict, WriteRune. cbn [append].
    rewrite marshalDict_loop_app; [reflexivity|].
    apply Forall_forall. intros x _ b. apply marshalValue_app.
Qed.

Lemma enc_length_pos (v : any) : is_other v = false -> (1 <= length (enc v))%nat.
Proof.
  intros H. destruct (enc_head v H) as (c & t & -> & _). simpl. lia.
Qed.

(** *** Maps as association lists *)

Lemma map_get_set (k k' : string) (v : any) (d : list (string * any)) :
  map_get k (map_set k' v d) =
  if String.eqb k' k then Some v else map_get k d.
Proof.
  induction d as [|[k0 v0] d IH]; simpl.
  - reflexivity.
  - destruct (String.eqb_spec k0 k') as [-> | Hne]; simpl.
    + destruct (String.eqb k' k); reflexivity.
    + rewrite IH. destruct (String.eqb_spec k0 k) as [-> | Hne'];
        [|reflexivity].
      destruct (String.eqb_spec k' k) as [-> | _]; [congruence | reflexivity].
Qed.

Lemma In_map_set (e : string * any) (k : string) (v : any)
  (d : list (string * any)) :
  In e (map_set k v d) -> e = (k, v) \/ In e d.
Proof.
  induction d as [|[k0 v0] d IH]; simpl.
  - intros [<- | []]. now left.
  - destruct (String.eqb_spec k0 k) as [-> | Hne]; simpl.
    + intros [<- | H]; [now left | now right; right].
    + intros [<- | H]; [now right; left|].
      destruct (IH H) as [-> | H']; [now left | now right; right].
Qed.

Lemma map_set_keys (k : string) (v : any) (d : list (string * any)) :
  NoDup (map fst d) -> NoDup (map fst (map_set k v d)).
Proof.
  induction d as [|[k0 v0] d IH]; simpl; intros Hn.
  - repeat constructor. tauto.
  - inversion Hn as [|? ? Hk Hd]; subst.
    destruct (String.eqb_spec k0 k) as [-> | Hne]; simpl.
    + now constructor.
    + constructor; [|now apply IH].
      intros Hin. apply in_map_iff in Hin as ([k1 v1] & E & Hin).
      simpl in E. subst k1.
      destruct (In_map_set _ _ _ _ Hin) as [[= -> ->] | H]; [congruence|].
      apply Hk. apply in_map_iff. now exists (k0, v1).
Qed.

Lemma map_get_app (k : string) (a b : list (string * any)) :
  map_get k (a ++ b) =
  match map_get k a with
  | Some v => Some v
  | None => map_get k b
  end.
Proof.
  induction a as [|[k0 v0] a IH]; simpl; [reflexivity|].
  destruct (String.eqb k0 k); [reflexivity | exact IH].
Qed.

(** After the assignments [es], a key is bound to the value of its last
    assignment, or as before when it was not assigned. *)
Lemma map_get_assign_all (k : string) (es : list (string * any)) :
  forall d,
    map_get k (assign_all es d) =
    match map_get k (rev es) with
    | Some v => Some v
    | None => map_get k d
    end.
Proof.
  unfold assign_all.
  induction es as [|[k0 v0] es IH]; intros d; simpl; [reflexivity|].
  rewrite IH, map_get_app, map_get_set. simpl.
  destruct (map_get k (rev es)); [reflexivity|].
  destruct (String.eqb k0 k); reflexivity.
Qed.

Lemma assign_all_keys (es : list (string * any)) :
  forall d, NoDup (map fst d) -> NoDup (map fst (assign_all es d)).
Proof.
  unfold assign_all.
  induction es as [|[k0 v0] es IH]; intros d Hd; simpl; [exact Hd|].
  apply IH. now apply map_set_keys.
Qed.

Lemma In_assign_all (e : string * any) (es : list (string * any)) :
  forall d, In e (assign_all es d) -> In e es \/ In e d.
Proof.
  unfold assign_all.
  induction es as [|[k0 v0] es IH]; intros d; simpl; [tauto|].
  intros H. destruct (IH _ H) as [H' | H']; [tauto|].
  destruct (In_map_set _ _ _ _ H') as [-> | H'']; tauto.
Qed.

Lemma map_get_In_nodup (k : string) (v : any) (m : list (string * any)) :
  NoDup (map fst m) -> In (k, v) m -> map_get k m = Some v.
Proof.
  induction m as [|[k0 v0] m IH]; simpl; intros Hn Hin; [tauto|].
  inversion Hn as [|? ? Hk Hm]; subst.
  destruct Hin as [[= -> ->] | Hin].
  - now rewrite String.eqb_refl.
  - destruct (String.eqb_spec k0 k) as [-> | Hne]; [|now apply IH].
    exfalso. apply Hk. apply in_map_iff. now exists (k, v).
Qed.

Lemma entries_at_keys (ks : list string) (m : list (string * any)) :
  Forall (fun k => map_get k m <> None) ks ->
  map fst (entries_at ks m) = ks.
Proof.
  induction 1 as [|k ks Hk Hks IH]; simpl; [reflexivity|].
  destruct (map_get k m); [|congruence]. simpl. now rewrite IH.
Qed.

Lemma In_entries_at (e : string * any) (ks : list string)
  (m : list (string * any)) :
  In e (entries_at ks m) <-> In (fst e) ks /\ map_get (fst e) m = Some (snd e).
Proof.
  induction ks as [|k ks IH]; simpl; [tauto|].
  destruct (map_get k m) as [v|] eqn:E; simpl; rewrite IH; split.
  - intros [<- | [H1 H2]]; simpl; auto.
  - intros [[-> | H1] H2].
    + left. destruct e; simpl in *. congruence.
    + right. auto.
  - intros [H1 H2]. auto.
  - intros [[-> | H1] H2]; [congruence | auto].
Qed.

(** *** The loops of the decoder *)

Lemma enc_items_length (l : list any) :
  Forall (fun v => is_other v = false) l ->
  (List.length l <= length (enc_items l))%nat.
Proof.
  induction 1 as [|v l Hv Hl IH]; simpl; [lia|].
  rewrite str_length_app. pose proof (enc_length_pos v Hv). lia.
Qed.

(** The loop of [unmarshalList] over the encodings of [l]: it arrives
    behind them with the decoded members appended. *)
Lemma unmarshalList_items (l : list any) :
  Forall (fun v => is_other v = false /\ decodes_back v) l ->
  forall fuel r acc tl,
    remaining r = enc_items l ++ tl ->
    (2 * length (enc_items l) < fuel)%nat ->
    exists l',
      Forall2 value_rel l' l
      /\ unmarshalList fuel r acc =
         unmarshalList (fuel - List.length l)
           (advance (length (enc_items l)) r) (acc ++ l')%list.
Proof.
  induction 1 as [|v l [Hv Hdec] Hl IH]; intros fuel r acc tl Hrem Hfuel.
  - exists []. split; [constructor|].
    cbn [enc_items length List.length]. rewrite Nat.sub_0_r, advance_0.
    now rewrite app_nil_r.
  - cbn [enc_items] in *. rewrite str_length_app in *.
    pose proof (enc_length_pos v Hv) as Hpos.
    destruct fuel as [|f]; [lia|].
    rewrite str_app_assoc in Hrem.
    destruct (Hdec f r _ Hrem ltac:(lia)) as (v' & Hval & Hrel).
    destruct (enc_head v Hv) as (c & t & Ehd & Hc).
    assert (Hrem' : remaining r = String c (t ++ enc_items l ++ tl)).
    { rewrite Hrem, Ehd. reflexivity. }
    destruct (IH f (advance (length (enc v)) r) (acc ++ [v'])%list tl)
      as (l' & Hl' & Hloop).
    { now apply remaining_advance_app in Hrem. }
    { lia. }
    exists (v' :: l'). split; [now constructor|].
    cbn [unmarshalList]. rewrite (readByte_cons r _ _ Hrem').
    cbn [bind]. rewrite Hc, unreadByte_advance. cbn [bind].
    rewrite Hval. cbn [bind]. rewrite Hloop.
    rewrite advance_advance, <- app_assoc. cbn [List.length app].
    f_equal. f_equal. lia.
Qed.

Lemma enc_entry_length (e : string * any) :
  is_other (snd e) = false -> (2 <= length (enc_entry e))%nat.
Proof.
  intros H. unfold enc_entry. rewrite str_length_app.
  pose proof (enc_length_pos _ H).
  destruct (marshalString_head (fst e)) as (c & t & -> & _). simpl. lia.
Qed.

Lemma enc_entries_length (es : list (string * any)) :
  Forall (fun e => is_other (snd e) = false) es ->
  (List.length es <= length (enc_entries es))%nat.
Proof.
  induction 1 as [|e es He Hes IH]; simpl; [lia|].
  rewrite str_length_app. pose proof (enc_entry_length e He). lia.
Qed.

Lemma marshalString_length (k : string) :
  (length (Itoa (Z.of_nat (length k))) < length (marshalString k ""))%nat.
Proof.
  rewrite marshalString_app. cbn [append]. rewrite str_length_app. simpl. lia.
Qed.

(** The loop of [unmarshalDict] over the encodings of the bindings [es]:
    it arrives behind them with the decoded bindings assigned in turn. *)
Lemma unmarshalDict_entries (es : list (string * any)) :
  Forall (fun e => len_ok (fst e) = true /\ is_other (snd e) = false
                   /\ decodes_back (snd e)) es ->
  forall fuel r acc tl,
    remaining r = enc_entries es ++ tl ->
    (2 * length (enc_entries es) < fuel)%nat ->
    exists es',
      Forall2 entry_rel es' es
      /\ unmarshalDict fuel r acc =
         unmarshalDict (fuel - List.length es)
           (advance (length (enc_entries es)) r) (assign_all es' acc).
Proof.
  induction 1 as [|[k v] es (Hk & Hv & Hdec) Hes IH];
    intros fuel r acc tl Hrem Hfuel.
  - exists []. split; [constructor|].
    cbn [enc_entries length List.length]. rewrite Nat.sub_0_r, advance_0.
    reflexivity.
  - cbn [fst snd] in *. cbn [enc_entries] in *. unfold enc_entry in *.
    cbn [fst snd] in *. rewrite !str_length_app in *.
    pose proof (enc_length_pos v Hv) as Hpos.
    pose proof (marshalString_length k) as Hklen.
    destruct fuel as [|f]; [lia|].
    rewrite !str_app_assoc in Hrem.
    pose proof (unmarshalString_spec k f r _ Hk Hrem ltac:(lia)) as Hkey.
    pose proof (remaining_advance_app _ _ _ Hrem) as Hrem1.
    destruct (Hdec f _ _ Hrem1 ltac:(lia)) as (v' & Hval & Hrel).
    pose proof (remaining_advance_app _ _ _ Hrem1) as Hrem2.
    destruct (marshalString_head k) as (c & t & Ehd & Hc).
    assert (Hrem' : remaining r = String c (t ++ enc v ++ enc_entries es ++ tl)).
    { rewrite Hrem, Ehd. reflexivity. }
    destruct (IH f _ (map_set k v' acc) tl Hrem2 ltac:(lia))
      as (es' & Hes' & Hloop).
    exists ((k, v') :: es'). split.
    { constructor; [|exact Hes']. split; [reflexivity | exact Hrel]. }
    cbn [unmarshalDict]. rewrite (readByte_cons r _ _ Hrem').
    cbn [bind]. rewrite (is_digit_neq c "e" Hc eq_refl), unreadByte_advance.
    cbn [bind]. rewrite Hkey. cbn [bind]. rewrite Hval. cbn [bind].
    rewrite Hloop. rewrite !advance_advance. cbn [List.length].
    unfold assign_all. cbn [fold_left fst snd].
    f_equal. f_equal. lia.
Qed.

Lemma Forall2_In_l {A B : Type} (R : A -> B -> Prop) (l : list A) (l' : list B)
  (x : A) :
  Forall2 R l l' -> In x l -> exists y, In y l' /\ R x y.
Proof.
  induction 1 as [|a b l l' Hab Hl IH]; simpl; [tauto|].
  intros [<- | Hin].
  - exists b. auto.
  - destruct (IH Hin) as (y & Hy & Hr). exists y. auto.
Qed.

Lemma Forall2_In_r {A B : Type} (R : A -> B -> Prop) (l : list A) (l' : list B)
  (y : B) :
  Forall2 R l l' -> In y l' -> exists x, In x l /\ R x y.
Proof.
  induction 1 as [|a b l l' Hab Hl IH]; simpl; [tauto|].
  intros [<- | Hin].
  - exists a. auto.
  - destruct (IH Hin) as (x & Hx & Hr). exists x. auto.
Qed.

Lemma entry_rel_keys (es' es : list (string * any)) :
  Forall2 entry_rel es' es -> map fst es' = map fst es.
Proof.
  induction 1 as [|a b l l' [Hk _] Hl IH]; simpl; [reflexivity|].
  now rewrite Hk, IH.
Qed.

Lemma supported_not_other (v : any) : supported v = true -> is_other v = false.
Proof. destruct v; simpl; congruence. Qed.

(** The map decoded from the bindings of [m] in ascending key order equals
    [m] up to order, and is a valid map of supported values. *)
Lemma decoded_dict_rel (m es' : list (string * any)) :
  NoDup (map fst m) ->
  Forall (fun e => len_ok (fst e) = true) m ->
  Forall2 entry_rel es' (entries_at (sort_strings (map fst m)) m) ->
  value_rel (VDict (assign_all es' [])) (VDict m).
Proof.
  intros Hnd Hlen Hrel.
  set (ks := sort_strings (map fst m)) in *.
  assert (Hperm : Permutation ks (map fst m)) by apply sort_strings_perm.
  assert (Hfound : Forall (fun k => map_get k m <> None) ks).
  { apply Forall_forall. intros k Hk. apply map_get_key_In.
    eapply Permutation_in; eauto. }
  assert (Hkeys : map fst es' = ks).
  { rewrite (entry_rel_keys _ _ Hrel). now apply entries_at_keys. }
  assert (Hndks : NoDup ks).
  { eapply Permutation_NoDup; [apply Permutation_sym; exact Hperm | exact Hnd]. }
  assert (Hin : forall e, In e (assign_all es' []) ->
                exists e0, In e0 m /\ entry_rel e e0).
  { intros e He. apply In_assign_all in He as [He | []].
    destruct (Forall2_In_l _ _ _ _ Hrel He) as (e0 & He0 & Hr).
    exists e0. split; [|exact Hr].
    apply In_entries_at in He0 as [_ Hget].
    apply map_get_In in Hget. now destruct e0. }
  split; [|split].
  - constructor. intros k. rewrite map_get_assign_all. cbn [map_get].
    destruct (in_dec string_dec k (map fst m)) as [Hk | Hk].
    + destruct (map_get k m) as [v|] eqn:Eget;
        [|now apply map_get_key_In in Hk].
      assert (He : In (k, v) (entries_at ks m)).
      { apply In_entries_at. cbn [fst snd]. split; [|exact Eget].
        eapply Permutation_in; [apply Permutation_sym; exact Hperm | exact Hk]. }
      destruct (Forall2_In_r _ _ _ _ Hrel He) as ([k' v'] & He' & Hk' & Hv').
      cbn [fst snd] in Hk', Hv'. subst k'.
      rewrite (map_get_In_nodup k v' (rev es')).
      * constructor. apply Hv'.
      * rewrite map_rev, Hkeys. now apply NoDup_rev.
      * now apply in_rev in He'.
    + rewrite (map_get_None k m Hk).
      rewrite map_get_None; [constructor|].
      rewrite map_rev, Hkeys, <- in_rev. intros Hin'. apply Hk.
      eapply Permutation_in; eauto.
  - cbn [valid]. apply andb_true_iff. split.
    + apply nodupb_NoDup, assign_all_keys. constructor.
    + apply forallb_forall. intros e He.
      destruct (Hin e He) as (e0 & He0 & Hk & _ & Hv & _).
      rewrite Hk, Hv. rewrite Forall_forall in Hlen.
      now rewrite (Hlen e0 He0).
  - cbn [supported]. apply forallb_forall. intros e He.
    destruct (Hin e He) as (e0 & He0 & Hk & _ & _ & Hs). exact Hs.
Qed.

(** Every valid value of the four variants is read back from its encoding. *)
Lemma decodes_back_all (v : any) :
  valid v = true -> supported v = true -> decodes_back v.
Proof.
  induction v as [n | s | l IH | m IH | ty] using any_ind';
    intros Hval Hsup fuel r tl Hrem Hfuel.
  - (* integer *)
    rewrite enc_VInt in *. cbn [append length] in *.
    rewrite str_length_app in *. cbn [length] in Hfuel.
    destruct fuel as [|f]; [lia|].
    cbn [valid] in Hval. apply int_rangeb_iff in Hval.
    rewrite str_app_assoc in Hrem. cbn [append] in Hrem.
    exists (VInt n). split.
    + cbn [unmarshalValue]. rewrite (readByte_cons r _ _ Hrem). cbn [bind].
      change (Ascii.eqb "i" "i") with true. cbv iota.
      rewrite (unmarshalInt_Itoa n f (advance 1 r) tl Hval).
      * cbn [bind]. rewrite advance_advance. do 3 f_equal; lia.
      * now apply remaining_advance_cons in Hrem.
      * lia.
    + repeat split; [constructor|]. cbn [valid]. now apply int_rangeb_iff.
  - (* string *)
    cbn [valid] in Hval.
    assert (E : enc (VString s) = marshalString s "").
    { rewrite enc_VString, marshalString_app. reflexivity. }
    rewrite E in *.
    pose proof (marshalString_length s) as Hl.
    destruct fuel as [|f]; [lia|].
    destruct (marshalString_head s) as (c & t & Ehd & Hc).
    assert (Hrem' : remaining r = String c (t ++ tl)).
    { rewrite Hrem, Ehd. reflexivity. }
    exists (VString s). split.
    + cbn [unmarshalValue]. rewrite (readByte_cons r _ _ Hrem'). cbn [bind].
      rewrite (is_digit_neq c "i" Hc eq_refl).
      rewrite (is_digit_neq c "l" Hc eq_refl).
      rewrite (is_digit_neq c "d" Hc eq_refl).
      rewrite unreadByte_advance. cbn [bind].
      rewrite (unmarshalString_spec s f r tl Hval Hrem ltac:(lia)).
      reflexivity.
    + repeat split; [constructor | exact Hval].
  - (* list *)
    cbn [valid supported] in Hval, Hsup.
    rewrite forallb_forall in Hval, Hsup. rewrite Forall_forall in IH.
    assert (Hno : Forall (fun v => is_other v = false) l).
    { apply Forall_forall. intros x Hx. now apply supported_not_other, Hsup. }
    rewrite (enc_VList l Hno) in *. cbn [length] in *.
    rewrite str_length_app in *. cbn [length] in Hfuel.
    destruct fuel as [|f]; [lia|].
    destruct (unmarshalList_items l) with (fuel := f) (r := advance 1 r)
      (acc := @nil any) (tl := String "e" tl) as (l' & Hl' & Hloop).
    { apply Forall_forall. intros x Hx. split.
      - now apply supported_not_other, Hsup.
      - apply IH; auto. }
    { apply remaining_advance_cons in Hrem.
      now rewrite str_app_assoc in Hrem. }
    { lia. }
    pose proof (enc_items_length l Hno) as Hn.
    destruct (f - List.length l)%nat as [|g] eqn:Eg; [lia|].
    exists (VList l'). split.
    + cbn [unmarshalValue]. rewrite (readByte_cons r _ _ Hrem). cbn [bind].
      change (Ascii.eqb "l" "i") with false.
      change (Ascii.eqb "l" "l") with true. cbv iota.
      rewrite Hloop. cbn [unmarshalList app].
      rewrite (readByte_cons _ "e" tl).
      * cbn [bind]. change (Ascii.eqb "e" "e") with true. cbv iota.
        cbn [bind]. rewrite !advance_advance. do 3 f_equal; lia.
      * apply remaining_advance_cons in Hrem.
        rewrite str_app_assoc in Hrem.
        now apply remaining_advance_app in Hrem.
    + split; [|split].
      * constructor. eapply Forall2_impl; [|exact Hl'].
        intros a b Hab. apply Hab.
      * cbn [valid]. apply forallb_forall. intros x Hx.
        destruct (Forall2_In_l _ _ _ _ Hl' Hx) as (y & _ & _ & Hv & _).
        exact Hv.
      * cbn [supported]. apply forallb_forall. intros x Hx.
        destruct (Forall2_In_l _ _ _ _ Hl' Hx) as (y & _ & _ & _ & Hs).
        exact Hs.
  - (* dictionary *)
    cbn [valid supported] in Hval, Hsup.
    apply andb_true_iff in Hval as [Hnd Hval]. apply nodupb_NoDup in Hnd.
    rewrite forallb_forall in Hval, Hsup. rewrite Forall_forall in IH.
    assert (Hno : Forall (fun e => is_other (snd e) = false) m).
    { apply Forall_forall. intros x Hx. now apply supported_not_other, Hsup. }
    rewrite (enc_VDict m Hno) in *.
    set (es := entries_at (sort_strings (map fst m)) m) in *.
    cbn [length] in *. rewrite str_length_app in *. cbn [length] in Hfuel.
    destruct fuel as [|f]; [lia|].
    assert (Hes : forall e, In e es -> In e m).
    { intros e He. apply In_entries_at in He as [_ Hget].
      apply map_get_In in Hget. now destruct e. }
    destruct (unmarshalDict_entries es) with (fuel := f) (r := advance 1 r)
      (acc := @nil (string * any)) (tl := String "e" tl)
      as (es' & Hes' & Hloop).
    { apply Forall_forall. intros e He. apply Hes in He.
      specialize (Hval e He). apply andb_true_iff in Hval as [Hk Hv].
      repeat split; [exact Hk | now apply supported_not_other, Hsup|].
      apply IH; auto. }
    { apply remaining_advance_cons in Hrem.
      now rewrite str_app_assoc in Hrem. }
    { lia. }
    assert (Hn : (List.length es <= length (enc_entries es))%nat).
    { apply enc_entries_length. apply Forall_forall. intros e He.
      rewrite Forall_forall in Hno. now apply Hno, Hes. }
    destruct (f - List.length es)%nat as [|g] eqn:Eg; [lia|].
    exists (VDict (assign_all es' [])). split.
    + cbn [unmarshalValue]. rewrite (readByte_cons r _ _ Hrem). cbn [bind].
      change (Ascii.eqb "d" "i") with false.
      change (Ascii.eqb "d" "l") with false.
      change (Ascii.eqb "d" "d") with true. cbv iota.
      rewrite Hloop. cbn [unmarshalDict].
      rewrite (readByte_cons _ "e" tl).
      * cbn [bind]. change (Ascii.eqb "e" "e") with true. cbv iota.
        cbn [bind]. rewrite !advance_advance. do 3 f_equal; lia.
      * apply remaining_advance_cons in Hrem.
        rewrite str_app_assoc in Hrem.
        now apply remaining_advance_app in Hrem.
    + apply decoded_dict_rel; [exact Hnd | | exact Hes'].
      apply Forall_forall. intros e He. specialize (Hval e He).
      now apply andb_true_iff in Hval.
  - discriminate.
Qed.

(** ** Progress and termination of the decoder *)

Lemma get_Some_lt (n : nat) (s : string) (c : ascii) :
  get n s = Some c -> (n < length s)%nat.
Proof.
  revert s; induction n as [|n IH]; intros [|x s]; simpl; try discriminate.
  - lia.
  - intros H. apply IH in H. lia.
Qed.

Lemma readByte_inv (r : Reader) (c : ascii) (r1 : Reader) :
  readByte r = Ok (c, r1) ->
  r1 = advance 1 r /\ bytes_left r = S (bytes_left r1).
Proof.
  unfold readByte. destruct (get (rd_i r) (rd_s r)) eqn:E; [|discriminate].
  intros [= -> <-]. split; [reflexivity|].
  apply get_Some_lt in E. unfold bytes_left, advance. simpl. lia.
Qed.

Lemma readByte_not_out (r : Reader) : readByte r <> OutOfFuel.
Proof. unfold readByte. destruct (get (rd_i r) (rd_s r)); discriminate. Qed.

Lemma ReadFull_left (r : Reader) (n : Z) (x : string) (r1 : Reader) :
  ReadFull r n = Ok (x, r1) -> (bytes_left r1 <= bytes_left r)%nat.
Proof.
  unfold ReadFull. destruct (n <=? Z.of_nat (length (remaining r)));
    [|destruct (length (remaining r) =? 0)%nat; discriminate].
  intros [= _ <-]. unfold bytes_left, advance. simpl. lia.
Qed.

Lemma ReadFull_not_out (r : Reader) (n : Z) : ReadFull r n <> OutOfFuel.
Proof.
  unfold ReadFull. destruct (n <=? Z.of_nat (length (remaining r)));
    [|destruct (length (remaining r) =? 0)%nat]; discriminate.
Qed.

Lemma make_bytes_not_out (n : Z) : make_bytes n <> OutOfFuel.
Proof. unfold make_bytes. destruct (_ || _); discriminate. Qed.

Lemma readUntilColon_loop_left (fuel : nat) :
  forall r buf x r1,
    readUntilColon_loop fuel r buf = Ok (x, r1) ->
    (bytes_left r1 < bytes_left r)%nat.
Proof.
  induction fuel as [|f IH]; intros r buf x r1 H; [discriminate|].
  cbn [readUntilColon_loop] in H. inv_bind H.
  apply readByte_inv in E as [-> Hl].
  destruct (Ascii.eqb a ":").
  - injection H as _ <-. lia.
  - apply IH in H. lia.
Qed.

Lemma unmarshalInt_loop_left (fuel : nat) :
  forall r buf x r1,
    unmarshalInt_loop fuel r buf = Ok (x, r1) ->
    (bytes_left r1 < bytes_left r)%nat.
Proof.
  induction fuel as [|f IH]; intros r buf x r1 H; [discriminate|].
  cbn [unmarshalInt_loop] in H. inv_bind H.
  apply readByte_inv in E as [-> Hl].
  destruct (Ascii.eqb a "e").
  - injection H as _ <-. lia.
  - apply IH in H. lia.
Qed.

Lemma unmarshalInt_left (fuel : nat) (r : Reader) (n : Z) (r1 : Reader) :
  unmarshalInt fuel r = Ok (n, r1) -> (bytes_left r1 < bytes_left r)%nat.
Proof.
  unfold unmarshalInt. intros H. inv_bind H.
  apply unmarshalInt_loop_left in E.
  destruct (Atoi s); [|discriminate]. injection H as _ <-. exact E.
Qed.

Lemma unmarshalString_left (fuel : nat) (r : Reader) (x : string) (r1 : Reader) :
  unmarshalString fuel r = Ok (x, r1) -> (bytes_left r1 < bytes_left r)%nat.
Proof.
  unfold unmarshalString, readUntilColon. intros H. inv_bind H.
  apply readUntilColon_loop_left in E.
  destruct (Atoi s); [|discriminate]. inv_bind H.
  apply ReadFull_left in H. lia.
Qed.

(** A successful call of the decoder consumes at least one byte. *)
Lemma unmarshal_left (fuel : nat) :
  (forall r v r1,
      unmarshalValue fuel r = Ok (v, r1) -> (bytes_left r1 < bytes_left r)%nat)
  /\ (forall r acc l r1,
      unmarshalList fuel r acc = Ok (l, r1) ->
      (bytes_left r1 < bytes_left r)%nat)
  /\ (forall r acc m r1,
      unmarshalDict fuel r acc = Ok (m, r1) ->
      (bytes_left r1 < bytes_left r)%nat).
Proof.
  induction fuel as [|f (IHv & IHl & IHd)];
    [repeat split; intros; discriminate|].
  repeat split.
  - intros r v r1 H. cbn [unmarshalValue] in H. inv_bind H.
    apply readByte_inv in E as [-> Hl].
    destruct (Ascii.eqb a "i"); [|destruct (Ascii.eqb a "l");
                                   [|destruct (Ascii.eqb a "d")]].
    + inv_bind H. apply unmarshalInt_left in E. injection H as _ <-. lia.
    + inv_bind H. apply IHl in E. injection H as _ <-. lia.
    + inv_bind H. apply IHd in E. injection H as _ <-. lia.
    + rewrite unreadByte_advance in H. cbn [bind] in H. inv_bind H.
      apply unmarshalString_left in E. injection H as _ <-. exact E.
  - intros r acc l r1 H. cbn [unmarshalList] in H. inv_bind H.
    apply readByte_inv in E as [-> Hl].
    destruct (Ascii.eqb a "e").
    + injection H as _ <-. lia.
    + rewrite unreadByte_advance in H. cbn [bind] in H. inv_bind H.
      apply IHv in E. apply IHl in H. lia.
  - intros r acc m r1 H. cbn [unmarshalDict] in H. inv_bind H.
    apply readByte_inv in E as [-> Hl].
    destruct (Ascii.eqb a "e").
    + injection H as _ <-. lia.
    + rewrite unreadByte_advance in H. cbn [bind] in H. inv_bind H.
      apply unmarshalString_left in E. inv_bind H.
      apply IHv in E0. apply IHd in H. lia.
Qed.

Lemma readUntilColon_loop_not_out (fuel : nat) :
  forall r buf,
    (bytes_left r < fuel)%nat -> readUntilColon_loop fuel r buf <> OutOfFuel.
Proof.
  induction fuel as [|f IH]; intros r buf Hf; [lia|].
  cbn [readUntilColon_loop]. apply bind_not_out; [apply readByte_not_out|].
  intros [c r1] E. apply readByte_inv in E as [-> Hl].
  destruct (Ascii.eqb c ":"); [discriminate|]. apply IH. lia.
Qed.

Lemma unmarshalInt_loop_not_out (fuel : nat) :
  forall r buf,
    (bytes_left r < fuel)%nat -> unmarshalInt_loop fuel r buf <> OutOfFuel.
Proof.
  induction fuel as [|f IH]; intros r buf Hf; [lia|].
  cbn [unmarshalInt_loop]. apply bind_not_out; [apply readByte_not_out|].
  intros [c r1] E. apply readByte_inv in E as [-> Hl].
  destruct (Ascii.eqb c "e"); [discriminate|]. apply IH. lia.
Qed.

Lemma unmarshalInt_not_out (fuel : nat) (r : Reader) :
  (bytes_left r < fuel)%nat -> unmarshalInt fuel r <> OutOfFuel.
Proof.
  intros Hf. unfold unmarshalInt. apply bind_not_out.
  - now apply unmarshalInt_loop_not_out.
  - intros [buf r1] _. destruct (Atoi buf); discriminate.
Qed.

Lemma unmarshalString_not_out (fuel : nat) (r : Reader) :
  (bytes_left r < fuel)%nat -> unmarshalString fuel r <> OutOfFuel.
Proof.
  intros Hf. unfold unmarshalString, readUntilColon. apply bind_not_out.
  - now apply readUntilColon_loop_not_out.
  - intros [buf r1] _. destruct (Atoi buf); [|discriminate].
    apply bind_not_out; [apply make_bytes_not_out|].
    intros n _. apply ReadFull_not_out.
Qed.

(** Fuel linear in the number of unread bytes is never exhausted. *)
Lemma unmarshal_not_out (fuel : nat) :
  (forall r, (2 * bytes_left r + 2 <= fuel)%nat ->
             unmarshalValue fuel r <> OutOfFuel)
  /\ (forall r acc, (2 * bytes_left r + 3 <= fuel)%nat ->
                    unmarshalList fuel r acc <> OutOfFuel)
  /\ (forall r acc, (2 * bytes_left r + 3 <= fuel)%nat ->
                    unmarshalDict fuel r acc <> OutOfFuel).
Proof.
  induction fuel as [|f (IHv & IHl & IHd)]; [repeat split; intros; lia|].
  destruct (unmarshal_left f) as (Lv & Ll & Ld).
  repeat split.
  - intros r Hf. cbn [unmarshalValue].
    apply bind_not_out; [apply readByte_not_out|].
    intros [c r1] E. apply readByte_inv in E as [-> Hl].
    destruct (Ascii.eqb c "i"); [|destruct (Ascii.eqb c "l");
                                   [|destruct (Ascii.eqb c "d")]].
    + apply bind_not_out; [apply unmarshalInt_not_out; lia|].
      intros [n r2] _. discriminate.
    + apply bind_not_out; [apply IHl; lia|]. intros [l r2] _. discriminate.
    + apply bind_not_out; [apply IHd; lia|]. intros [m r2] _. discriminate.
    + rewrite unreadByte_advance. cbn [bind].
      apply bind_not_out; [apply unmarshalString_not_out; lia|].
      intros [x r2] _. discriminate.
  - intros r acc Hf. cbn [unmarshalList].
    apply bind_not_out; [apply readByte_not_out|].
    intros [c r1] E. apply readByte_inv in E as [-> Hl].
    destruct (Ascii.eqb c "e"); [discriminate|].
    rewrite unreadByte_advance. cbn [bind].
    apply bind_not_out; [apply IHv; lia|].
    intros [v r2] E. apply Lv in E. apply IHl. lia.
  - intros r acc Hf. cbn [unmarshalDict].
    apply bind_not_out; [apply readByte_not_out|].
    intros [c r1] E. apply readByte_inv in E as [-> Hl].
    destruct (Ascii.eqb c "e"); [discriminate|].
    rewrite unreadByte_advance. cbn [bind].
    apply bind_not_out; [apply unmarshalString_not_out; lia|].
    intros [k r2] Ek. apply unmarshalString_left in Ek.
    apply bind_not_out; [apply IHv; lia|].
    intros [v r3] E. apply Lv in E. apply IHd. lia.
Qed.

(** [Unmarshal] never runs out of the fuel it gives itself. *)
Lemma Unmarshal_fuel (data : string) : Unmarshal data <> OutOfFuel.
Proof.
  unfold Unmarshal. apply bind_not_out.
  - apply unmarshal_not_out. unfold fuel_for, bytes_left, NewReader. simpl.
    lia.
  - intros [v r] _. discriminate.
Qed.

(** ** Equality up to the order of maps *)

Lemma equiv_refl (v : any) : equiv v v.
Proof.
  induction v as [n | s | l IH | m IH | ty] using any_ind'; constructor.
  - induction IH; constructor; auto.
  - intros k. induction IH as [|[k0 v0] m Hv Hm IHm]; simpl; [constructor|].
    destruct (String.eqb k0 k); [now constructor | exact IHm].
Qed.

Lemma map_get_keys_iff (k : string) (m : list (string * any)) :
  In k (map fst m) <-> map_get k m <> None.
Proof.
  split; [apply map_get_key_In|].
  intros H. destruct (in_dec string_dec k (map fst m)) as [Hin | Hin];
    [exact Hin|].
  now apply map_get_None in Hin.
Qed.

(** Maps with the same bindings have the same keys. *)
Lemma equiv_keys_perm (m1 m2 : list (string * any)) :
  NoDup (map fst m1) -> NoDup (map fst m2) ->
  (forall k, opt_rel equiv (map_get k m1) (map_get k m2)) ->
  Permutation (map fst m1) (map fst m2).
Proof.
  intros H1 H2 H. apply NoDup_Permutation; try assumption.
  intros k. rewrite !map_get_keys_iff.
  destruct (H k); split; congruence.
Qed.

Lemma valid_dict_inv (m : list (string * any)) :
  valid (VDict m) = true ->
  NoDup (map fst m)
  /\ forall k v, map_get k m = Some v -> valid v = true.
Proof.
  cbn [valid]. intros H. apply andb_true_iff in H as [Hn Hv].
  split; [now apply nodupb_NoDup|].
  intros k v Hget. apply map_get_In in Hget.
  rewrite forallb_forall in Hv. specialize (Hv _ Hget).
  now apply andb_true_iff in Hv.
Qed.

(** Values equal up to the order of maps are encoded alike. *)
Lemma equiv_marshalValue (v1 : any) :
  forall v2,
    equiv v1 v2 -> valid v1 = true -> valid v2 = true ->
    forall b, marshalValue v1 b = marshalValue v2 b.
Proof.
  induction v1 as [n | s | l1 IH | m1 IH | ty] using any_ind';
    intros v2 He Hv1 Hv2 b; inversion He; subst; try reflexivity.
  - (* lists *)
    cbn [marshalValue]. f_equal. unfold marshalList.
    cbn [valid] in Hv1, Hv2. rewrite forallb_forall in Hv1, Hv2.
    generalize (WriteRune b "l"). clear He.
    match goal with H : Forall2 equiv _ _ |- _ => rename H into Hl end.
    induction Hl as [|x y l1 l2 Hxy Hl IHl]; intros buf; [reflexivity|].
    inversion IH as [|? ? Hx IH']; subst.
    cbn [marshalList_loop].
    rewrite (Hx y Hxy (Hv1 x (or_introl eq_refl)) (Hv2 y (or_introl eq_refl))).
    destruct (marshalValue y buf) as [b1 [e|]]; [reflexivity|].
    apply IHl; auto.
    + intros z Hz. apply Hv1. now right.
    + intros z Hz. apply Hv2. now right.
  - (* maps *)
    match goal with H : forall k, opt_rel equiv _ _ |- _ => rename H into Hm end.
    destruct (valid_dict_inv _ Hv1) as [Hn1 Hg1].
    destruct (valid_dict_inv _ Hv2) as [Hn2 Hg2].
    cbn [marshalValue]. f_equal. unfold marshalDict.
    rewrite (sort_strings_perm_eq _ _ (equiv_keys_perm _ _ Hn1 Hn2 Hm)).
    generalize (WriteRune b "d").
    generalize (sort_strings (map fst m2)) as ks.
    induction ks as [|k ks IHks]; intros buf; [reflexivity|].
    cbn [marshalDict_loop]. rewrite !marshalValue_at_get.
    pose proof (Hm k) as Hk.
    destruct (map_get k m1) as [x|] eqn:E1;
      destruct (map_get k m2) as [y|] eqn:E2; inversion Hk as [|? ? Hxy];
      subst; [|reflexivity].
    rewrite Forall_forall in IH.
    rewrite (IH (k, x) (map_get_In k m1 x E1) y Hxy (Hg1 k x E1) (Hg2 k y E2)).
    destruct (marshalValue y (marshalString k buf)) as [b1 [e|]];
      [reflexivity | apply IHks].
Qed.

Lemma equiv_Marshal (v1 v2 : any) :
  equiv v1 v2 -> valid v1 = true -> valid v2 = true ->
  Marshal v1 = Marshal v2.
Proof.
  intros He H1 H2. unfold Marshal.
  now rewrite (equiv_marshalValue v1 v2 He H1 H2).
Qed.

(** ** [Unmarshal] on an encoding followed by anything *)

Lemma remaining_NewReader (data : string) : remaining (NewReader data) = data.
Proof. reflexivity. Qed.

Lemma Unmarshal_enc (v : any) (tl : string) :
  valid v = true -> supported v = true ->
  exists v', Unmarshal (enc v ++ tl) = Ok v' /\ value_rel v' v.
Proof.
  intros Hv Hs.
  destruct (decodes_back_all v Hv Hs (fuel_for (enc v ++ tl))
              (NewReader (enc v ++ tl)) tl) as (v' & Hdec & Hrel).
  - apply remaining_NewReader.
  - unfold fuel_for. rewrite str_length_app. lia.
  - exists v'. split; [|exact Hrel].
    unfold Unmarshal. now rewrite Hdec.
Qed.

(** ** Deep nestings *)

Lemma nested_not_other (n : nat) : is_other (nested n) = false.
Proof. destruct n; reflexivity. Qed.

Lemma nested_valid (n : nat) : valid (nested n) = true.
Proof. induction n as [|n IH]; simpl; [reflexivity | now rewrite IH]. Qed.

Lemma nested_supported (n : nat) : supported (nested n) = true.
Proof. induction n as [|n IH]; simpl; [reflexivity | now rewrite IH]. Qed.

Lemma nested_depth (n : nat) : depth (nested n) = S n.
Proof.
  induction n as [|n IH]; [reflexivity|].
  cbn [nested depth fold_right]. rewrite IH. now rewrite Nat.max_0_r.
Qed.

Lemma nested_enc (n : nat) : enc (nested n) = deep n.
Proof.
  induction n as [|n IH]; [reflexivity|].
  cbn [nested deep]. rewrite enc_VList.
  - cbn [enc_items]. now rewrite str_app_nil_r, IH.
  - constructor; [apply nested_not_other | constructor].
Qed.

Lemma equiv_nested (n : nat) : forall v, equiv v (nested n) -> v = nested n.
Proof.
  induction n as [|n IH]; intros v H; inversion H as [| |l1 l2 Hl| |]; subst.
  - inversion Hl. reflexivity.
  - inversion Hl as [|x y l1' l2' Hxy Hl']; subst. inversion Hl'; subst.
    now rewrite (IH x Hxy).
Qed.

(** Lists nested to any depth are decoded. *)
Lemma Unmarshal_deep (n : nat) : Unmarshal (deep n) = Ok (nested n).
Proof.
  destruct (Unmarshal_enc (nested n) "" (nested_valid n) (nested_supported n))
    as (v' & Hdec & Hrel & _).
  rewrite str_app_nil_r, nested_enc in Hdec.
  now rewrite Hdec, (equiv_nested n v' Hrel).
Qed.

(** ** The integer production *)

(** The text between ['i'] and ['e'] is handed to [strconv.Atoi] as it is. *)
Lemma Unmarshal_int_text (t tl : string) :
  occurs "e" t = false ->
  Unmarshal (String "i" (t ++ String "e" tl)) =
  match Atoi t with
  | Some n => Ok (VInt n)
  | None => Err ErrInvalidInteger
  end.
Proof.
  intros Hocc. unfold Unmarshal, fuel_for.
  set (data := String "i" (t ++ String "e" tl)).
  assert (Hlen : (length t < 2 * length data + 3)%nat).
  { unfold data. cbn [length]. rewrite str_length_app. lia. }
  replace (2 * length data + 4)%nat with (S (2 * length data + 3)) by lia.
  cbn [unmarshalValue].
  rewrite (readByte_cons (NewReader data) "i" (t ++ String "e" tl) eq_refl).
  cbn [bind]. change (Ascii.eqb "i" "i") with true. cbv iota.
  unfold unmarshalInt.
  rewrite (unmarshalInt_loop_spec t _ (advance 1 (NewReader data)) "" tl Hocc);
    [|reflexivity | exact Hlen].
  cbn [bind append]. destruct (Atoi t); reflexivity.
Qed.

(** ** Truncated input *)

(** A string whose declared length fits an allocation but exceeds what is
    left: [io.ReadFull] reports [io.EOF] when nothing is left and
    [io.ErrUnexpectedEOF] otherwise. *)
Lemma Unmarshal_short_string (t s : string) :
  all_digits t = true -> t <> "" ->
  Z.of_nat (length s) < digits_value 0 t <= maxAlloc ->
  Unmarshal (t ++ String ":" s) =
  Err (if (length s =? 0)%nat then EOF else ErrUnexpectedEOF).
Proof.
  intros Hd Hne Hn. unfold Unmarshal, fuel_for.
  set (data := t ++ String ":" s).
  assert (Hlen : (length t < 2 * length data + 3)%nat).
  { unfold data. rewrite str_length_app. lia. }
  replace (2 * length data + 4)%nat with (S (2 * length data + 3)) by lia.
  assert (Hex : exists c t', t = String c t')
    by (destruct t; [congruence | eauto]).
  destruct Hex as (c & t' & Et).
  assert (Hc : is_digit c = true).
  { rewrite Et in Hd. cbn [all_digits] in Hd. now apply andb_true_iff in Hd. }
  assert (Hrem : remaining (NewReader data) = String c (t' ++ String ":" s)).
  { unfold data. rewrite Et. reflexivity. }
  cbn [unmarshalValue]. rewrite (readByte_cons _ _ _ Hrem). cbn [bind].
  rewrite (is_digit_neq c "i" Hc eq_refl).
  rewrite (is_digit_neq c "l" Hc eq_refl).
  rewrite (is_digit_neq c "d" Hc eq_refl).
  rewrite unreadByte_advance. cbn [bind].
  unfold unmarshalString, readUntilColon.
  rewrite (readUntilColon_loop_spec t _ (NewReader data) "" s);
    [| now apply all_digits_occurs | reflexivity | exact Hlen].
  cbn [bind append]. rewrite Atoi_digits by assumption.
  rewrite int_rangeb_true by (apply maxAlloc_int_range; lia).
  rewrite make_bytes_ok by lia. cbn [bind].
  unfold ReadFull.
  assert (Hs : remaining (advance (S (length t)) (NewReader data)) = s).
  { rewrite remaining_advance, remaining_NewReader.
    change (S (length t)) with (1 + length t)%nat.
    rewrite <- drop_drop. unfold data. now rewrite drop_length_app. }
  rewrite Hs.
  destruct (Z.leb_spec (digits_value 0 t) (Z.of_nat (length s))); [lia|].
  destruct (length s =? 0)%nat; reflexivity.
Qed.

(** The end of the input before the terminator of a list: the [io.EOF] of
    [readByte]. *)
Lemma Unmarshal_open_list (l : list any) :
  forallb (fun v => valid v && supported v) l = true ->
  Unmarshal (String "l" (enc_items l)) = Err EOF.
Proof.
  intros Hl. rewrite forallb_forall in Hl.
  assert (Hno : Forall (fun v => is_other v = false) l).
  { apply Forall_forall. intros v Hv. specialize (Hl v Hv).
    apply andb_true_iff in Hl as [_ Hs]. now apply supported_not_other. }
  unfold Unmarshal, fuel_for.
  set (data := String "l" (enc_items l)).
  replace (2 * length data + 4)%nat with (S (2 * length data + 3)) by lia.
  cbn [unmarshalValue].
  rewrite (readByte_cons (NewReader data) "l" (enc_items l) eq_refl).
  cbn [bind]. change (Ascii.eqb "l" "i") with false.
  change (Ascii.eqb "l" "l") with true. cbv iota.
  destruct (unmarshalList_items l) with (fuel := (2 * length data + 3)%nat)
    (r := advance 1 (NewReader data)) (acc := @nil any) (tl := "")
    as (l' & _ & Hloop).
  { apply Forall_forall. intros v Hv. specialize (Hl v Hv).
    apply andb_true_iff in Hl as [Hva Hs]. split.
    - now apply supported_not_other.
    - now apply decodes_back_all. }
  { now rewrite str_app_nil_r. }
  { unfold data. cbn [length]. lia. }
  rewrite Hloop. pose proof (enc_items_length l Hno) as Hn.
  destruct (2 * length data + 3 - List.length l)%nat as [|g] eqn:Eg.
  { unfold data in Eg. cbn [length] in Eg. lia. }
  cbn [unmarshalList]. rewrite readByte_nil; [reflexivity|].
  rewrite remaining_advance.
  change (remaining (advance 1 (NewReader data))) with (enc_items l).
  rewrite <- (str_app_nil_r (enc_items l)) at 2. apply drop_length_app.
Qed.

(** The same before the terminator of a dictionary. *)
Lemma Unmarshal_open_dict (es : list (string * any)) :
  forallb (fun e => len_ok (fst e) && valid (snd e) && supported (snd e)) es
  = true ->
  Unmarshal (String "d" (enc_entries es)) = Err EOF.
Proof.
  intros Hes. rewrite forallb_forall in Hes.
  assert (Hall : forall e, In e es ->
            len_ok (fst e) = true /\ valid (snd e) = true
            /\ supported (snd e) = true).
  { intros e He. specialize (Hes e He).
    apply andb_true_iff in Hes as [Hes Hs].
    apply andb_true_iff in Hes as [Hk Hv]. auto. }
  assert (Hno : Forall (fun e => is_other (snd e) = false) es).
  { apply Forall_forall. intros e He.
    now apply supported_not_other, (Hall e He). }
  unfold Unmarshal, fuel_for.
  set (data := String "d" (enc_entries es)).
  replace (2 * length data + 4)%nat with (S (2 * length data + 3)) by lia.
  cbn [unmarshalValue].
  rewrite (readByte_cons (NewReader data) "d" (enc_entries es) eq_refl).
  cbn [bind]. change (Ascii.eqb "d" "i") with false.
  change (Ascii.eqb "d" "l") with false.
  change (Ascii.eqb "d" "d") with true. cbv iota.
  destruct (unmarshalDict_entries es) with (fuel := (2 * length data + 3)%nat)
    (r := advance 1 (NewReader data)) (acc := @nil (string * any)) (tl := "")
    as (es' & _ & Hloop).
  { apply Forall_forall. intros e He. destruct (Hall e He) as (Hk & Hv & Hs).
    repeat split; [exact Hk | now apply supported_not_other|].
    now apply decodes_back_all. }
  { now rewrite str_app_nil_r. }
  { unfold data. cbn [length]. lia. }
  rewrite Hloop. pose proof (enc_entries_length es Hno) as Hn.
  destruct (2 * length data + 3 - List.length es)%nat as [|g] eqn:Eg.
  { unfold data in Eg. cbn [length] in Eg. lia. }
  cbn [unmarshalDict]. rewrite readByte_nil; [reflexivity|].
  rewrite remaining_advance.
  change (remaining (advance 1 (NewReader data))) with (enc_entries es).
  rewrite <- (str_app_nil_r (enc_entries es)) at 2. apply drop_length_app.
Qed.

(** ** Dictionaries with repeated keys *)

Lemma entry_rel_map_get (a b : list (string * any)) :
  Forall2 entry_rel a b ->
  forall k, opt_rel equiv (map_get k a) (map_get k b).
Proof.
  induction 1 as [|[k1 v1] [k2 v2] a b (Hk & Hv & _) Hab IH]; intros k;
    simpl; [constructor|].
  simpl in Hk, Hv. subst k2.
  destruct (String.eqb k1 k); [now constructor | apply IH].
Qed.

Lemma Forall2_rev {A B : Type} (R : A -> B -> Prop) (a : list A) (b : list B) :
  Forall2 R a b -> Forall2 R (rev a) (rev b).
Proof.
  induction 1 as [|x y a b Hxy Hab IH]; simpl; [constructor|].
  apply Forall2_app; [exact IH | repeat constructor; exact Hxy].
Qed.

(** ** More fuel and more data *)

Lemma readUntilColon_loop_more (f : nat) :
  forall f' r buf x,
    (f <= f')%nat ->
    readUntilColon_loop f r buf = Ok x -> readUntilColon_loop f' r buf = Ok x.
Proof.
  induction f as [|f IH]; intros f' r buf x Hf H; [discriminate|].
  destruct f' as [|f']; [lia|].
  cbn [readUntilColon_loop] in *. step_bind H E. rewrite E. cbn [bind].
  destruct (Ascii.eqb a ":"); [exact H|]. apply (IH f'); [lia | exact H].
Qed.

Lemma unmarshalInt_loop_more (f : nat) :
  forall f' r buf x,
    (f <= f')%nat ->
    unmarshalInt_loop f r buf = Ok x -> unmarshalInt_loop f' r buf = Ok x.
Proof.
  induction f as [|f IH]; intros f' r buf x Hf H; [discriminate|].
  destruct f' as [|f']; [lia|].
  cbn [unmarshalInt_loop] in *. step_bind H E. rewrite E. cbn [bind].
  destruct (Ascii.eqb a "e"); [exact H|]. apply (IH f'); [lia | exact H].
Qed.

Lemma unmarshalInt_more (f f' : nat) (r : Reader) (x : Z * Reader) :
  (f <= f')%nat -> unmarshalInt f r = Ok x -> unmarshalInt f' r = Ok x.
Proof.
  unfold unmarshalInt. intros Hf H. step_bind H E.
  now rewrite (unmarshalInt_loop_more f f' r "" _ Hf E).
Qed.

Lemma unmarshalString_more (f f' : nat) (r : Reader) (x : string * Reader) :
  (f <= f')%nat -> unmarshalString f r = Ok x -> unmarshalString f' r = Ok x.
Proof.
  unfold unmarshalString, readUntilColon. intros Hf H. step_bind H E.
  now rewrite (readUntilColon_loop_more f f' r "" _ Hf E).
Qed.

(** A result obtained with some fuel is obtained with any larger fuel. *)
Lemma unmarshal_more (f : nat) :
  (forall f' r x, (f <= f')%nat ->
      unmarshalValue f r = Ok x -> unmarshalValue f' r = Ok x)
  /\ (forall f' r acc x, (f <= f')%nat ->
      unmarshalList f r acc = Ok x -> unmarshalList f' r acc = Ok x)
  /\ (forall f' r acc x, (f <= f')%nat ->
      unmarshalDict f r acc = Ok x -> unmarshalDict f' r acc = Ok x).
Proof.
  induction f as [|f (IHv & IHl & IHd)];
    [repeat split; intros; discriminate|].
  repeat split.
  - intros f' r x Hf H. destruct f' as [|f']; [lia|].
    cbn [unmarshalValue] in *. step_bind H E. rewrite E. cbn [bind].
    destruct (Ascii.eqb a "i"); [|destruct (Ascii.eqb a "l");
                                   [|destruct (Ascii.eqb a "d")]].
    + step_bind H E1.
      rewrite (unmarshalInt_more f f' _ _ ltac:(lia) E1). exact H.
    + step_bind H E1. rewrite (IHl f' _ _ _ ltac:(lia) E1). exact H.
    + step_bind H E1. rewrite (IHd f' _ _ _ ltac:(lia) E1). exact H.
    + destruct (unreadByte r0 a) as [r2| | |]; try discriminate.
      cbn [bind] in *. step_bind H E1.
      rewrite (unmarshalString_more f f' _ _ ltac:(lia) E1). exact H.
  - intros f' r acc x Hf H. destruct f' as [|f']; [lia|].
    cbn [unmarshalList] in *. step_bind H E. rewrite E. cbn [bind].
    destruct (Ascii.eqb a "e"); [exact H|].
    destruct (unreadByte r0 a) as [r2| | |]; try discriminate.
    cbn [bind] in *. step_bind H E1.
    rewrite (IHv f' _ _ ltac:(lia) E1). cbn [bind].
    apply (IHl f'); [lia | exact H].
  - intros f' r acc x Hf H. destruct f' as [|f']; [lia|].
    cbn [unmarshalDict] in *. step_bind H E. rewrite E. cbn [bind].
    destruct (Ascii.eqb a "e"); [exact H|].
    destruct (unreadByte r0 a) as [r2| | |]; try discriminate.
    cbn [bind] in *. step_bind H E1.
    rewrite (unmarshalString_more f f' _ _ ltac:(lia) E1). cbn [bind].
    step_bind H E2. rewrite (IHv f' _ _ ltac:(lia) E2). cbn [bind].
    apply (IHd f'); [lia | exact H].
Qed.

Lemma readByte_extend (t : string) (r : Reader) (c : ascii) (r1 : Reader) :
  readByte r = Ok (c, r1) -> readByte (extend t r) = Ok (c, extend t r1).
Proof.
  unfold readByte. destruct (get (rd_i r) (rd_s r)) as [x|] eqn:E;
    [|discriminate].
  intros [= -> <-]. cbn [extend rd_i rd_s].
  rewrite <- append_correct1 by now apply get_Some_lt in E.
  now rewrite E.
Qed.

Lemma unreadByte_extend (t : string) (r : Reader) (c : ascii) (r1 : Reader) :
  unreadByte r c = Ok r1 -> unreadByte (extend t r) c = Ok (extend t r1).
Proof.
  unfold unreadByte. cbn [extend rd_i rd_s].
  destruct (rd_i r); [discriminate|]. now intros [= <-].
Qed.

Lemma ReadFull_extend (t : string) (r : Reader) (n : Z) (x : string)
  (r1 : Reader) :
  ReadFull r n = Ok (x, r1) -> ReadFull (extend t r) n = Ok (x, extend t r1).
Proof.
  unfold ReadFull, remaining. cbn [extend rd_i rd_s].
  destruct (Z.leb_spec n (Z.of_nat (length (drop (rd_i r) (rd_s r)))))
    as [Hn | Hn]; [|destruct (_ =? 0)%nat; discriminate].
  intros [= <- <-].
  rewrite length_drop in Hn.
  destruct (Z.leb_spec n (Z.of_nat (length (drop (rd_i r) (rd_s r ++ t)))))
    as [Hn' | Hn'].
  - f_equal. f_equal.
    destruct (Nat.le_gt_cases (rd_i r) (length (rd_s r))) as [Hi | Hi].
    + rewrite drop_app_l by exact Hi. apply take_app_l.
      rewrite length_drop. lia.
    + replace (Z.to_nat n) with O by lia. reflexivity.
  - rewrite length_drop, str_length_app in Hn'. lia.
Qed.

Lemma readUntilColon_loop_extend (t : string) (f : nat) :
  forall r buf x r1,
    readUntilColon_loop f r buf = Ok (x, r1) ->
    readUntilColon_loop f (extend t r) buf = Ok (x, extend t r1).
Proof.
  induction f as [|f IH]; intros r buf x r1 H; [discriminate|].
  cbn [readUntilColon_loop] in *. step_bind H E.
  rewrite (readByte_extend t _ _ _ E). cbn [bind].
  destruct (Ascii.eqb a ":"); [now injection H as <- <- | now apply IH].
Qed.

Lemma unmarshalInt_loop_extend (t : string) (f : nat) :
  forall r buf x r1,
    unmarshalInt_loop f r buf = Ok (x, r1) ->
    unmarshalInt_loop f (extend t r) buf = Ok (x, extend t r1).
Proof.
  induction f as [|f IH]; intros r buf x r1 H; [discriminate|].
  cbn [unmarshalInt_loop] in *. step_bind H E.
  rewrite (readByte_extend t _ _ _ E). cbn [bind].
  destruct (Ascii.eqb a "e"); [now injection H as <- <- | now apply IH].
Qed.

Lemma unmarshalInt_extend (t : string) (f : nat) (r : Reader) (n : Z)
  (r1 : Reader) :
  unmarshalInt f r = Ok (n, r1) ->
  unmarshalInt f (extend t r) = Ok (n, extend t r1).
Proof.
  unfold unmarshalInt. intros H. step_bind H E.
  rewrite (unmarshalInt_loop_extend t _ _ _ _ _ E). cbn [bind].
  destruct (Atoi s); [now injection H as <- <- | discriminate].
Qed.

Lemma unmarshalString_extend (t : string) (f : nat) (r : Reader) (x : string)
  (r1 : Reader) :
  unmarshalString f r = Ok (x, r1) ->
  unmarshalString f (extend t r) = Ok (x, extend t r1).
Proof.
  unfold unmarshalString, readUntilColon. intros H. step_bind H E.
  rewrite (readUntilColon_loop_extend t _ _ _ _ _ E). cbn [bind].
  destruct (Atoi s); [|discriminate].
  destruct (make_bytes z); try discriminate. cbn [bind] in *.
  now apply ReadFull_extend.
Qed.

(** A successful call does the same on a reader whose data goes on. *)
Lemma unmarshal_extend (t : string) (f : nat) :
  (forall r v r1,
      unmarshalValue f r = Ok (v, r1) ->
      unmarshalValue f (extend t r) = Ok (v, extend t r1))
  /\ (forall r acc l r1,
      unmarshalList f r acc = Ok (l, r1) ->
      unmarshalList f (extend t r) acc = Ok (l, extend t r1))
  /\ (forall r acc m r1,
      unmarshalDict f r acc = Ok (m, r1) ->
      unmarshalDict f (extend t r) acc = Ok (m, extend t r1)).
Proof.
  induction f as [|f (IHv & IHl & IHd)];
    [repeat split; intros; discriminate|].
  repeat split.
  - intros r v r1 H. cbn [unmarshalValue] in *. step_bind H E.
    rewrite (readByte_extend t _ _ _ E). cbn [bind].
    destruct (Ascii.eqb a "i"); [|destruct (Ascii.eqb a "l");
                                   [|destruct (Ascii.eqb a "d")]].
    + step_bind H E1. rewrite (unmarshalInt_extend t _ _ _ _ E1).
      cbn [bind]. now injection H as <- <-.
    + step_bind H E1. rewrite (IHl _ _ _ _ E1).
      cbn [bind]. now injection H as <- <-.
    + step_bind H E1. rewrite (IHd _ _ _ _ E1).
      cbn [bind]. now injection H as <- <-.
    + destruct (unreadByte r0 a) as [r2| | |] eqn:Eu; try discriminate.
      rewrite (unreadByte_extend t _ _ _ Eu). cbn [bind] in *.
      step_bind H E1. rewrite (unmarshalString_extend t _ _ _ _ E1).
      cbn [bind]. now injection H as <- <-.
  - intros r acc l r1 H. cbn [unmarshalList] in *. step_bind H E.
    rewrite (readByte_extend t _ _ _ E). cbn [bind].
    destruct (Ascii.eqb a "e"); [now injection H as <- <-|].
    destruct (unreadByte r0 a) as [r2| | |] eqn:Eu; try discriminate.
    rewrite (unreadByte_extend t _ _ _ Eu). cbn [bind] in *.
    step_bind H E1. rewrite (IHv _ _ _ E1). cbn [bind]. now apply IHl.
  - intros r acc m r1 H. cbn [unmarshalDict] in *. step_bind H E.
    rewrite (readByte_extend t _ _ _ E). cbn [bind].
    destruct (Ascii.eqb a "e"); [now injection H as <- <-|].
    destruct (unreadByte r0 a) as [r2| | |] eqn:Eu; try discriminate.
    rewrite (unreadByte_extend t _ _ _ Eu). cbn [bind] in *.
    step_bind H E1. rewrite (unmarshalString_extend t _ _ _ _ E1).
    cbn [bind]. step_bind H E2. rewrite (IHv _ _ _ E2). cbn [bind].
    now apply IHd.
Qed.

(** ** Canonical numerals are what [Itoa] prints *)

Lemma digit_val_zero (c : ascii) :
  is_digit c = true -> digit_val c = 0 -> c = "0"%char.
Proof.
  intros Hc H0. rewrite <- (digit_of_val c Hc), H0. reflexivity.
Qed.

Lemma leading_nonzero_app (s : string) (c : ascii) :
  s <> "" -> leading_nonzero (s ++ String c "") = leading_nonzero s.
Proof. destruct s; [congruence | reflexivity]. Qed.

Lemma utoa_aux_digits (t : string) :
  all_digits t = true -> leading_nonzero t = true ->
  1 <= digits_value 0 t
  /\ forall fuel, Z.log2 (digits_value 0 t) < Z.of_nat fuel ->
                  utoa_aux fuel (digits_value 0 t) = t.
Proof.
  induction t as [|s c IH] using string_rev_ind; intros Hd Hl;
    [discriminate|].
  rewrite all_digits_app in Hd. apply andb_true_iff in Hd as [Hs Hc].
  cbn [all_digits] in Hc. rewrite andb_true_r in Hc.
  pose proof (digit_val_range c Hc) as Hr.
  rewrite digits_value_snoc.
  destruct s as [|x s'] eqn:Es.
  - cbn [digits_value append] in *. cbn [leading_nonzero] in Hl.
    apply negb_true_iff, Ascii.eqb_neq in Hl.
    assert (digit_val c <> 0) by (intros H0; now apply Hl, digit_val_zero).
    split; [lia|]. intros fuel Hf.
    destruct fuel as [|f]; [pose proof (Z.log2_nonneg (10 * 0 + digit_val c)); lia|].
    cbn [utoa_aux].
    destruct (Z.ltb_spec (10 * 0 + digit_val c) 10); [|lia].
    replace (10 * 0 + digit_val c) with (digit_val c) by lia.
    now rewrite digit_of_val.
  - rewrite <- Es in *. rewrite leading_nonzero_app in Hl by congruence.
    destruct (IH Hs Hl) as [Hpos Hfuel].
    set (n' := digits_value 0 s) in *.
    assert (Hq : (10 * n' + digit_val c) / 10 = n').
    { symmetry. apply (Z.div_unique _ 10 n' (digit_val c)); lia. }
    assert (Hm : (10 * n' + digit_val c) mod 10 = digit_val c).
    { symmetry. apply (Z.mod_unique _ 10 n' (digit_val c)); lia. }
    split; [lia|]. intros fuel Hf.
    destruct fuel as [|f];
      [pose proof (Z.log2_nonneg (10 * n' + digit_val c)); lia|].
    cbn [utoa_aux].
    destruct (Z.ltb_spec (10 * n' + digit_val c) 10); [lia|].
    rewrite Hq, Hm, digit_of_val by exact Hc.
    rewrite Hfuel; [reflexivity|].
    pose proof (log2_div10 (10 * n' + digit_val c) ltac:(lia)) as Hlog.
    rewrite Hq in Hlog. lia.
Qed.

Lemma canonical_digits_inv (t : string) :
  canonical_digits t = true ->
  all_digits t = true /\ t <> ""
  /\ (leading_nonzero t = true \/ t = "0").
Proof.
  destruct t as [|c s]; [discriminate|]. unfold canonical_digits.
  intros H. apply andb_true_iff in H as [Hd Hz].
  split; [exact Hd|]. split; [discriminate|].
  apply orb_true_iff in Hz as [Hz | Hz]; [now left|].
  apply String.eqb_eq in Hz. subst s.
  destruct (Ascii.eqb_spec c "0") as [-> | Hne]; [now right|].
  left. cbn [leading_nonzero]. now apply negb_true_iff, Ascii.eqb_neq.
Qed.

Lemma Itoa_canonical_digits (t : string) :
  canonical_digits t = true ->
  0 <= digits_value 0 t /\ Itoa (digits_value 0 t) = t.
Proof.
  intros H. destruct (canonical_digits_inv t H) as (Hd & Hne & [Hl | ->]).
  - destruct (utoa_aux_digits t Hd Hl) as [Hpos Hfuel].
    split; [lia|]. unfold Itoa.
    destruct (Z.ltb_spec (digits_value 0 t) 0); [lia|].
    unfold utoa. apply Hfuel.
    pose proof (Z.log2_nonneg (digits_value 0 t)). lia.
  - split; [|reflexivity]. now vm_compute.
Qed.

Lemma Itoa_int_text (t : string) :
  canonical_int_text t = true -> Itoa (int_text_value t) = t.
Proof.
  destruct t as [|c s]; [discriminate|].
  unfold canonical_int_text, int_text_value.
  destruct (Ascii.eqb_spec c "-") as [-> | Hne].
  - intros H. apply andb_true_iff in H as [Hc Hz].
    apply negb_true_iff, String.eqb_neq in Hz.
    destruct (canonical_digits_inv s Hc) as (Hd & Hne & [Hl | ->]);
      [|congruence].
    destruct (utoa_aux_digits s Hd Hl) as [Hpos Hfuel].
    unfold Itoa. destruct (Z.ltb_spec (- digits_value 0 s) 0); [|lia].
    f_equal. unfold utoa. rewrite Z.opp_involutive. apply Hfuel.
    pose proof (Z.log2_nonneg (digits_value 0 s)). lia.
  - intros H. now apply Itoa_canonical_digits.
Qed.

(** ** Canonical encodings are the encodings of values *)

Lemma str_lt_trans (a b c : string) : str_lt a b -> str_lt b c -> str_lt a c.
Proof.
  intros Hab Hbc. apply str_le_neq_lt.
  - apply (str_le_trans a b c); now apply str_lt_le.
  - intros ->. apply (str_lt_irrefl b).
    assert (b = c) by (apply str_le_antisym; now apply str_lt_le).
    now subst.
Qed.

Lemma entries_at_self (es : list (string * any)) :
  NoDup (map fst es) -> entries_at (map fst es) es = es.
Proof.
  intros Hn.
  assert (H : forall l, incl l es -> NoDup (map fst es) ->
                        entries_at (map fst l) es = l).
  { induction l as [|[k v] l IH]; intros Hincl Hnd; [reflexivity|].
    cbn [map fst entries_at].
    rewrite (map_get_In_nodup k v es Hnd) by (apply Hincl; now left).
    rewrite IH; [reflexivity | | exact Hnd].
    intros e He. apply Hincl. now right. }
  apply H; [apply incl_refl | exact Hn].
Qed.

Lemma enc_sorted_dict (es : list (string * any)) :
  StronglySorted str_lt (map fst es) ->
  forallb (fun kv => supported (snd kv)) es = true ->
  enc (VDict es) = String "d" (enc_entries es ++ "e").
Proof.
  intros Hs Hsup. rewrite enc_VDict.
  - rewrite (sort_strings_sorted_id _ Hs).
    now rewrite entries_at_self by now apply strict_sorted_nodup.
  - apply Forall_forall. intros e He. rewrite forallb_forall in Hsup.
    now apply supported_not_other, Hsup.
Qed.

Lemma canonical_value :
  forall b, canonical b ->
    Z.of_nat (length b) <= maxAlloc ->
    exists v, valid v = true /\ supported v = true /\ enc v = b.
Proof.
  apply (canonical_mut
    (fun b => Z.of_nat (length b) <= maxAlloc ->
       exists v, valid v = true /\ supported v = true /\ enc v = b)
    (fun bs => Z.of_nat (length bs) <= maxAlloc ->
       exists l, forallb valid l = true /\ forallb supported l = true
                 /\ enc_items l = bs)
    (fun prev bs => Z.of_nat (length bs) <= maxAlloc ->
       exists es,
         forallb (fun kv => len_ok (fst kv) && valid (snd kv)) es = true
         /\ forallb (fun kv => supported (snd kv)) es = true
         /\ ascending_from prev (map fst es)
         /\ enc_entries es = bs)).
  - (* integer *)
    intros t Ht Hr _. exists (VInt (int_text_value t)).
    split; [now apply int_rangeb_iff|]. split; [reflexivity|].
    now rewrite enc_VInt, Itoa_int_text.
  - (* string *)
    intros t s Ht Hlen Hb. exists (VString s).
    destruct (Itoa_canonical_digits t Ht) as [_ Hi].
    split; [|split; [reflexivity|]].
    + cbn [valid]. unfold len_ok. apply Z.leb_le.
      rewrite str_length_app in Hb. cbn [length] in Hb. lia.
    + now rewrite enc_VString, <- Hlen, Hi.
  - (* list *)
    intros b _ IH Hb. cbn [length] in Hb. rewrite str_length_app in Hb.
    destruct (IH ltac:(lia)) as (l & Hv & Hs & He).
    exists (VList l). split; [exact Hv|]. split; [exact Hs|].
    rewrite enc_VList, He; [reflexivity|].
    apply Forall_forall. intros x Hx. rewrite forallb_forall in Hs.
    now apply supported_not_other, Hs.
  - (* dictionary *)
    intros b _ IH Hb. cbn [length] in Hb. rewrite str_length_app in Hb.
    destruct (IH ltac:(lia)) as (es & Hv & Hs & [Hsorted _] & He).
    exists (VDict es). split; [|split; [exact Hs|]].
    + cbn [valid]. rewrite Hv, andb_true_r.
      now apply nodupb_NoDup, strict_sorted_nodup.
    + now rewrite enc_sorted_dict, He.
  - (* no member *)
    intros _. exists []. repeat split.
  - (* a member and the rest *)
    intros b bs _ IHb _ IHbs Hlen. rewrite str_length_app in Hlen.
    destruct (IHb ltac:(lia)) as (v & Hv & Hs & He).
    destruct (IHbs ltac:(lia)) as (l & Hlv & Hls & Hle).
    exists (v :: l). cbn [forallb enc_items].
    now rewrite Hv, Hs, Hlv, Hls, He, Hle.
  - (* no binding *)
    intros prev _. exists []. repeat split. constructor.
  - (* a binding and the rest *)
    intros prev t k b bs Ht Hk Hab _ IHb _ IHbs Hlen.
    rewrite !str_length_app in Hlen. cbn [length] in Hlen.
    destruct (IHb ltac:(lia)) as (v & Hv & Hs & He).
    destruct (IHbs ltac:(lia)) as (es & Hev & Hes & [Hsorted Hhd] & Hee).
    destruct (Itoa_canonical_digits t Ht) as [_ Hi].
    exists ((k, v) :: es). cbn [forallb fst snd map enc_entries].
    split; [|split; [|split]].
    + rewrite Hv, Hev, !andb_true_r. unfold len_ok. apply Z.leb_le. lia.
    + now rewrite Hs, Hes.
    + split; [|exact Hab]. constructor; [exact Hsorted|].
      destruct (map fst es) as [|k1 ks] eqn:Ek; [constructor|].
      cbn [above] in Hhd. apply StronglySorted_inv in Hsorted as [_ Hall].
      constructor; [exact Hhd|].
      eapply Forall_impl; [|exact Hall]. intros k2. now apply str_lt_trans.
    + unfold enc_entry. cbn [fst snd].
      rewrite marshalString_app, He, Hee, <- Hk, Hi. cbn [append].
      now rewrite !str_app_assoc.
Qed.

(** [unmarshalDict] assigns the bindings of the input in their order. *)
Lemma unmarshalDict_bindings (fuel : nat) :
  forall r d acc,
    unmarshalDict fuel r (assign_all acc d)
    = '(es, r') <- dictBindings fuel r acc ;; Ok (assign_all es d, r').
Proof.
  induction fuel as [|f IH]; intros r d acc; [reflexivity|].
  cbn [unmarshalDict dictBindings].
  destruct (readByte r) as [[ch r1]| | |]; try reflexivity. cbn [bind].
  destruct (Ascii.eqb ch "e"); [reflexivity|].
  destruct (unreadByte r1 ch) as [r2| | |]; try reflexivity. cbn [bind].
  destruct (unmarshalString f r2) as [[key r3]| | |]; try reflexivity.
  cbn [bind].
  destruct (unmarshalValue f r3) as [[value r4]| | |]; try reflexivity.
  cbn [bind]. rewrite <- IH. unfold assign_all.
  now rewrite fold_left_app.
Qed.

(** ** The decoder under the limits of the runtime *)

Lemma length_remaining (r : Reader) : length (remaining r) = bytes_left r.
Proof. unfold remaining, bytes_left. apply length_drop. Qed.

Lemma bytes_left_advance (n : nat) (r : Reader) :
  bytes_left (advance n r) = (bytes_left r - n)%nat.
Proof. unfold bytes_left, advance. cbn [rd_s rd_i]. lia. Qed.

Lemma make_bytes_on_fit (heap n : Z) :
  n <= heap -> make_bytes_on heap n = make_bytes n.
Proof.
  intros H. unfold make_bytes_on, make_bytes.
  destruct (_ || _); [reflexivity|].
  destruct (Z.ltb_spec heap n); [lia | reflexivity].
Qed.

Lemma make_bytes_on_cases (heap n : Z) :
  make_bytes_on heap n = make_bytes n
  \/ make_bytes_on heap n = Panic out_of_memory.
Proof.
  unfold make_bytes_on, make_bytes. destruct (_ || _); [now left|].
  destruct (heap <? n); [now right | now left].
Qed.

Lemma unmarshalString_on_cases (heap : Z) (fuel : nat) (r : Reader) :
  unmarshalString_on heap fuel r = unmarshalString fuel r
  \/ unmarshalString_on heap fuel r = Panic out_of_memory.
Proof.
  unfold unmarshalString_on, unmarshalString.
  destruct (readUntilColon fuel r) as [[t r1]| | |]; cbn [bind]; auto.
  destruct (Atoi t) as [n|]; auto.
  destruct (make_bytes_on_cases heap n) as [-> | ->]; auto.
Qed.

Lemma unmarshalValue_on_S (heap : Z) (stack f depth : nat) (r : Reader) :
  unmarshalValue_on heap stack (S f) depth r
  = if (stack <? depth)%nat then Panic stack_overflow
    else
      '(ch, r1) <- readByte r ;;
      if Ascii.eqb ch "i" then
        '(n, r2) <- unmarshalInt f r1 ;; Ok (VInt n, r2)
      else if Ascii.eqb ch "l" then
        '(l, r2) <- unmarshalList_on heap stack f (S depth) r1 [] ;;
        Ok (VList l, r2)
      else if Ascii.eqb ch "d" then
        '(m, r2) <- unmarshalDict_on heap stack f (S depth) r1 [] ;;
        Ok (VDict m, r2)
      else
        r2 <- unreadByte r1 ch ;;
        '(str, r3) <- unmarshalString_on heap f r2 ;; Ok (VString str, r3).
Proof. reflexivity. Qed.

Lemma unmarshalList_on_S (heap : Z) (stack f depth : nat) (r : Reader)
  (lst : list any) :
  unmarshalList_on heap stack (S f) depth r lst
  = if (stack <? depth)%nat then Panic stack_overflow
    else
      '(ch, r1) <- readByte r ;;
      if Ascii.eqb ch "e" then Ok (lst, r1)
      else
        r2 <- unreadByte r1 ch ;;
        '(value, r3) <- unmarshalValue_on heap stack f (S depth) r2 ;;
        unmarshalList_on heap stack f depth r3 (lst ++ [value])%list.
Proof. reflexivity. Qed.

Lemma unmarshalDict_on_S (heap : Z) (stack f depth : nat) (r : Reader)
  (dict : list (string * any)) :
  unmarshalDict_on heap stack (S f) depth r dict
  = if (stack <? depth)%nat then Panic stack_overflow
    else
      '(ch, r1) <- readByte r ;;
      if Ascii.eqb ch "e" then Ok (dict, r1)
      else
        r2 <- unreadByte r1 ch ;;
        '(key, r3) <- unmarshalString_on heap f r2 ;;
        '(value, r4) <- unmarshalValue_on heap stack f (S depth) r3 ;;
        unmarshalDict_on heap stack f depth r4 (map_set key value dict).
Proof. reflexivity. Qed.

(** The decoder on a runtime returns what the decoder returns, unless
    the process ends in one of the two fatal errors. *)
Lemma unmarshal_on_cases (heap : Z) (stack fuel : nat) :
  (forall d r,
      unmarshalValue_on heap stack fuel d r = unmarshalValue fuel r
      \/ unmarshalValue_on heap stack fuel d r = Panic out_of_memory
      \/ unmarshalValue_on heap stack fuel d r = Panic stack_overflow)
  /\ (forall d r acc,
      unmarshalList_on heap stack fuel d r acc = unmarshalList fuel r acc
      \/ unmarshalList_on heap stack fuel d r acc = Panic out_of_memory
      \/ unmarshalList_on heap stack fuel d r acc = Panic stack_overflow)
  /\ (forall d r acc,
      unmarshalDict_on heap stack fuel d r acc = unmarshalDict fuel r acc
      \/ unmarshalDict_on heap stack fuel d r acc = Panic out_of_memory
      \/ unmarshalDict_on heap stack fuel d r acc = Panic stack_overflow).
Proof.
  induction fuel as [|f (IHv & IHl & IHd)]; [repeat split; intros; now left|].
  split; [|split].
  - intros d r. rewrite unmarshalValue_on_S. cbn [unmarshalValue].
    destruct (stack <? d)%nat; [now right; right|].
    destruct (readByte r) as [[ch r1]| | |]; cbn [bind]; auto.
    destruct (Ascii.eqb ch "i"); [now left|].
    destruct (Ascii.eqb ch "l").
    { destruct (IHl (S d) r1 []) as [-> | [-> | ->]]; auto. }
    destruct (Ascii.eqb ch "d").
    { destruct (IHd (S d) r1 []) as [-> | [-> | ->]]; auto. }
    destruct (unreadByte r1 ch) as [r2| | |]; cbn [bind]; auto.
    destruct (unmarshalString_on_cases heap f r2) as [-> | ->]; auto.
  - intros d r acc. rewrite unmarshalList_on_S. cbn [unmarshalList].
    destruct (stack <? d)%nat; [now right; right|].
    destruct (readByte r) as [[ch r1]| | |]; cbn [bind]; auto.
    destruct (Ascii.eqb ch "e"); [now left|].
    destruct (unreadByte r1 ch) as [r2| | |]; cbn [bind]; auto.
    destruct (IHv (S d) r2) as [-> | [-> | ->]]; auto.
    destruct (unmarshalValue f r2) as [[v r3]| | |]; cbn [bind]; auto.
  - intros d r acc. rewrite unmarshalDict_on_S. cbn [unmarshalDict].
    destruct (stack <? d)%nat; [now right; right|].
    destruct (readByte r) as [[ch r1]| | |]; cbn [bind]; auto.
    destruct (Ascii.eqb ch "e"); [now left|].
    destruct (unreadByte r1 ch) as [r2| | |]; cbn [bind]; auto.
    destruct (unmarshalString_on_cases heap f r2) as [-> | ->]; auto.
    destruct (unmarshalString f r2) as [[k r3]| | |]; cbn [bind]; auto.
    destruct (IHv (S d) r3) as [-> | [-> | ->]]; auto.
    destruct (unmarshalValue f r3) as [[v r4]| | |]; cbn [bind]; auto.
Qed.

Lemma Unmarshal_on_cases (heap : Z) (stack : nat) (data : string) :
  Unmarshal_on heap stack data = Unmarshal data
  \/ Unmarshal_on heap stack data = Panic out_of_memory
  \/ Unmarshal_on heap stack data = Panic stack_overflow.
Proof.
  unfold Unmarshal_on, Unmarshal.
  destruct (unmarshal_on_cases heap stack (fuel_for data)) as (Hv & _).
  destruct (Hv 1%nat (NewReader data)) as [-> | [-> | ->]]; auto.
Qed.

Lemma Unmarshal_on_fuel (heap : Z) (stack : nat) (data : string) :
  Unmarshal_on heap stack data <> OutOfFuel.
Proof.
  destruct (Unmarshal_on_cases heap stack data) as [-> | [-> | ->]];
    [apply Unmarshal_fuel | discriminate | discriminate].
Qed.


Lemma ReadFull_Ok_le (r : Reader) (n : Z) (x : string) (r1 : Reader) :
  ReadFull r n = Ok (x, r1) -> n <= Z.of_nat (bytes_left r).
Proof.
  unfold ReadFull. rewrite length_remaining.
  destruct (Z.leb_spec n (Z.of_nat (bytes_left r))); [auto|].
  destruct (_ =? _)%nat; discriminate.
Qed.

(** A string that is read in full was allocated in no more bytes than
    the input has. *)
Lemma unmarshalString_on_Ok (heap : Z) (fuel : nat) (r : Reader) (x : string)
  (r1 : Reader) :
  unmarshalString fuel r = Ok (x, r1) ->
  Z.of_nat (bytes_left r) <= heap ->
  unmarshalString_on heap fuel r = Ok (x, r1).
Proof.
  unfold unmarshalString, unmarshalString_on, readUntilColon.
  intros H Hheap.
  destruct (readUntilColon_loop fuel r "") as [[t r2]| | |] eqn:Et;
    cbn [bind] in *; try discriminate.
  apply readUntilColon_loop_left in Et.
  destruct (Atoi t) as [n|]; [|discriminate].
  destruct (make_bytes n) as [m| | |] eqn:Em; cbn [bind] in H;
    try discriminate.
  assert (m = n) as ->.
  { unfold make_bytes in Em. destruct (_ || _); congruence. }
  pose proof (ReadFull_Ok_le _ _ _ _ H) as Hn.
  rewrite make_bytes_on_fit, Em by lia. exact H.
Qed.

(** A run of the decoder that returns a value returns it on every runtime
    with memory for a copy of the input and a stack for two calls per
    byte. *)
Lemma unmarshal_on_Ok (heap : Z) (stack fuel : nat) :
  (forall d r v r1,
      unmarshalValue fuel r = Ok (v, r1) ->
      Z.of_nat (bytes_left r) <= heap ->
      (d + 2 * bytes_left r <= stack + 2)%nat ->
      unmarshalValue_on heap stack fuel d r = Ok (v, r1))
  /\ (forall d r acc l r1,
      unmarshalList fuel r acc = Ok (l, r1) ->
      Z.of_nat (bytes_left r) <= heap ->
      (d + 2 * bytes_left r <= stack + 1)%nat ->
      unmarshalList_on heap stack fuel d r acc = Ok (l, r1))
  /\ (forall d r acc m r1,
      unmarshalDict fuel r acc = Ok (m, r1) ->
      Z.of_nat (bytes_left r) <= heap ->
      (d + 2 * bytes_left r <= stack + 1)%nat ->
      unmarshalDict_on heap stack fuel d r acc = Ok (m, r1)).
Proof.
  induction fuel as [|f (IHv & IHl & IHd)];
    [repeat split; intros; discriminate|].
  destruct (unmarshal_left f) as (Lv & Ll & Ld).
  split; [|split].
  - intros d r v r1 H Hheap Hstack. rewrite unmarshalValue_on_S.
    cbn [unmarshalValue] in H. inv_bind H.
    pose proof E as E'. apply readByte_inv in E' as [-> Hl].
    destruct (Nat.ltb_spec stack d); [lia|].
    rewrite E. cbn [bind].
    destruct (Ascii.eqb a "i"); [exact H|].
    destruct (Ascii.eqb a "l").
    { inv_bind H. rewrite (IHl _ _ _ _ _ E0) by lia. exact H. }
    destruct (Ascii.eqb a "d").
    { inv_bind H. rewrite (IHd _ _ _ _ _ E0) by lia. exact H. }
    rewrite unreadByte_advance in *. cbn [bind] in *. inv_bind H.
    rewrite (unmarshalString_on_Ok heap f r _ _ E0 Hheap). exact H.
  - intros d r acc l r1 H Hheap Hstack. rewrite unmarshalList_on_S.
    cbn [unmarshalList] in H. inv_bind H.
    pose proof E as E'. apply readByte_inv in E' as [-> Hl].
    destruct (Nat.ltb_spec stack d); [lia|].
    rewrite E. cbn [bind].
    destruct (Ascii.eqb a "e"); [exact H|].
    rewrite unreadByte_advance in *. cbn [bind] in *. inv_bind H.
    rewrite (IHv _ _ _ _ E0) by lia. cbn [bind].
    apply Lv in E0. apply IHl; [exact H | lia | lia].
  - intros d r acc m r1 H Hheap Hstack. rewrite unmarshalDict_on_S.
    cbn [unmarshalDict] in H. inv_bind H.
    pose proof E as E'. apply readByte_inv in E' as [-> Hl].
    destruct (Nat.ltb_spec stack d); [lia|].
    rewrite E. cbn [bind].
    destruct (Ascii.eqb a "e"); [exact H|].
    rewrite unreadByte_advance in *. cbn [bind] in *. inv_bind H.
    rewrite (unmarshalString_on_Ok heap f r _ _ E0 Hheap). cbn [bind].
    apply unmarshalString_left in E0. inv_bind H.
    rewrite (IHv _ _ _ _ E1) by lia. cbn [bind].
    apply Lv in E1. apply IHd; [exact H | lia | lia].
Qed.


(** The loops on the encodings of items and of bindings. *)
Lemma unmarshalList_on_items (heap : Z) (stack : nat) (l : list any) :
  forallb (fun v => valid v && supported v) l = true ->
  forall fuel d r acc tl,
    remaining r = enc_items l ++ tl ->
    (2 * length (enc_items l) < fuel)%nat ->
    Z.of_nat (bytes_left r) <= heap ->
    (d + 2 * bytes_left r <= stack + 1)%nat ->
    exists l',
      unmarshalList_on heap stack fuel d r acc =
      unmarshalList_on heap stack (fuel - List.length l) d
        (advance (length (enc_items l)) r) (acc ++ l')%list.
Proof.
  induction l as [|v l IH]; intros Hl fuel d r acc tl Hrem Hfuel Hheap Hstack.
  - exists []. cbn [enc_items length List.length].
    now rewrite Nat.sub_0_r, advance_0, app_nil_r.
  - cbn [forallb] in Hl. apply andb_true_iff in Hl as [Hv Hl].
    apply andb_true_iff in Hv as [Hval Hsup].
    pose proof (supported_not_other v Hsup) as Hno.
    cbn [enc_items] in *. rewrite str_length_app in *.
    pose proof (enc_length_pos v Hno) as Hpos.
    destruct fuel as [|f]; [lia|].
    rewrite str_app_assoc in Hrem.
    destruct (decodes_back_all v Hval Hsup f r _ Hrem ltac:(lia))
      as (v' & Hdec & _).
    destruct (enc_head v Hno) as (c & t & Ehd & Hc).
    assert (Hrem' : remaining r = String c (t ++ enc_items l ++ tl)).
    { rewrite Hrem, Ehd. reflexivity. }
    assert (Hb : (1 <= bytes_left r)%nat).
    { rewrite <- length_remaining, Hrem'. cbn [length]. lia. }
    destruct (unmarshal_on_Ok heap stack f) as (Hon & _).
    destruct (IH Hl f d (advance (length (enc v)) r) (acc ++ [v'])%list tl)
      as (l' & Hloop).
    { now apply remaining_advance_app in Hrem. }
    { lia. }
    { rewrite bytes_left_advance. lia. }
    { rewrite bytes_left_advance. lia. }
    exists (v' :: l'). rewrite unmarshalList_on_S.
    destruct (Nat.ltb_spec stack d); [lia|].
    rewrite (readByte_cons r _ _ Hrem'). cbn [bind].
    rewrite Hc, unreadByte_advance. cbn [bind].
    rewrite (Hon (S d) _ _ _ Hdec) by lia. cbn [bind]. rewrite Hloop.
    rewrite advance_advance, <- app_assoc. cbn [List.length app].
    replace (S f - S (List.length l))%nat with (f - List.length l)%nat by lia.
    now rewrite Nat.add_comm.
Qed.

Lemma unmarshalDict_on_entries (heap : Z) (stack : nat)
  (es : list (string * any)) :
  forallb (fun e => len_ok (fst e) && valid (snd e) && supported (snd e)) es
  = true ->
  forall fuel d r acc tl,
    remaining r = enc_entries es ++ tl ->
    (2 * length (enc_entries es) < fuel)%nat ->
    Z.of_nat (bytes_left r) <= heap ->
    (d + 2 * bytes_left r <= stack + 1)%nat ->
    exists acc',
      unmarshalDict_on heap stack fuel d r acc =
      unmarshalDict_on heap stack (fuel - List.length es) d
        (advance (length (enc_entries es)) r) acc'.
Proof.
  induction es as [|[k v] es IH];
    intros Hes fuel d r acc tl Hrem Hfuel Hheap Hstack.
  - exists acc. cbn [enc_entries length List.length].
    now rewrite Nat.sub_0_r, advance_0.
  - cbn [forallb fst snd] in Hes. apply andb_true_iff in Hes as [He Hes].
    apply andb_true_iff in He as [He Hsup].
    apply andb_true_iff in He as [Hk Hval].
    pose proof (supported_not_other v Hsup) as Hno.
    cbn [enc_entries] in *. unfold enc_entry in *.
    cbn [fst snd] in *. rewrite !str_length_app in *.
    pose proof (enc_length_pos v Hno) as Hpos.
    pose proof (marshalString_length k) as Hklen.
    destruct fuel as [|f]; [lia|].
    rewrite !str_app_assoc in Hrem.
    pose proof (unmarshalString_spec k f r _ Hk Hrem ltac:(lia)) as Hkey.
    pose proof (remaining_advance_app _ _ _ Hrem) as Hrem1.
    destruct (decodes_back_all v Hval Hsup f _ _ Hrem1 ltac:(lia))
      as (v' & Hdec & _).
    pose proof (remaining_advance_app _ _ _ Hrem1) as Hrem2.
    destruct (marshalString_head k) as (c & t & Ehd & Hc).
    assert (Hrem' : remaining r = String c (t ++ enc v ++ enc_entries es ++ tl)).
    { rewrite Hrem, Ehd. reflexivity. }
    assert (Hb : (1 <= bytes_left r)%nat).
    { rewrite <- length_remaining, Hrem'. cbn [length]. lia. }
    destruct (unmarshal_on_Ok heap stack f) as (Hon & _).
    destruct (IH Hes f d _ (map_set k v' acc) tl Hrem2) as (acc' & Hloop).
    { lia. }
    { rewrite !bytes_left_advance. lia. }
    { rewrite !bytes_left_advance. lia. }
    exists acc'. rewrite unmarshalDict_on_S.
    destruct (Nat.ltb_spec stack d); [lia|].
    rewrite (readByte_cons r _ _ Hrem'). cbn [bind].
    rewrite (is_digit_neq c "e" Hc eq_refl), unreadByte_advance.
    cbn [bind]. rewrite (unmarshalString_on_Ok heap f r _ _ Hkey Hheap).
    cbn [bind].
    rewrite (Hon (S d) _ _ _ Hdec)
      by (rewrite ?bytes_left_advance; lia).
    cbn [bind]. rewrite Hloop. rewrite !advance_advance. cbn [List.length].
    replace (S f - S (List.length es))%nat with (f - List.length es)%nat
      by lia.
    f_equal. f_equal. lia.
Qed.

Lemma unmarshalValue_on_short_string (heap : Z) (stack : nat) (t s : string)
  (fuel d : nat) (r : Reader) :
  all_digits t = true -> t <> "" ->
  Z.of_nat (length s) < digits_value 0 t <= maxAlloc ->
  remaining r = t ++ String ":" s ->
  (length t + 1 < fuel)%nat -> (d <= stack)%nat ->
  unmarshalValue_on heap stack fuel d r
  = if digits_value 0 t <=? heap
    then Err (if (length s =? 0)%nat then EOF else ErrUnexpectedEOF)
    else Panic out_of_memory.
Proof.
  intros Hd Hne Hn Hrem Hfuel Hstack.
  destruct fuel as [|f]; [lia|]. rewrite unmarshalValue_on_S.
  destruct (Nat.ltb_spec stack d); [lia|].
  assert (Hex : exists c t', t = String c t')
    by (destruct t; [congruence | eauto]).
  destruct Hex as (c & t' & Et).
  assert (Hc : is_digit c = true).
  { rewrite Et in Hd. cbn [all_digits] in Hd. now apply andb_true_iff in Hd. }
  assert (Hrem' : remaining r = String c (t' ++ String ":" s)).
  { rewrite Hrem, Et. reflexivity. }
  rewrite (readByte_cons _ _ _ Hrem'). cbn [bind].
  rewrite (is_digit_neq c "i" Hc eq_refl).
  rewrite (is_digit_neq c "l" Hc eq_refl).
  rewrite (is_digit_neq c "d" Hc eq_refl).
  rewrite unreadByte_advance. cbn [bind].
  unfold unmarshalString_on, readUntilColon.
  rewrite (readUntilColon_loop_spec t f r "" s);
    [| now apply all_digits_occurs | exact Hrem | lia].
  cbn [bind append]. rewrite Atoi_digits by assumption.
  rewrite int_rangeb_true by (apply maxAlloc_int_range; lia).
  unfold make_bytes_on.
  destruct (Z.ltb_spec (digits_value 0 t) 0); [lia|].
  destruct (Z.ltb_spec maxAlloc (digits_value 0 t)); [lia|]. cbn [orb].
  destruct (Z.ltb_spec heap (digits_value 0 t)) as [Hlt|Hge];
    destruct (Z.leb_spec (digits_value 0 t) heap); try lia;
    [reflexivity|].
  cbn [bind]. unfold ReadFull.
  assert (Hs : remaining (advance (S (length t)) r) = s).
  { rewrite remaining_advance, Hrem.
    change (S (length t)) with (1 + length t)%nat.
    rewrite <- drop_drop. now rewrite drop_length_app. }
  rewrite Hs.
  destruct (Z.leb_spec (digits_value 0 t) (Z.of_nat (length s))); [lia|].
  destruct (length s =? 0)%nat; reflexivity.
Qed.

Lemma bytes_left_NewReader (data : string) :
  bytes_left (NewReader data) = length data.
Proof. unfold bytes_left, NewReader. cbn [rd_s rd_i]. lia. Qed.

(** A list of complete items, cut inside a string or behind an item. *)
Lemma Unmarshal_on_list_string (heap : Z) (stack : nat) (l : list any)
  (t s : string) :
  all_digits t = true -> t <> "" ->
  Z.of_nat (length s) < digits_value 0 t <= maxAlloc ->
  forallb (fun v => valid v && supported v) l = true ->
  has_room heap stack (String "l" (enc_items l ++ t ++ String ":" s)) ->
  Unmarshal_on heap stack (String "l" (enc_items l ++ t ++ String ":" s))
  = if digits_value 0 t <=? heap
    then Err (if (length s =? 0)%nat then EOF else ErrUnexpectedEOF)
    else Panic out_of_memory.
Proof.
  intros Hd Hne Hn Hl [Hheap Hstack].
  assert (Hno : Forall (fun v => is_other v = false) l).
  { apply Forall_forall. intros v Hv. rewrite forallb_forall in Hl.
    specialize (Hl v Hv). apply andb_true_iff in Hl as [_ Hs].
    now apply supported_not_other. }
  unfold Unmarshal_on, fuel_for.
  set (data := String "l" (enc_items l ++ t ++ String ":" s)) in *.
  assert (Hlen : length data
                 = S (length (enc_items l) + (length t + S (length s)))).
  { unfold data. cbn [length]. rewrite !str_length_app. reflexivity. }
  replace (2 * length data + 4)%nat with (S (2 * length data + 3)) by lia.
  rewrite unmarshalValue_on_S.
  destruct (Nat.ltb_spec stack 1); [lia|].
  rewrite (readByte_cons (NewReader data) "l" _ eq_refl).
  cbn [bind]. change (Ascii.eqb "l" "i") with false.
  change (Ascii.eqb "l" "l") with true. cbv iota.
  destruct (unmarshalList_on_items heap stack l Hl (2 * length data + 3) 2
              (advance 1 (NewReader data)) [] (t ++ String ":" s))
    as (l' & Hloop).
  { reflexivity. }
  { lia. }
  { rewrite bytes_left_advance, bytes_left_NewReader. lia. }
  { rewrite bytes_left_advance, bytes_left_NewReader. lia. }
  rewrite Hloop. pose proof (enc_items_length l Hno) as Hitems.
  set (r := advance (length (enc_items l)) (advance 1 (NewReader data))).
  assert (Hr : remaining r = t ++ String ":" s).
  { unfold r. rewrite remaining_advance.
    change (remaining (advance 1 (NewReader data)))
      with (enc_items l ++ t ++ String ":" s).
    apply drop_length_app. }
  destruct (2 * length data + 3 - List.length l)%nat as [|g] eqn:Eg; [lia|].
  rewrite unmarshalList_on_S.
  destruct (Nat.ltb_spec stack 2); [lia|].
  assert (Hex : exists c t', t = String c t')
    by (destruct t; [congruence | eauto]).
  destruct Hex as (c & t' & Et).
  assert (Hc : is_digit c = true).
  { rewrite Et in Hd. cbn [all_digits] in Hd. now apply andb_true_iff in Hd. }
  rewrite (readByte_cons r c (t' ++ String ":" s)) by now rewrite Hr, Et.
  cbn [bind]. rewrite (is_digit_neq c "e" Hc eq_refl), unreadByte_advance.
  cbn [bind].
  rewrite (unmarshalValue_on_short_string heap stack t s g 3 r Hd Hne Hn Hr)
    by lia.
  destruct (digits_value 0 t <=? heap); reflexivity.
Qed.

Lemma Unmarshal_on_open_list (heap : Z) (stack : nat) (l : list any) :
  forallb (fun v => valid v && supported v) l = true ->
  has_room heap stack (String "l" (enc_items l)) ->
  Unmarshal_on heap stack (String "l" (enc_items l)) = Err EOF.
Proof.
  intros Hl [Hheap Hstack].
  assert (Hno : Forall (fun v => is_other v = false) l).
  { apply Forall_forall. intros v Hv. rewrite forallb_forall in Hl.
    specialize (Hl v Hv). apply andb_true_iff in Hl as [_ Hs].
    now apply supported_not_other. }
  unfold Unmarshal_on, fuel_for.
  set (data := String "l" (enc_items l)) in *.
  assert (Hlen : length data = S (length (enc_items l))) by reflexivity.
  replace (2 * length data + 4)%nat with (S (2 * length data + 3)) by lia.
  rewrite unmarshalValue_on_S.
  destruct (Nat.ltb_spec stack 1); [lia|].
  rewrite (readByte_cons (NewReader data) "l" _ eq_refl).
  cbn [bind]. change (Ascii.eqb "l" "i") with false.
  change (Ascii.eqb "l" "l") with true. cbv iota.
  destruct (unmarshalList_on_items heap stack l Hl (2 * length data + 3) 2
              (advance 1 (NewReader data)) [] "")
    as (l' & Hloop).
  { now rewrite str_app_nil_r. }
  { lia. }
  { rewrite bytes_left_advance, bytes_left_NewReader. lia. }
  { rewrite bytes_left_advance, bytes_left_NewReader. lia. }
  rewrite Hloop. pose proof (enc_items_length l Hno) as Hitems.
  destruct (2 * length data + 3 - List.length l)%nat as [|g] eqn:Eg; [lia|].
  rewrite unmarshalList_on_S.
  destruct (Nat.ltb_spec stack 2); [lia|].
  rewrite readByte_nil; [reflexivity|].
  rewrite remaining_advance.
  change (remaining (advance 1 (NewReader data))) with (enc_items l).
  rewrite <- (str_app_nil_r (enc_items l)) at 2. apply drop_length_app.
Qed.

Lemma Unmarshal_on_open_dict (heap : Z) (stack : nat)
  (es : list (string * any)) :
  forallb (fun e => len_ok (fst e) && valid (snd e) && supported (snd e)) es
  = true ->
  has_room heap stack (String "d" (enc_entries es)) ->
  Unmarshal_on heap stack (String "d" (enc_entries es)) = Err EOF.
Proof.
  intros Hes [Hheap Hstack].
  assert (Hno : Forall (fun e => is_other (snd e) = false) es).
  { apply Forall_forall. intros e He. rewrite forallb_forall in Hes.
    specialize (Hes e He). apply andb_true_iff in Hes as [_ Hs].
    now apply supported_not_other. }
  unfold Unmarshal_on, fuel_for.
  set (data := String "d" (enc_entries es)) in *.
  assert (Hlen : length data = S (length (enc_entries es))) by reflexivity.
  replace (2 * length data + 4)%nat with (S (2 * length data + 3)) by lia.
  rewrite unmarshalValue_on_S.
  destruct (Nat.ltb_spec stack 1); [lia|].
  rewrite (readByte_cons (NewReader data) "d" _ eq_refl).
  cbn [bind]. change (Ascii.eqb "d" "i") with false.
  change (Ascii.eqb "d" "l") with false.
  change (Ascii.eqb "d" "d") with true. cbv iota.
  destruct (unmarshalDict_on_entries heap stack es Hes (2 * length data + 3) 2
              (advance 1 (NewReader data)) [] "")
    as (acc' & Hloop).
  { now rewrite str_app_nil_r. }
  { lia. }
  { rewrite bytes_left_advance, bytes_left_NewReader. lia. }
  { rewrite bytes_left_advance, bytes_left_NewReader. lia. }
  rewrite Hloop. pose proof (enc_entries_length es Hno) as Hentries.
  destruct (2 * length data + 3 - List.length es)%nat as [|g] eqn:Eg; [lia|].
  rewrite unmarshalDict_on_S.
  destruct (Nat.ltb_spec stack 2); [lia|].
  rewrite readByte_nil; [reflexivity|].
  rewrite remaining_advance.
  change (remaining (advance 1 (NewReader data))) with (enc_entries es).
  rewrite <- (str_app_nil_r (enc_entries es)) at 2. apply drop_length_app.
Qed.

(** Nested lists: two calls for each. *)
Lemma deep_head (n : nat) : exists t, deep n = String "l" t.
Proof. destruct n; cbn [deep]; eauto. Qed.

Lemma deep_length (n : nat) : length (deep n) = (2 * n + 2)%nat.
Proof.
  induction n as [|n IH]; [reflexivity|].
  cbn [deep length]. rewrite str_length_app, IH. cbn [length]. lia.
Qed.

Lemma unmarshalValue_on_deep (heap : Z) (stack n : nat) :
  forall fuel d r tl,
    remaining r = deep n ++ tl ->
    (2 * n + 2 <= fuel)%nat ->
    unmarshalValue_on heap stack fuel d r
    = if (d + 2 * n + 1 <=? stack)%nat
      then Ok (nested n, advance (2 * n + 2) r)
      else Panic stack_overflow.
Proof.
  induction n as [|n IH]; intros fuel d r tl Hrem Hfuel.
  - destruct fuel as [|[|f]]; try lia.
    rewrite unmarshalValue_on_S. cbn [deep append] in Hrem.
    destruct (Nat.ltb_spec stack d);
      [destruct (Nat.leb_spec (d + 2 * 0 + 1) stack); [lia | reflexivity]|].
    rewrite (readByte_cons r _ _ Hrem). cbn [bind].
    change (Ascii.eqb "l" "i") with false.
    change (Ascii.eqb "l" "l") with true. cbv iota.
    rewrite unmarshalList_on_S.
    destruct (Nat.ltb_spec stack (S d));
      destruct (Nat.leb_spec (d + 2 * 0 + 1) stack); try lia;
      [reflexivity|].
    apply remaining_advance_cons in Hrem.
    rewrite (readByte_cons _ _ _ Hrem). cbn [bind].
    change (Ascii.eqb "e" "e") with true. cbv iota. cbn [bind nested].
    now rewrite advance_advance.
  - destruct fuel as [|[|f]]; try lia.
    rewrite unmarshalValue_on_S. cbn [deep append] in Hrem.
    destruct (Nat.ltb_spec stack d);
      [destruct (Nat.leb_spec (d + 2 * S n + 1) stack); [lia | reflexivity]|].
    rewrite (readByte_cons r _ _ Hrem). cbn [bind].
    change (Ascii.eqb "l" "i") with false.
    change (Ascii.eqb "l" "l") with true. cbv iota.
    rewrite unmarshalList_on_S.
    destruct (Nat.ltb_spec stack (S d));
      [destruct (Nat.leb_spec (d + 2 * S n + 1) stack); [lia | reflexivity]|].
    apply remaining_advance_cons in Hrem.
    rewrite str_app_assoc in Hrem.
    destruct (deep_head n) as (t & Et).
    rewrite (readByte_cons (advance 1 r) "l" (t ++ "e" ++ tl))
      by now rewrite Hrem, Et.
    cbn [bind]. change (Ascii.eqb "l" "e") with false. cbv iota.
    rewrite unreadByte_advance. cbn [bind].
    rewrite (IH f (S (S d)) (advance 1 r) ("e" ++ tl) Hrem) by lia.
    destruct (Nat.leb_spec (S (S d) + 2 * n + 1) stack);
      destruct (Nat.leb_spec (d + 2 * S n + 1) stack); try lia;
      [|reflexivity].
    cbn [bind].
    destruct f as [|f']; [lia|]. rewrite unmarshalList_on_S.
    destruct (Nat.ltb_spec stack (S d)); [lia|].
    assert (Hrem2 : remaining (advance (2 * n + 2) (advance 1 r))
                    = String "e" tl).
    { rewrite remaining_advance, Hrem, <- (deep_length n).
      apply drop_length_app. }
    rewrite (readByte_cons _ _ _ Hrem2). cbn [bind].
    change (Ascii.eqb "e" "e") with true. cbv iota. cbn [bind nested app].
    rewrite !advance_advance. do 3 f_equal. lia.
Qed.

Lemma Unmarshal_on_deep (heap : Z) (stack n : nat) :
  Unmarshal_on heap stack (deep n)
  = if (2 * n + 2 <=? stack)%nat then Ok (nested n) else Panic stack_overflow.
Proof.
  unfold Unmarshal_on, fuel_for.
  rewrite (unmarshalValue_on_deep heap stack n _ 1 (NewReader (deep n)) "").
  - replace (1 + 2 * n + 1)%nat with (2 * n + 2)%nat by lia.
    now destruct (2 * n + 2 <=? stack)%nat.
  - now rewrite str_app_nil_r.
  - rewrite deep_length. lia.
Qed.

Lemma unmarshalString_on_short (heap : Z) (t s : string) (fuel : nat)
  (r : Reader) :
  all_digits t = true -> t <> "" ->
  Z.of_nat (length s) < digits_value 0 t <= maxAlloc ->
  remaining r = t ++ String ":" s ->
  (length t < fuel)%nat ->
  unmarshalString_on heap fuel r
  = if digits_value 0 t <=? heap
    then Err (if (length s =? 0)%nat then EOF else ErrUnexpectedEOF)
    else Panic out_of_memory.
Proof.
  intros Hd Hne Hn Hrem Hfuel.
  unfold unmarshalString_on, readUntilColon.
  rewrite (readUntilColon_loop_spec t fuel r "" s);
    [| now apply all_digits_occurs | exact Hrem | lia].
  cbn [bind append]. rewrite Atoi_digits by assumption.
  rewrite int_rangeb_true by (apply maxAlloc_int_range; lia).
  unfold make_bytes_on.
  destruct (Z.ltb_spec (digits_value 0 t) 0); [lia|].
  destruct (Z.ltb_spec maxAlloc (digits_value 0 t)); [lia|]. cbn [orb].
  destruct (Z.ltb_spec heap (digits_value 0 t)) as [Hlt|Hge];
    destruct (Z.leb_spec (digits_value 0 t) heap); try lia;
    [reflexivity|].
  cbn [bind]. unfold ReadFull.
  assert (Hs : remaining (advance (S (length t)) r) = s).
  { rewrite remaining_advance, Hrem.
    change (S (length t)) with (1 + length t)%nat.
    rewrite <- drop_drop. now rewrite drop_length_app. }
  rewrite Hs.
  destruct (Z.leb_spec (digits_value 0 t) (Z.of_nat (length s))); [lia|].
  destruct (length s =? 0)%nat; reflexivity.
Qed.

(** A dictionary of complete bindings, cut inside the string of a key
    ([key = None]) or inside a string that is the value of a key. *)
Lemma Unmarshal_on_dict_string (heap : Z) (stack : nat)
  (es : list (string * any)) (key : option string) (t s : string) :
  all_digits t = true -> t <> "" ->
  Z.of_nat (length s) < digits_value 0 t <= maxAlloc ->
  forallb (fun e => len_ok (fst e) && valid (snd e) && supported (snd e)) es
  = true ->
  match key with Some k => len_ok k = true | None => True end ->
  let prefix :=
    match key with Some k => marshalString k "" | None => EmptyString end in
  has_room heap stack
    (String "d" (enc_entries es ++ prefix ++ t ++ String ":" s)) ->
  Unmarshal_on heap stack
    (String "d" (enc_entries es ++ prefix ++ t ++ String ":" s))
  = if digits_value 0 t <=? heap
    then Err (if (length s =? 0)%nat then EOF else ErrUnexpectedEOF)
    else Panic out_of_memory.
Proof.
  intros Hd Hne Hn Hes Hkey prefix [Hheap Hstack].
  assert (Hno : Forall (fun e => is_other (snd e) = false) es).
  { apply Forall_forall. intros e He. rewrite forallb_forall in Hes.
    specialize (Hes e He). apply andb_true_iff in Hes as [_ Hs].
    now apply supported_not_other. }
  unfold Unmarshal_on, fuel_for.
  set (data := String "d" (enc_entries es ++ prefix ++ t ++ String ":" s))
    in *.
  assert (Hlen : length data
                 = S (length (enc_entries es)
                      + (length prefix + (length t + S (length s))))).
  { unfold data. cbn [length]. rewrite !str_length_app. reflexivity. }
  replace (2 * length data + 4)%nat with (S (2 * length data + 3)) by lia.
  rewrite unmarshalValue_on_S.
  destruct (Nat.ltb_spec stack 1); [lia|].
  rewrite (readByte_cons (NewReader data) "d" _ eq_refl).
  cbn [bind]. change (Ascii.eqb "d" "i") with false.
  change (Ascii.eqb "d" "l") with false.
  change (Ascii.eqb "d" "d") with true. cbv iota.
  destruct (unmarshalDict_on_entries heap stack es Hes (2 * length data + 3) 2
              (advance 1 (NewReader data)) []
              (prefix ++ t ++ String ":" s))
    as (acc' & Hloop).
  { reflexivity. }
  { lia. }
  { rewrite bytes_left_advance, bytes_left_NewReader. lia. }
  { rewrite bytes_left_advance, bytes_left_NewReader. lia. }
  rewrite Hloop. pose proof (enc_entries_length es Hno) as Hentries.
  set (r := advance (length (enc_entries es)) (advance 1 (NewReader data))).
  assert (Hr : remaining r = prefix ++ t ++ String ":" s).
  { unfold r. rewrite remaining_advance.
    change (remaining (advance 1 (NewReader data)))
      with (enc_entries es ++ prefix ++ t ++ String ":" s).
    apply drop_length_app. }
  assert (Hbl : (bytes_left r <= length data)%nat).
  { unfold r. rewrite !bytes_left_advance, bytes_left_NewReader. lia. }
  destruct (2 * length data + 3 - List.length es)%nat as [|g] eqn:Eg; [lia|].
  rewrite unmarshalDict_on_S.
  destruct (Nat.ltb_spec stack 2); [lia|].
  assert (Hex : exists c t', t = String c t')
    by (destruct t; [congruence | eauto]).
  destruct Hex as (c & t' & Et).
  assert (Hc : is_digit c = true).
  { rewrite Et in Hd. cbn [all_digits] in Hd. now apply andb_true_iff in Hd. }
  destruct key as [k|]; unfold prefix in *; clear prefix.
  - destruct (marshalString_head k) as (ck & tk & Ek & Hck).
    pose proof (marshalString_length k) as Hklen.
    rewrite (readByte_cons r ck (tk ++ t ++ String ":" s))
      by now rewrite Hr, Ek.
    cbn [bind]. rewrite (is_digit_neq ck "e" Hck eq_refl), unreadByte_advance.
    cbn [bind].
    rewrite (unmarshalString_on_Ok heap g r k
               (advance (length (marshalString k "")) r)).
    + cbn [bind].
      rewrite (unmarshalValue_on_short_string heap stack t s g 3 _ Hd Hne Hn).
      * destruct (digits_value 0 t <=? heap); reflexivity.
      * now apply remaining_advance_app in Hr.
      * lia.
      * lia.
    + apply (unmarshalString_spec k g r _ Hkey Hr). lia.
    + lia.
  - cbn [append] in Hr.
    rewrite (readByte_cons r c (t' ++ String ":" s)) by now rewrite Hr, Et.
    cbn [bind]. rewrite (is_digit_neq c "e" Hc eq_refl), unreadByte_advance.
    cbn [bind].
    rewrite (unmarshalString_on_short heap t s g r Hd Hne Hn Hr) by lia.
    destruct (digits_value 0 t <=? heap); reflexivity.
Qed.

(** * The claims of the specification *)

(** C1: [Marshal] writes the bindings of a dictionary in strictly ascending
    byte-wise lexicographic order of their keys, whatever the order in which
    the map yields them (the keys [ks] written are the keys of the map,
    sorted); hence two dictionaries that are equal up to that order are
    serialized to the same bytes. *)
Theorem C1_dictionary_keys_ascending (m1 m2 : list (string * any)) :
  valid (VDict m1) = true ->
  valid (VDict m2) = true ->
  supported (VDict m1) = true ->
  equiv (VDict m1) (VDict m2) ->
  (exists ks,
      StronglySorted str_lt ks
      /\ Permutation ks (map fst m1)
      /\ Marshal (VDict m1)
         = Ok (String "d" (enc_entries (entries_at ks m1) ++ "e")))
  /\ Marshal (VDict m1) = Marshal (VDict m2).
Proof.
  intros Hv1 Hv2 Hs He. split; [|now apply equiv_Marshal].
  exists (sort_strings (map fst m1)).
  destruct (valid_dict_inv m1 Hv1) as [Hn _].
  split; [now apply sort_strings_strict|].
  split; [apply sort_strings_perm|].
  rewrite Marshal_ok by reflexivity. f_equal. apply enc_VDict.
  cbn [supported] in Hs. rewrite forallb_forall in Hs.
  apply Forall_forall. intros e Hin. now apply supported_not_other, Hs.
Qed.

Lemma C1_witness :
  Marshal (VDict [("spam", VString "eggs"); ("cow", VString "moo")])
  = Ok "d3:cow3:moo4:spam4:eggse"
  /\ Marshal (VDict [("spam", VString "eggs"); ("cow", VString "moo")])
     = Marshal (VDict [("cow", VString "moo"); ("spam", VString "eggs")]).
Proof.
  split; [reflexivity|].
  apply (C1_dictionary_keys_ascending
           [("spam", VString "eggs"); ("cow", VString "moo")]
           [("cow", VString "moo"); ("spam", VString "eggs")]);
    try reflexivity.
  constructor. intros k. cbn [map_get].
  destruct (String.eqb_spec "spam" k) as [<- | Hs];
    [repeat constructor|].
  destruct (String.eqb_spec "cow" k) as [<- | Hc]; repeat constructor.
Defined.

(** C2: for every value tree [v] of the four variants whose dictionaries
    have pairwise distinct keys (and whose integers and strings are Go
    values), [Marshal] succeeds and [Unmarshal] of its bytes yields a value
    equal to [v] up to the order of dictionaries. *)
Theorem C2_decode_encode (v : any) :
  valid v = true ->
  supported v = true ->
  exists b v',
    Marshal v = Ok b /\ Unmarshal b = Ok v'
    /\ equiv v' v /\ valid v' = true /\ supported v' = true.
Proof.
  intros Hv Hs.
  destruct (Unmarshal_enc v "" Hv Hs) as (v' & Hdec & Hrel).
  rewrite str_app_nil_r in Hdec.
  exists (enc v), v'. split; [|split; [exact Hdec | exact Hrel]].
  apply Marshal_ok. now apply supported_not_other.
Qed.

Lemma C2_witness :
  exists b v',
    Marshal (VDict [("z", VList [VDict [("b", VList [VDict [("c", VInt (-1))]]);
                                        ("a", VString "x:y")]]);
                    ("k", VInt 0)]) = Ok b
    /\ Unmarshal b = Ok v'
    /\ equiv v' (VDict [("z", VList [VDict [("b", VList [VDict [("c", VInt (-1))]]);
                                            ("a", VString "x:y")]]);
                        ("k", VInt 0)])
    /\ valid v' = true /\ supported v' = true.
Proof.
  apply C2_decode_encode; reflexivity.
Defined.



(** C4 as the code has it: the text between ['i'] and ['e'] goes to
    [strconv.Atoi] unchanged, and the result is the integer [Atoi] returns
    or the invalid-integer error when it returns none.  [Atoi] takes every
    non-empty run of digits that fits 64 bits, leading zeros or not: ["ie"]
    is rejected, ["i03e"] is 3 and ["i-0e"] is 0. *)
Theorem C4_integer_text_is_Atoi (t tl : string) :
  occurs "e" t = false ->
  Unmarshal (String "i" (t ++ String "e" tl))
  = match Atoi t with
    | Some n => Ok (VInt n)
    | None => Err ErrInvalidInteger
    end
  /\ (all_digits t = true -> t <> "" -> int_range (digits_value 0 t) ->
      Atoi t = Some (digits_value 0 t)
      /\ Atoi (String "-" t) = Some (- digits_value 0 t))
  /\ Unmarshal "ie" = Err ErrInvalidInteger
  /\ Unmarshal "i03e" = Ok (VInt 3)
  /\ Unmarshal "i-0e" = Ok (VInt 0).
Proof.
  intros Hocc. split; [now apply Unmarshal_int_text|].
  split; [|repeat split; reflexivity].
  intros Hd Hne Hr.
  rewrite Atoi_digits, Atoi_minus_digits by assumption.
  rewrite !int_rangeb_true; [split; reflexivity | | exact Hr].
  pose proof (digits_value_lower 0 t Hd ltac:(lia)).
  unfold int_range in *. lia.
Qed.

Lemma C4_witness :
  occurs "e" "007" = false
  /\ Unmarshal "i007e4:spam" = Ok (VInt 7)
  /\ Atoi "-007" = Some (-7).
Proof.
  destruct (C4_integer_text_is_Atoi "007" "4:spam" eq_refl) as (H1 & H2 & _).
  split; [reflexivity|]. split; [exact H1|].
  apply H2; [reflexivity | discriminate|].
  unfold int_range. vm_compute. split; [discriminate | reflexivity].
Defined.

(** C4 as stated fails: ["i03e"] and ["i-0e"] are decoded, to 3 and to 0,
    and no error is returned for them. *)
Lemma C4_counterexample :
  Unmarshal "i03e" = Ok (VInt 3)
  /\ Unmarshal "i-0e" = Ok (VInt 0)
  /\ (forall e, Unmarshal "i03e" <> Err e)
  /\ (forall e, Unmarshal "i-0e" <> Err e).
Proof. repeat split; try reflexivity; intros e; discriminate. Qed.

(** C5 at its own example: the length prefix ["-1"] passes [strconv.Atoi],
    and [make([]byte, -1)] panics; so does a prefix above the allocation
    limit.  [Unmarshal] does terminate on every input: the fuel it is given
    is never exhausted. *)
Theorem C5_negative_length_panics :
  Unmarshal "-1:x" = Panic "runtime error: makeslice: len out of range"
  /\ Unmarshal "281474976710657:x"
     = Panic "runtime error: makeslice: len out of range"
  /\ forall data, Unmarshal data <> OutOfFuel.
Proof.
  split; [reflexivity|]. split; [reflexivity|]. apply Unmarshal_fuel.
Qed.

(** C6 as the code has it.  The buffer of a string is allocated from the
    declared length [n] before any byte is read: on a runtime that cannot
    provide [n] bytes the process ends with the fatal out of memory error;
    otherwise a string with fewer than [n] bytes left fails with
    [io.ErrUnexpectedEOF], or with [io.EOF] when no byte is left.  A list
    or a dictionary cut inside such a string (an item, a key, the value of
    a key) ends in the same way as the string; a list or a dictionary cut
    behind a complete item, where the next item or the terminator would
    start, fails with [io.EOF].  All of these are end-of-input errors and
    none is a syntax error.  The runtime is one with room for the input,
    so that the complete items are read. *)
Theorem C6_truncation_errors (heap : Z) (stack : nat) (t s k : string)
  (l : list any) (es : list (string * any)) :
  all_digits t = true -> t <> "" ->
  Z.of_nat (length s) < digits_value 0 t <= maxAlloc ->
  forallb (fun v => valid v && supported v) l = true ->
  forallb (fun e => len_ok (fst e) && valid (snd e) && supported (snd e)) es
  = true ->
  len_ok k = true ->
  has_room heap stack (String "l" (enc_items l ++ t ++ String ":" s)) ->
  has_room heap stack
    (String "d" (enc_entries es ++ marshalString k "" ++ t ++ String ":" s)) ->
  exists e1 cut,
    e1 = (if (length s =? 0)%nat then EOF else ErrUnexpectedEOF)
    /\ cut = (if digits_value 0 t <=? heap then Err e1
              else Panic out_of_memory)
    /\ Unmarshal_on heap stack (t ++ String ":" s) = cut
    /\ Unmarshal_on heap stack (String "l" (enc_items l ++ t ++ String ":" s))
       = cut
    /\ Unmarshal_on heap stack (String "d" (enc_entries es ++ t ++ String ":" s))
       = cut
    /\ Unmarshal_on heap stack
         (String "d" (enc_entries es ++ marshalString k "" ++ t ++ String ":" s))
       = cut
    /\ Unmarshal_on heap stack (String "l" (enc_items l)) = Err EOF
    /\ Unmarshal_on heap stack (String "d" (enc_entries es)) = Err EOF
    /\ is_truncation e1 = true /\ is_syntax e1 = false
    /\ is_truncation EOF = true /\ is_syntax EOF = false.
Proof.
  intros Hd Hne Hn Hl Hes Hk Hroom Hroomd.
  exists (if (length s =? 0)%nat then EOF else ErrUnexpectedEOF).
  eexists. split; [reflexivity|]. split; [reflexivity|].
  assert (Hl1 : has_room heap stack (String "l" (enc_items l))).
  { unfold has_room in *. cbn [length] in *.
    rewrite !str_length_app in *. lia. }
  assert (Hd1 : has_room heap stack
                  (String "d" (enc_entries es ++ "" ++ t ++ String ":" s))).
  { unfold has_room in *. cbn [length append] in *.
    rewrite !str_length_app in *. lia. }
  assert (Hd2 : has_room heap stack (String "d" (enc_entries es))).
  { unfold has_room in *. cbn [length] in *.
    rewrite !str_length_app in *. lia. }
  split; [|split; [|split; [|split; [|split; [|split]]]]].
  - destruct Hroom as [_ Hstack]. cbn [length] in Hstack.
    unfold Unmarshal_on, fuel_for.
    rewrite (unmarshalValue_on_short_string heap stack t s _ 1
               (NewReader (t ++ String ":" s)) Hd Hne Hn eq_refl).
    + destruct (digits_value 0 t <=? heap); reflexivity.
    + rewrite str_length_app. lia.
    + lia.
  - now apply Unmarshal_on_list_string.
  - now apply (Unmarshal_on_dict_string heap stack es None t s).
  - now apply (Unmarshal_on_dict_string heap stack es (Some k) t s).
  - now apply Unmarshal_on_open_list.
  - now apply Unmarshal_on_open_dict.
  - destruct (length s =? 0)%nat; repeat split.
Qed.

Lemma C6_witness :
  (exists e1 cut,
     e1 = ErrUnexpectedEOF
     /\ cut = Err e1
     /\ Unmarshal_on 1024 1024 "4:sp" = cut
     /\ Unmarshal_on 1024 1024 "l4:spam4:sp" = cut
     /\ Unmarshal_on 1024 1024 "d3:cow3:moo4:sp" = cut
     /\ Unmarshal_on 1024 1024 "d3:cow3:moo3:egg4:sp" = cut
     /\ Unmarshal_on 1024 1024 "l4:spam" = Err EOF
     /\ Unmarshal_on 1024 1024 "d3:cow3:moo" = Err EOF
     /\ is_truncation e1 = true /\ is_syntax e1 = false
     /\ is_truncation EOF = true /\ is_syntax EOF = false)
  /\ (exists e1 cut,
        e1 = ErrUnexpectedEOF
        /\ cut = Panic out_of_memory
        /\ Unmarshal_on 1024 1024 "200000000000000:x" = cut
        /\ Unmarshal_on 1024 1024 "l200000000000000:x" = cut
        /\ Unmarshal_on 1024 1024 "d200000000000000:x" = cut
        /\ Unmarshal_on 1024 1024 "d1:a200000000000000:x" = cut
        /\ Unmarshal_on 1024 1024 "l" = Err EOF
        /\ Unmarshal_on 1024 1024 "d" = Err EOF
        /\ is_truncation e1 = true /\ is_syntax e1 = false
        /\ is_truncation EOF = true /\ is_syntax EOF = false).
Proof.
  split.
  - apply (C6_truncation_errors 1024 1024 "4" "sp" "egg" [VString "spam"]
             [("cow", VString "moo")]);
      try reflexivity;
      [discriminate | now vm_compute
       | split; [apply Z.leb_le | apply Nat.leb_le]; reflexivity
       | split; [apply Z.leb_le | apply Nat.leb_le]; reflexivity].
  - apply (C6_truncation_errors 1024 1024 "200000000000000" "x" "a" [] []);
      try reflexivity;
      [discriminate | now vm_compute
       | split; [apply Z.leb_le | apply Nat.leb_le]; reflexivity
       | split; [apply Z.leb_le | apply Nat.leb_le]; reflexivity].
Defined.

(** C6 as stated fails: a string cut right behind its length prefix and a
    list without its terminator fail with one and the same error, so no
    classification of the returned errors makes the first a truncated
    input and the second an unterminated container; and a list cut inside
    a string does not fail with the error of a list cut behind an item. *)
Lemma C6_counterexample :
  Unmarshal_on 1024 1024 "4:" = Err EOF
  /\ Unmarshal_on 1024 1024 "l4:spam" = Err EOF
  /\ Unmarshal_on 1024 1024 "l4:sp" = Err ErrUnexpectedEOF
  /\ ~ (exists kind : error -> bool,
          (forall e, Unmarshal_on 1024 1024 "4:" = Err e -> kind e = true)
          /\ (forall e, Unmarshal_on 1024 1024 "l4:spam" = Err e ->
                        kind e = false)).
Proof.
  split; [reflexivity|]. split; [reflexivity|]. split; [reflexivity|].
  intros (kind & H1 & H2).
  specialize (H1 EOF eq_refl). specialize (H2 EOF eq_refl). congruence.
Qed.

(** C7 as the code has it: there is no depth bound and no error for deep
    nesting.  The decoder makes two nested calls for each list, so [n + 1]
    lists inside one another take [2 n + 2] of them: they are decoded, to
    lists nested [n + 1] deep, when the stack holds that many calls, and
    otherwise the process ends with the fatal stack overflow; no error is
    returned either way, and the fuel of the embedding is never what runs
    out. *)
Theorem C7_nesting_unbounded (heap : Z) (stack n : nat) :
  Unmarshal_on heap stack (deep n)
  = (if (2 * n + 2 <=? stack)%nat then Ok (nested n)
     else Panic stack_overflow)
  /\ depth (nested n) = S n
  /\ (forall e, Unmarshal_on heap stack (deep n) <> Err e)
  /\ (forall data, Unmarshal_on heap stack data <> OutOfFuel).
Proof.
  split; [apply Unmarshal_on_deep|]. split; [apply nested_depth|].
  split; [|apply Unmarshal_on_fuel].
  intros e. rewrite Unmarshal_on_deep.
  destruct (2 * n + 2 <=? stack)%nat; discriminate.
Qed.

(** C7 as stated fails: no stack is large enough for every input, and the
    input that is nested too deep for it does not get an error but ends
    the process. *)
Lemma C7_counterexample :
  ~ (exists stack : nat,
        forall heap data,
          Unmarshal_on heap stack data <> Panic stack_overflow).
Proof.
  intros (stack & H). apply (H 0 (deep stack)).
  rewrite Unmarshal_on_deep.
  destruct (Nat.leb_spec (2 * stack + 2) stack); [lia | reflexivity].
Qed.

(** C8 at a list and at a dictionary that hold an unsupported value:
    [marshalList] and [marshalDict] return on the error of the member
    without a way to report it, and [Marshal] returns the bytes written so
    far and no error.  [Marshal] fails for an unsupported value at the top
    and for no other value. *)
Theorem C8_unsupported_member_swallowed :
  (forall v,
      Marshal v = match v with
                  | VOther ty => Err (ErrUnsupportedType ty)
                  | _ => Ok (enc v)
                  end)
  /\ (forall ty rest, Marshal (VList (VOther ty :: rest)) = Ok "l")
  /\ Marshal (VList [VInt 1; VOther "float64"; VInt 2]) = Ok "li1e"
  /\ Marshal (VDict [("pieces", VOther "[]uint8"); ("name", VString "x");
                     ("piece length", VInt 16384); ("length", VInt 5)])
     = Ok "d6:lengthi5e4:name1:x12:piece lengthi16384e6:pieces".
Proof.
  split; [|repeat split].
  intros v. destruct v; try reflexivity; now apply Marshal_ok.
Qed.

(** C9: a dictionary in which a key occurs more than once is decoded, and
    the decoded map binds every key once, to the value of its last binding
    in the input.  First for the encodings of any bindings [es], repeated
    keys or not ([map_get k (rev es)] is the last binding of [k] in [es]);
    then for every input at all from which a dictionary is decoded, with
    [bindings_of] for the bindings the decoder met. *)
Theorem C9_duplicate_key_last_wins (es : list (string * any))
  (tl input : string) (m : list (string * any)) :
  (forallb (fun e => len_ok (fst e) && valid (snd e) && supported (snd e)) es
   = true ->
   exists m',
     Unmarshal (String "d" (enc_entries es ++ String "e" tl)) = Ok (VDict m')
     /\ NoDup (map fst m')
     /\ forall k, opt_rel equiv (map_get k m') (map_get k (rev es)))
  /\ (Unmarshal (String "d" input) = Ok (VDict m) ->
      exists bs,
        bindings_of (String "d" input) = Ok bs
        /\ NoDup (map fst m)
        /\ forall k, map_get k m = map_get k (rev bs)).
Proof.
  split.
  {
    intros Hes. rewrite forallb_forall in Hes.
    assert (Hall : forall e, In e es ->
              len_ok (fst e) = true /\ valid (snd e) = true
              /\ supported (snd e) = true).
    { intros e He. specialize (Hes e He).
      apply andb_true_iff in Hes as [Hes Hs].
      apply andb_true_iff in Hes as [Hk Hv]. auto. }
    assert (Hno : Forall (fun e => is_other (snd e) = false) es).
    { apply Forall_forall. intros e He.
      now apply supported_not_other, (Hall e He). }
    unfold Unmarshal, fuel_for.
    set (data := String "d" (enc_entries es ++ String "e" tl)).
    replace (2 * length data + 4)%nat with (S (2 * length data + 3)) by lia.
    cbn [unmarshalValue].
    rewrite (readByte_cons (NewReader data) "d" _ eq_refl).
    cbn [bind]. change (Ascii.eqb "d" "i") with false.
    change (Ascii.eqb "d" "l") with false.
    change (Ascii.eqb "d" "d") with true. cbv iota.
    destruct (unmarshalDict_entries es) with (fuel := (2 * length data + 3)%nat)
      (r := advance 1 (NewReader data)) (acc := @nil (string * any))
      (tl := String "e" tl) as (es' & Hrel & Hloop).
    { apply Forall_forall. intros e He. destruct (Hall e He) as (Hk & Hv & Hs).
      repeat split; [exact Hk | now apply supported_not_other|].
      now apply decodes_back_all. }
    { reflexivity. }
    { unfold data. cbn [length]. rewrite str_length_app. lia. }
    rewrite Hloop. pose proof (enc_entries_length es Hno) as Hn.
    destruct (2 * length data + 3 - List.length es)%nat as [|g] eqn:Eg.
    { unfold data in Eg. cbn [length] in Eg. rewrite str_length_app in Eg. lia. }
    exists (assign_all es' []). split; [|split].
    - cbn [unmarshalDict]. rewrite (readByte_cons _ "e" tl).
      + reflexivity.
      + rewrite remaining_advance.
        change (remaining (advance 1 (NewReader data)))
          with (enc_entries es ++ String "e" tl).
        apply drop_length_app.
    - apply assign_all_keys. constructor.
    - intros k. rewrite map_get_assign_all. cbn [map_get].
      pose proof (entry_rel_map_get _ _ (Forall2_rev _ _ _ Hrel) k) as Hk.
      destruct Hk; now constructor. }
  unfold Unmarshal, bindings_of, fuel_for.
  set (d := String "d" input).
  replace (2 * length d + 4)%nat with (S (2 * length d + 3)) by lia.
  cbn [unmarshalValue].
  rewrite (readByte_cons (NewReader d) "d" input eq_refl). cbn [bind].
  change (Ascii.eqb "d" "i") with false.
  change (Ascii.eqb "d" "l") with false.
  change (Ascii.eqb "d" "d") with true. cbv iota.
  rewrite (unmarshalDict_bindings _ _ [] []).
  destruct (dictBindings (2 * length d + 3) (advance 1 (NewReader d)) [])
    as [[bs r']| | |]; try discriminate.
  cbn [bind]. intros [= <-]. exists bs. split; [reflexivity|].
  split; [apply assign_all_keys; constructor|].
  intros k. rewrite map_get_assign_all. cbn [map_get].
  now destruct (map_get k (rev bs)).
Qed.

Lemma C9_witness :
  Unmarshal "d1:ai1e1:b0:1:ai2ee" = Ok (VDict [("a", VInt 2); ("b", VString "")])
  /\ (exists m',
        Unmarshal "d1:ai1e1:b0:1:ai2ee" = Ok (VDict m')
        /\ NoDup (map fst m')
        /\ forall k, opt_rel equiv (map_get k m')
                       (map_get k (rev [("a", VInt 1); ("b", VString "");
                                        ("a", VInt 2)])))
  /\ (exists bs,
        bindings_of "d1:ai03e1:b0:1:ai2ee" = Ok bs
        /\ NoDup (map fst [("a", VInt 2); ("b", VString "")])
        /\ forall k, map_get k [("a", VInt 2); ("b", VString "")]
                     = map_get k (rev bs)).
Proof.
  split; [reflexivity|]. split.
  - exact (proj1 (C9_duplicate_key_last_wins
                    [("a", VInt 1); ("b", VString ""); ("a", VInt 2)] ""
                    "" []) eq_refl).
  - exact (proj2 (C9_duplicate_key_last_wins [] "" "1:ai03e1:b0:1:ai2ee"
                    [("a", VInt 2); ("b", VString "")]) eq_refl).
Defined.

(** C10: an input that begins with one complete value is decoded to that
    value, whatever bytes follow it.  For the encoding of a value the
    result is the value, up to the order of maps; for a canonical encoding
    [b] it is a value whose encoding is [b]; and whenever [Unmarshal]
    decodes a value from an input, canonical or not, it returns the same
    value and no error for that input followed by any bytes.  The result
    is the value alone, without a count of the bytes read. *)
Theorem C10_trailing_bytes_ignored (v : any) (b data trailing : string)
  (w : any) :
  (valid v = true -> supported v = true ->
   exists v', Unmarshal (enc v ++ trailing) = Ok v' /\ equiv v' v)
  /\ (canonical b -> Z.of_nat (length b) <= maxAlloc ->
      exists v', Unmarshal (b ++ trailing) = Ok v' /\ Marshal v' = Ok b)
  /\ (Unmarshal data = Ok w -> Unmarshal (data ++ trailing) = Ok w).
Proof.
  split; [|split].
  - intros Hv Hs.
    destruct (Unmarshal_enc v trailing Hv Hs) as (v' & Hdec & Hrel & _).
    eauto.
  - intros Hc Hlen.
    destruct (canonical_value b Hc Hlen) as (v0 & Hv0 & Hs0 & He0).
    destruct (Unmarshal_enc v0 trailing Hv0 Hs0)
      as (v' & Hdec & Hrel & Hv' & Hs').
    rewrite He0 in Hdec. exists v'. split; [exact Hdec|].
    rewrite (equiv_Marshal v' v0 Hrel Hv' Hv0), <- He0.
    apply Marshal_ok. now apply supported_not_other.
  - unfold Unmarshal. intros H. step_bind H E. injection H as <-.
    destruct (unmarshal_extend trailing (fuel_for data)) as (Hext & _).
    apply Hext in E.
    destruct (unmarshal_more (fuel_for data)) as (Hmore & _).
    change (NewReader (data ++ trailing))
      with (extend trailing (NewReader data)).
    rewrite (Hmore (fuel_for (data ++ trailing)) _ _) with (2 := E).
    + reflexivity.
    + unfold fuel_for. rewrite str_length_app. lia.
Qed.

Lemma C10_witness :
  (exists v',
     Unmarshal (enc (VList [VString "spam"; VInt 3]) ++ "i03e:::garbage")
     = Ok v'
     /\ equiv v' (VList [VString "spam"; VInt 3]))
  /\ Unmarshal "l4:spami03ee" = Ok (VList [VString "spam"; VInt 3])
  /\ Unmarshal "l4:spami03eei03e:::garbage"
     = Ok (VList [VString "spam"; VInt 3]).
Proof.
  split; [|split; [reflexivity|]].
  - apply (proj1 (C10_trailing_bytes_ignored
                    (VList [VString "spam"; VInt 3]) "" "" "i03e:::garbage"
                    (VInt 0))); reflexivity.
  - exact (proj2 (proj2 (C10_trailing_bytes_ignored
                           (VInt 0) "" "l4:spami03ee" "i03e:::garbage" _))
             eq_refl).
Defined.

(** * Further properties of the code *)

(** ** What the decoder returns *)

Lemma Atoi_range (s : string) (n : Z) : Atoi s = Some n -> int_range n.
Proof.
  unfold Atoi. destruct s as [|c s']; [discriminate|].
  destruct (if Ascii.eqb c "-" || Ascii.eqb c "+" then s' else String c s');
    [discriminate|].
  destruct (parse_digits 0 _) as [m|]; [|discriminate].
  destruct (int_rangeb _) eqn:E; [|discriminate].
  intros [= <-]. now apply int_rangeb_iff.
Qed.

Lemma length_take (k : nat) (s : string) :
  (k <= length s)%nat -> length (take k s) = k.
Proof.
  revert s; induction k as [|k IH]; intros [|c s] H; simpl in *;
    try reflexivity; try lia.
  rewrite IH; [reflexivity | lia].
Qed.

Lemma make_bytes_inv (n m : Z) :
  make_bytes n = Ok m -> m = n /\ 0 <= n <= maxAlloc.
Proof.
  unfold make_bytes.
  destruct (Z.ltb_spec n 0); [discriminate|].
  destruct (Z.ltb_spec maxAlloc n); [discriminate|].
  intros [= <-]. lia.
Qed.

Lemma ReadFull_inv (r : Reader) (n : Z) (x : string) (r1 : Reader) :
  0 <= n -> ReadFull r n = Ok (x, r1) ->
  x = take (Z.to_nat n) (remaining r)
  /\ r1 = advance (Z.to_nat n) r
  /\ Z.of_nat (length x) = n.
Proof.
  intros Hn. unfold ReadFull.
  destruct (Z.leb_spec n (Z.of_nat (length (remaining r)))) as [Hle | Hgt];
    [|destruct (_ =? 0)%nat; discriminate].
  intros [= <- <-]. repeat split. rewrite length_take; lia.
Qed.

Lemma unmarshalString_len_ok (f : nat) (r : Reader) (x : string) (r1 : Reader) :
  unmarshalString f r = Ok (x, r1) -> len_ok x = true.
Proof.
  unfold unmarshalString. intros H. step_bind H E.
  destruct (Atoi s) as [n|]; [|discriminate].
  apply bind_Ok_inv in H as (m & Em & H).
  apply make_bytes_inv in Em as [-> Hn].
  apply ReadFull_inv in H as (_ & _ & Hlen); [|lia].
  unfold len_ok. apply Z.leb_le. lia.
Qed.

Lemma unmarshalInt_range (f : nat) (r : Reader) (n : Z) (r1 : Reader) :
  unmarshalInt f r = Ok (n, r1) -> int_range n.
Proof.
  unfold unmarshalInt. intros H. step_bind H E.
  destruct (Atoi s) as [m|] eqn:Ea; [|discriminate].
  injection H as <- _. now apply Atoi_range in Ea.
Qed.

Lemma map_set_well_formed (k : string) (v : any) (m : list (string * any)) :
  len_ok k = true -> well_formed v -> dict_well_formed m ->
  dict_well_formed (map_set k v m).
Proof.
  intros Hk Hv [Hn Hall]. split; [now apply map_set_keys|].
  apply Forall_forall. intros e He. rewrite Forall_forall in Hall.
  destruct (In_map_set _ _ _ _ He) as [-> | Hin]; [now split | now apply Hall].
Qed.

Lemma well_formed_list (l : list any) :
  Forall well_formed l -> well_formed (VList l).
Proof.
  intros H. rewrite Forall_forall in H.
  split; cbn [valid supported]; apply forallb_forall; intros x Hx;
    now apply H.
Qed.

Lemma well_formed_dict (m : list (string * any)) :
  dict_well_formed m -> well_formed (VDict m).
Proof.
  intros [Hn Hall]. rewrite Forall_forall in Hall.
  split; cbn [valid supported].
  - apply andb_true_iff. split; [now apply nodupb_NoDup|].
    apply forallb_forall. intros e He. destruct (Hall e He) as [Hk [Hv _]].
    now rewrite Hk, Hv.
  - apply forallb_forall. intros e He. now destruct (Hall e He) as [_ [_ Hs]].
Qed.

(** Whatever the input, a value the decoder returns is well formed. *)
Lemma unmarshal_well_formed (fuel : nat) :
  (forall r v r1, unmarshalValue fuel r = Ok (v, r1) -> well_formed v)
  /\ (forall r acc l r1,
        unmarshalList fuel r acc = Ok (l, r1) ->
        Forall well_formed acc -> Forall well_formed l)
  /\ (forall r acc m r1,
        unmarshalDict fuel r acc = Ok (m, r1) ->
        dict_well_formed acc -> dict_well_formed m).
Proof.
  induction fuel as [|f (IHv & IHl & IHd)];
    [split; [|split]; intros; discriminate|].
  split; [|split].
  - intros r v r1 H. cbn [unmarshalValue] in H. step_bind H E.
    destruct (Ascii.eqb a "i"); [|destruct (Ascii.eqb a "l");
                                   [|destruct (Ascii.eqb a "d")]].
    + step_bind H E1. injection H as <- _.
      apply unmarshalInt_range in E1.
      split; [now apply int_rangeb_iff | reflexivity].
    + step_bind H E1. injection H as <- _.
      apply well_formed_list. eapply IHl; [exact E1 | constructor].
    + step_bind H E1. injection H as <- _.
      apply well_formed_dict. eapply IHd; [exact E1|].
      split; constructor.
    + destruct (unreadByte r0 a) as [r2| | |]; try discriminate.
      cbn [bind] in H. step_bind H E1. injection H as <- _.
      apply unmarshalString_len_ok in E1. now split.
  - intros r acc l r1 H Hacc. cbn [unmarshalList] in H. step_bind H E.
    destruct (Ascii.eqb a "e"); [now injection H as <- _|].
    destruct (unreadByte r0 a) as [r2| | |]; try discriminate.
    cbn [bind] in H. step_bind H E1. eapply IHl; [exact H|].
    apply Forall_app. split; [exact Hacc|].
    constructor; [|constructor]. eapply IHv. exact E1.
  - intros r acc m r1 H Hacc. cbn [unmarshalDict] in H. step_bind H E.
    destruct (Ascii.eqb a "e"); [now injection H as <- _|].
    destruct (unreadByte r0 a) as [r2| | |]; try discriminate.
    cbn [bind] in H. step_bind H E1. step_bind H E2.
    eapply IHd; [exact H|]. apply map_set_well_formed.
    + now apply unmarshalString_len_ok in E1.
    + eapply IHv. exact E2.
    + exact Hacc.
Qed.

Lemma Unmarshal_well_formed (data : string) (v : any) :
  Unmarshal data = Ok v -> well_formed v.
Proof.
  unfold Unmarshal. intros H. step_bind H E. injection H as <-.
  destruct (unmarshal_well_formed (fuel_for data)) as (Hv & _).
  eapply Hv. exact E.
Qed.

(** ** Equality up to the order of maps is an equivalence *)

Lemma equiv_sym (v1 : any) : forall v2, equiv v1 v2 -> equiv v2 v1.
Proof.
  induction v1 as [n | s | l1 IH | m1 IH | ty] using any_ind';
    intros v2 H; inversion H as [| |? l2 Hl|? m2 Hm|]; subst;
    constructor.
  - clear H. induction Hl as [|x y l1 l2 Hxy Hl IHl]; [constructor|].
    inversion IH as [|? ? Hx IH']; subst. constructor; auto.
  - intros k. specialize (Hm k).
    destruct (map_get k m1) as [a|] eqn:E1;
      destruct (map_get k m2) as [b|] eqn:E2;
      inversion Hm as [|? ? Hab]; subst; constructor.
    rewrite Forall_forall in IH.
    now apply (IH (k, a) (map_get_In k m1 a E1)).
Qed.

Lemma equiv_trans (v1 : any) :
  forall v2 v3, equiv v1 v2 -> equiv v2 v3 -> equiv v1 v3.
Proof.
  induction v1 as [n | s | l1 IH | m1 IH | ty] using any_ind';
    intros v2 v3 H12 H23;
    inversion H12 as [| |? l2 Hl|? m2 Hm|]; subst;
    inversion H23 as [| |? l3 Hl'|? m3 Hm'|]; subst; constructor.
  - clear H12 H23. revert l3 Hl'.
    induction Hl as [|x y l1 l2 Hxy Hl IHl]; intros l3 Hl';
      inversion Hl' as [|? z ? l3' Hyz Hl3]; subst; [constructor|].
    inversion IH as [|? ? Hx IH']; subst. constructor; eauto.
  - intros k. specialize (Hm k). specialize (Hm' k).
    destruct (map_get k m1) as [a|] eqn:E1;
      destruct (map_get k m2) as [b|] eqn:E2;
      inversion Hm as [|? ? Hab]; subst;
      destruct (map_get k m3) as [c|] eqn:E3;
      inversion Hm' as [|? ? Hbc]; subst; constructor.
    rewrite Forall_forall in IH.
    now apply (IH (k, a) (map_get_In k m1 a E1) b c).
Qed.

(** ** The output of the encoder *)

Lemma str_app_length_nil (a t : string) : a = a ++ t -> t = "".
Proof.
  intros H. apply (f_equal length) in H. rewrite str_length_app in H.
  destruct t; [reflexivity | simpl in H; lia].
Qed.

(** No encoding is a proper prefix of another, and values with the same
    encoding are equal up to the order of maps. *)
Lemma enc_prefix_free (v w : any) (t : string) :
  well_formed v -> well_formed w ->
  enc w = enc v ++ t -> t = "" /\ equiv v w.
Proof.
  intros [Hv Hsv] [Hw Hsw] He.
  destruct (Unmarshal_enc v t Hv Hsv) as (v' & Hdv & Hrv & Hvv & _).
  destruct (Unmarshal_enc w "" Hw Hsw) as (w' & Hdw & Hrw & Hvw & _).
  rewrite str_app_nil_r, He, Hdv in Hdw. injection Hdw as <-.
  assert (Hvw' : equiv v w).
  { apply (equiv_trans v v' w); [now apply equiv_sym | exact Hrw]. }
  split; [|exact Hvw'].
  pose proof (equiv_marshalValue v w Hvw' Hv Hw "") as Hm.
  apply (f_equal fst) in Hm. fold (enc v) in Hm. fold (enc w) in Hm.
  rewrite He in Hm. now apply str_app_length_nil in Hm.
Qed.

Lemma leading_nonzero_app_l (a b : string) :
  a <> "" -> leading_nonzero (a ++ b) = leading_nonzero a.
Proof. destruct a; [congruence | reflexivity]. Qed.

Lemma digit_of_nonzero (n : Z) :
  1 <= n <= 9 -> Ascii.eqb (digit_of n) "0" = false.
Proof.
  intros Hn. apply Ascii.eqb_neq. intros H.
  pose proof (digit_val_of n ltac:(lia)) as Hv. rewrite H in Hv.
  vm_compute in Hv. lia.
Qed.

Lemma utoa_aux_leading (fuel : nat) (n : Z) :
  1 <= n -> Z.log2 n < Z.of_nat fuel ->
  leading_nonzero (utoa_aux fuel n) = true.
Proof.
  revert n; induction fuel as [|f IH]; intros n Hn Hf.
  - pose proof (Z.log2_nonneg n). lia.
  - cbn [utoa_aux]. destruct (Z.ltb_spec n 10) as [Hlt | Hge].
    + cbn [leading_nonzero]. now rewrite digit_of_nonzero by lia.
    + pose proof (log2_div10 n Hge) as Hlog.
      assert (Hq : 1 <= n / 10) by (apply Z.div_le_lower_bound; lia).
      rewrite leading_nonzero_app_l.
      * apply IH; lia.
      * apply utoa_aux_spec; lia.
Qed.

Lemma utoa_leading (n : Z) : 1 <= n -> leading_nonzero (utoa n) = true.
Proof.
  intros Hn. apply utoa_aux_leading; [exact Hn|].
  pose proof (Z.log2_nonneg n). lia.
Qed.

Lemma leading_nonzero_canonical (t : string) :
  all_digits t = true -> leading_nonzero t = true ->
  canonical_digits t = true /\ t <> "0".
Proof.
  destruct t as [|c s]; [discriminate|]. intros Hd Hl.
  unfold canonical_digits. rewrite Hd. cbn [leading_nonzero] in Hl.
  rewrite Hl. split; [reflexivity|].
  intros [= -> _]. discriminate.
Qed.

Lemma utoa_canonical (n : Z) : 0 <= n -> canonical_digits (utoa n) = true.
Proof.
  intros Hn. destruct (Z.eq_dec n 0) as [-> | Hne]; [reflexivity|].
  apply leading_nonzero_canonical; [apply utoa_spec; lia|].
  apply utoa_leading. lia.
Qed.

(** [strconv.Itoa] prints a numeral of the canonical grammar, with the
    value it was given. *)
Lemma Itoa_canonical (n : Z) :
  canonical_int_text (Itoa n) = true /\ int_text_value (Itoa n) = n.
Proof.
  unfold Itoa. destruct (Z.ltb_spec n 0) as [Hneg | Hpos].
  - destruct (utoa_spec (- n) ltac:(lia)) as (Hd & Hne & Hv).
    destruct (leading_nonzero_canonical (utoa (- n)) Hd
                (utoa_leading (- n) ltac:(lia))) as [Hc H0].
    unfold canonical_int_text, int_text_value.
    change (Ascii.eqb "-" "-") with true. cbv iota.
    rewrite Hc, Hv. split; [|lia].
    apply andb_true_iff. split; [reflexivity|].
    now apply negb_true_iff, String.eqb_neq.
  - destruct (utoa_spec n Hpos) as (Hd & Hne & Hv).
    pose proof (utoa_canonical n Hpos) as Hc.
    destruct (utoa n) as [|c s] eqn:E; [congruence|].
    unfold canonical_int_text, int_text_value.
    rewrite (all_digits_head c s "-" Hd eq_refl). now split.
Qed.

Lemma utoa_canonical_nat (n : nat) :
  canonical_digits (Itoa (Z.of_nat n)) = true.
Proof.
  unfold Itoa. destruct (Z.ltb_spec (Z.of_nat n) 0); [lia|].
  apply utoa_canonical. lia.
Qed.

Lemma digits_value_Itoa_nat (n : nat) :
  digits_value 0 (Itoa (Z.of_nat n)) = Z.of_nat n.
Proof.
  unfold Itoa. destruct (Z.ltb_spec (Z.of_nat n) 0); [lia|].
  apply utoa_spec. lia.
Qed.

Lemma canonical_seq_items (l : list any) :
  Forall (fun v => canonical (enc v)) l -> canonical_seq (enc_items l).
Proof.
  induction 1 as [|v l Hv Hl IH]; cbn [enc_items]; now constructor.
Qed.

Lemma canonical_entries_sorted (es : list (string * any)) :
  forall prev,
    ascending_from prev (map fst es) ->
    Forall (fun e => canonical (enc (snd e))) es ->
    canonical_entries prev (enc_entries es).
Proof.
  induction es as [|[k v] es IH]; intros prev [Hs Hhd] Hall;
    cbn [enc_entries]; [constructor|].
  inversion Hall as [|? ? Hv Hrest]; subst. cbn [map fst snd] in *.
  apply StronglySorted_inv in Hs as [Hs Hk].
  unfold enc_entry. cbn [fst snd]. rewrite marshalString_app.
  cbn [append]. rewrite !str_app_assoc.
  change (String ":" k ++ enc v ++ enc_entries es)
    with (String ":" (k ++ enc v ++ enc_entries es)).
  destruct (Itoa_nat_digits (length k)) as [Hd Hne].
  apply (canonical_entries_cons prev (Itoa (Z.of_nat (length k))) k
           (enc v) (enc_entries es)).
  - apply utoa_canonical_nat.
  - apply digits_value_Itoa_nat.
  - exact Hhd.
  - exact Hv.
  - apply IH; [|exact Hrest]. split; [exact Hs|].
    destruct (map fst es) as [|k1 ks]; [exact I|].
    cbn [above]. now inversion Hk.
Qed.

(** The encoding of a well-formed value is a value of the canonical
    grammar. *)
Lemma canonical_enc (v : any) :
  valid v = true -> supported v = true -> canonical (enc v).
Proof.
  induction v as [n | s | l IH | m IH | ty] using any_ind'; intros Hv Hs.
  - rewrite enc_VInt. cbn [valid] in Hv. apply int_rangeb_iff in Hv.
    destruct (Itoa_canonical n) as [Hc Hval].
    apply canonical_integer; [exact Hc | now rewrite Hval].
  - rewrite enc_VString. apply canonical_string.
    + apply utoa_canonical_nat.
    + apply digits_value_Itoa_nat.
  - cbn [valid supported] in Hv, Hs. rewrite forallb_forall in Hv, Hs.
    rewrite Forall_forall in IH.
    rewrite enc_VList.
    + apply canonical_list, canonical_seq_items, Forall_forall.
      intros x Hx. apply IH; auto.
    + apply Forall_forall. intros x Hx. now apply supported_not_other, Hs.
  - cbn [valid supported] in Hv, Hs.
    apply andb_true_iff in Hv as [Hnd Hv]. apply nodupb_NoDup in Hnd.
    rewrite forallb_forall in Hv, Hs. rewrite Forall_forall in IH.
    rewrite enc_VDict.
    + apply canonical_dict, canonical_entries_sorted.
      * rewrite entries_at_keys.
        -- split; [now apply sort_strings_strict|].
           now destruct (sort_strings (map fst m)).
        -- apply Forall_forall. intros k Hk. apply map_get_key_In.
           eapply Permutation_in; [apply sort_strings_perm | exact Hk].
      * apply Forall_forall. intros e He.
        apply In_entries_at in He as [_ Hget]. apply map_get_In in Hget.
        specialize (Hv _ Hget). apply andb_true_iff in Hv as [_ Hv].
        apply (IH _ Hget); [exact Hv | exact (Hs _ Hget)].
    + apply Forall_forall. intros e He. now apply supported_not_other, Hs.
  - discriminate.
Qed.

(** ** Malformed input *)

Lemma readUntilColon_loop_eof (s : string) :
  forall fuel r buf,
    remaining r = s -> occurs ":" s = false -> (length s < fuel)%nat ->
    readUntilColon_loop fuel r buf = Err EOF.
Proof.
  induction s as [|c s IH]; intros fuel r buf Hrem Hocc Hf;
    (destruct fuel as [|f]; [simpl in Hf; lia|]); cbn [readUntilColon_loop].
  - now rewrite (readByte_nil r Hrem).
  - cbn [occurs] in Hocc. apply orb_false_iff in Hocc as [Hc Hocc].
    rewrite (readByte_cons r _ _ Hrem). cbn [bind]. rewrite Hc.
    apply IH; [now apply remaining_advance_cons in Hrem | exact Hocc|].
    simpl in Hf. lia.
Qed.

Lemma unmarshalInt_loop_eof (s : string) :
  forall fuel r buf,
    remaining r = s -> occurs "e" s = false -> (length s < fuel)%nat ->
    unmarshalInt_loop fuel r buf = Err EOF.
Proof.
  induction s as [|c s IH]; intros fuel r buf Hrem Hocc Hf;
    (destruct fuel as [|f]; [simpl in Hf; lia|]); cbn [unmarshalInt_loop].
  - now rewrite (readByte_nil r Hrem).
  - cbn [occurs] in Hocc. apply orb_false_iff in Hocc as [Hc Hocc].
    rewrite (readByte_cons r _ _ Hrem). cbn [bind]. rewrite Hc.
    apply IH; [now apply remaining_advance_cons in Hrem | exact Hocc|].
    simpl in Hf. lia.
Qed.

(** A string in which [c] occurs splits at the first [c]. *)
Lemma occurs_split (c : ascii) (s : string) :
  occurs c s = true ->
  exists t tl, s = t ++ String c tl /\ occurs c t = false.
Proof.
  induction s as [|x s IH]; [discriminate|]. cbn [occurs].
  destruct (Ascii.eqb_spec x c) as [-> | Hne]; cbn [orb].
  - intros _. exists "", s. split; reflexivity.
  - intros H. destruct (IH H) as (t & tl & -> & Ht).
    exists (String x t), tl. split; [reflexivity|].
    cbn [occurs]. rewrite Ht.
    now destruct (Ascii.eqb_spec x c).
Qed.

(** [unmarshalString] in front of a text [t] and its colon: [t] goes to
    [strconv.Atoi], the result to [make] and to [io.ReadFull]. *)
Lemma unmarshalString_text (t rest : string) (fuel : nat) (r : Reader) :
  remaining r = t ++ String ":" rest ->
  occurs ":" t = false ->
  (length t < fuel)%nat ->
  unmarshalString fuel r
  = match Atoi t with
    | None => Err ErrInvalidLength
    | Some n =>
        strData <- make_bytes n ;;
        ReadFull (advance (S (length t)) r) strData
    end.
Proof.
  intros Hrem Hocc Hf. unfold unmarshalString, readUntilColon.
  rewrite (readUntilColon_loop_spec t fuel r "" rest Hocc Hrem Hf).
  reflexivity.
Qed.

Lemma is_marker_false (c : ascii) :
  is_marker c = false ->
  Ascii.eqb c "i" = false /\ Ascii.eqb c "l" = false
  /\ Ascii.eqb c "d" = false.
Proof.
  unfold is_marker. intros H.
  apply orb_false_iff in H as [H Hd]. apply orb_false_iff in H as [Hi Hl].
  auto.
Qed.

(** [unmarshalValue] on a first byte that is none of ['i'], ['l'], ['d']
    is [unmarshalString] on the same reader. *)
Lemma unmarshalValue_default (f : nat) (r : Reader) (c : ascii) (s : string) :
  remaining r = String c s -> is_marker c = false ->
  unmarshalValue (S f) r
  = '(str, r3) <- unmarshalString f r ;; Ok (VString str, r3).
Proof.
  intros Hrem Hm. destruct (is_marker_false c Hm) as (Hi & Hl & Hd).
  cbn [unmarshalValue]. rewrite (readByte_cons r _ _ Hrem). cbn [bind].
  rewrite Hi, Hl, Hd, unreadByte_advance. reflexivity.
Qed.

Lemma occurs_cons (c x : ascii) (s : string) :
  occurs c (String x s) = Ascii.eqb x c || occurs c s.
Proof. reflexivity. Qed.

Lemma parse_digits_Some (acc : Z) (s : string) (n : Z) :
  parse_digits acc s = Some n -> all_digits s = true.
Proof.
  revert acc; induction s as [|c s IH]; intros acc H; [reflexivity|].
  cbn [parse_digits all_digits] in *.
  destruct (is_digit c); [|discriminate]. now apply IH in H.
Qed.

(** A text [strconv.Atoi] accepts is a sign or a digit followed by
    digits: it holds no colon and does not start like another
    production. *)
Lemma Atoi_Some_shape (t : string) (n : Z) :
  Atoi t = Some n -> head_marker t = false /\ occurs ":" t = false.
Proof.
  unfold Atoi. destruct t as [|c s]; [discriminate|].
  destruct (Ascii.eqb_spec c "-") as [-> | Hm];
    [|destruct (Ascii.eqb_spec c "+") as [-> | Hp]]; cbn [orb].
  - destruct s as [|x s']; [discriminate|].
    destruct (parse_digits 0 (String x s')) eqn:E; [|discriminate].
    intros _. apply parse_digits_Some in E. split; [reflexivity|].
    rewrite (occurs_cons ":" "-"). change (Ascii.eqb "-" ":") with false.
    cbn [orb]. now apply all_digits_occurs.
  - destruct s as [|x s']; [discriminate|].
    destruct (parse_digits 0 (String x s')) eqn:E; [|discriminate].
    intros _. apply parse_digits_Some in E. split; [reflexivity|].
    rewrite (occurs_cons ":" "+"). change (Ascii.eqb "+" ":") with false.
    cbn [orb]. now apply all_digits_occurs.
  - destruct (parse_digits 0 (String c s)) eqn:E; [|discriminate].
    intros _. apply parse_digits_Some in E. split.
    + cbn [head_marker]. unfold is_marker.
      rewrite (all_digits_head c s "i" E eq_refl).
      rewrite (all_digits_head c s "l" E eq_refl).
      now rewrite (all_digits_head c s "d" E eq_refl).
    + now apply all_digits_occurs.
Qed.

Lemma Atoi_bad_head (c : ascii) (s : string) :
  not_numeral_head c = true -> Atoi (String c s) = None.
Proof.
  unfold not_numeral_head. intros H.
  apply andb_true_iff in H as [H Hp]. apply andb_true_iff in H as [Hd Hm].
  apply negb_true_iff in Hd, Hm, Hp.
  unfold Atoi. rewrite Hm, Hp. cbn [orb parse_digits]. now rewrite Hd.
Qed.

(** [unmarshalString] in front of a byte no numeral starts with. *)
Lemma unmarshalString_bad_head (c : ascii) (rest : string) (fuel : nat)
  (r : Reader) :
  remaining r = String c rest ->
  not_numeral_head c = true ->
  (length (String c rest) < fuel)%nat ->
  unmarshalString fuel r
  = if occurs ":" (String c rest) then Err ErrInvalidLength else Err EOF.
Proof.
  intros Hrem Hc Hf. destruct (occurs ":" (String c rest)) eqn:Eo.
  - destruct (occurs_split _ _ Eo) as (t & tl & Es & Ht).
    rewrite Es in Hrem.
    rewrite (unmarshalString_text t tl fuel r Hrem Ht).
    + destruct t as [|x t']; [reflexivity|].
      injection Es as <- _. now rewrite Atoi_bad_head.
    + apply (f_equal length) in Es. rewrite str_length_app in Es. lia.
  - unfold unmarshalString, readUntilColon.
    now rewrite (readUntilColon_loop_eof _ fuel r "" Hrem Eo Hf).
Qed.

(** [Unmarshal] on an input that starts with a text [t] and a colon, [t]
    not starting like another production. *)
Lemma Unmarshal_string_text (t rest : string) :
  head_marker t = false ->
  occurs ":" t = false ->
  Unmarshal (t ++ String ":" rest)
  = match Atoi t with
    | None => Err ErrInvalidLength
    | Some n =>
        if (n <? 0) || (maxAlloc <? n)
        then Panic "runtime error: makeslice: len out of range"
        else if n <=? Z.of_nat (length rest)
             then Ok (VString (take (Z.to_nat n) rest))
             else if (length rest =? 0)%nat then Err EOF
                  else Err ErrUnexpectedEOF
    end.
Proof.
  intros Hm Hocc. unfold Unmarshal, fuel_for.
  set (data := t ++ String ":" rest).
  assert (Hlen : (length t < 2 * length data + 3)%nat).
  { unfold data. rewrite str_length_app. lia. }
  replace (2 * length data + 4)%nat with (S (2 * length data + 3)) by lia.
  assert (Hhd : exists c s, data = String c s /\ is_marker c = false).
  { unfold data. destruct t as [|c t'].
    - exists ":"%char, rest. split; reflexivity.
    - exists c, (t' ++ String ":" rest). split; [reflexivity | exact Hm]. }
  destruct Hhd as (c & s & Ed & Hc).
  rewrite (unmarshalValue_default _ (NewReader data) c s Ed Hc).
  rewrite (unmarshalString_text t rest _ (NewReader data) eq_refl Hocc Hlen).
  destruct (Atoi t) as [n|]; [|reflexivity].
  unfold make_bytes. destruct ((n <? 0) || (maxAlloc <? n)); [reflexivity|].
  cbn [bind]. unfold ReadFull.
  assert (Hs : remaining (advance (S (length t)) (NewReader data)) = rest).
  { rewrite remaining_advance, remaining_NewReader.
    change (S (length t)) with (1 + length t)%nat.
    rewrite <- drop_drop. unfold data. now rewrite drop_length_app. }
  rewrite Hs. destruct (n <=? Z.of_nat (length rest)); [reflexivity|].
  destruct (length rest =? 0)%nat; reflexivity.
Qed.

(** X1: every value [Unmarshal] returns is built from the four variants
    only, its integers fit 64 bits, its strings and keys fit an allocation
    and the keys of each of its dictionaries are pairwise distinct,
    whatever the input was. *)
Theorem X1_decoded_value_well_formed (data : string) (v : any) :
  Unmarshal data = Ok v -> valid v = true /\ supported v = true.
Proof.
  intros H. unfold Unmarshal in H. step_bind H E. injection H as <-.
  destruct (unmarshal_well_formed (fuel_for data)) as (Hv & _).
  exact (Hv _ _ _ E).
Qed.

Lemma X1_witness :
  Unmarshal "d1:bli1ei-02ee1:a0:1:bdee"
  = Ok (VDict [("b", VDict []); ("a", VString "")])
  /\ valid (VDict [("b", VDict []); ("a", VString "")]) = true
  /\ supported (VDict [("b", VDict []); ("a", VString "")]) = true.
Proof.
  split; [reflexivity|].
  exact (X1_decoded_value_well_formed "d1:bli1ei-02ee1:a0:1:bdee" _ eq_refl).
Defined.

(** X2: for every well-formed value [Marshal] succeeds and its output is a
    value of the canonical grammar: minimal numerals, exact string lengths,
    strictly ascending keys at every level, closing terminators. *)
Theorem X2_marshal_output_canonical (v : any) :
  valid v = true -> supported v = true ->
  exists b, Marshal v = Ok b /\ canonical b.
Proof.
  intros Hv Hs. exists (enc v). split.
  - apply Marshal_ok. now apply supported_not_other.
  - now apply canonical_enc.
Qed.

Lemma X2_witness :
  exists b,
    Marshal (VDict [("b", VList [VInt (-7); VString ""]); ("a", VInt 0)])
    = Ok b
    /\ canonical b.
Proof.
  apply X2_marshal_output_canonical; reflexivity.
Defined.

(** X3: re-encoding normalizes.  For every input from which [Unmarshal]
    decodes a value, [Marshal] of that value succeeds with a canonical
    encoding [b]; [b] decodes to an equal value (up to the order of maps),
    and encoding that value gives [b] again. *)
Theorem X3_reencoding_normalizes (data : string) (v : any) :
  Unmarshal data = Ok v ->
  exists b v',
    Marshal v = Ok b /\ canonical b
    /\ Unmarshal b = Ok v' /\ equiv v' v /\ Marshal v' = Ok b.
Proof.
  intros H. destruct (Unmarshal_well_formed data v H) as [Hv Hs].
  destruct (Unmarshal_enc v "" Hv Hs) as (v' & Hdec & Hrel & Hv' & Hs').
  rewrite str_app_nil_r in Hdec.
  assert (Hm : Marshal v = Ok (enc v))
    by (apply Marshal_ok; now apply supported_not_other).
  exists (enc v), v'. repeat split; try assumption.
  - now apply canonical_enc.
  - now rewrite (equiv_Marshal v' v Hrel Hv' Hv).
Qed.

Lemma X3_witness :
  Unmarshal "d1:bi03e1:ai-0ee" = Ok (VDict [("b", VInt 3); ("a", VInt 0)])
  /\ Marshal (VDict [("b", VInt 3); ("a", VInt 0)]) = Ok "d1:ai0e1:bi3ee"
  /\ exists b v',
      Marshal (VDict [("b", VInt 3); ("a", VInt 0)]) = Ok b /\ canonical b
      /\ Unmarshal b = Ok v'
      /\ equiv v' (VDict [("b", VInt 3); ("a", VInt 0)])
      /\ Marshal v' = Ok b.
Proof.
  split; [reflexivity|]. split; [reflexivity|].
  exact (X3_reencoding_normalizes "d1:bi03e1:ai-0ee" _ eq_refl).
Defined.

(** X4: the encoding is self-delimiting and faithful.  If the encoding of
    one well-formed value starts with the encoding of another, the two
    encodings are the same and the two values are equal up to the order of
    maps. *)
Theorem X4_encoding_prefix_free (v w : any) (a t : string) :
  valid v = true -> supported v = true ->
  valid w = true -> supported w = true ->
  Marshal v = Ok a -> Marshal w = Ok (a ++ t) ->
  t = "" /\ equiv v w.
Proof.
  intros Hv Hsv Hw Hsw Ha Hb.
  rewrite Marshal_ok in Ha by now apply supported_not_other.
  rewrite Marshal_ok in Hb by now apply supported_not_other.
  injection Ha as <-. injection Hb as Hb.
  apply enc_prefix_free; [now split | now split | exact Hb].
Qed.

Lemma X4_witness :
  Marshal (VDict [("b", VInt 1); ("a", VList [])]) = Ok "d1:ale1:bi1ee"
  /\ "" = ""
  /\ equiv (VDict [("b", VInt 1); ("a", VList [])])
       (VDict [("a", VList []); ("b", VInt 1)]).
Proof.
  split; [reflexivity|].
  apply (X4_encoding_prefix_free
           (VDict [("b", VInt 1); ("a", VList [])])
           (VDict [("a", VList []); ("b", VInt 1)]) "d1:ale1:bi1ee" "");
    reflexivity.
Defined.

(** X5: an input cut before the delimiter of its first token fails with
    [io.EOF].  That is the result for every input without a colon that
    does not start with ['i'], ['l'] or ['d'] (the empty input, digits
    alone, any other bytes), and for every integer without its ['e']. *)
Theorem X5_missing_delimiter_is_EOF (data t : string) :
  (head_marker data = false -> occurs ":" data = false ->
   Unmarshal data = Err EOF)
  /\ (occurs "e" t = false -> Unmarshal (String "i" t) = Err EOF).
Proof.
  split.
  - intros Hm Hocc. unfold Unmarshal, fuel_for.
    replace (2 * length data + 4)%nat with (S (2 * length data + 3)) by lia.
    destruct data as [|c s].
    + reflexivity.
    + rewrite (unmarshalValue_default _ (NewReader (String c s)) c s
                 eq_refl Hm).
      unfold unmarshalString, readUntilColon.
      rewrite (readUntilColon_loop_eof (String c s) _
                 (NewReader (String c s)) "" eq_refl Hocc); [reflexivity|].
      lia.
  - intros Hocc. unfold Unmarshal, fuel_for.
    set (data' := String "i" t).
    replace (2 * length data' + 4)%nat with (S (2 * length data' + 3)) by lia.
    cbn [unmarshalValue].
    rewrite (readByte_cons (NewReader data') "i" t eq_refl). cbn [bind].
    change (Ascii.eqb "i" "i") with true. cbv iota. unfold unmarshalInt.
    rewrite (unmarshalInt_loop_eof t _ (advance 1 (NewReader data')) ""
               eq_refl Hocc); [reflexivity|].
    unfold data'. cbn [length]. lia.
Qed.

Lemma X5_witness :
  Unmarshal "12345 spam" = Err EOF /\ Unmarshal "i-12345" = Err EOF.
Proof.
  destruct (X5_missing_delimiter_is_EOF "12345 spam" "-12345") as [H1 H2].
  split; [apply H1 | apply H2]; reflexivity.
Defined.

(** X6: the length prefix of a string is any text [strconv.Atoi] accepts,
    not only the minimal numeral: with a plus sign or with leading zeros,
    a prefix whose value is the number of bytes that follow is decoded to
    those bytes. *)
Theorem X6_length_prefix_lenient (t s rest : string) :
  Atoi t = Some (Z.of_nat (length s)) ->
  len_ok s = true ->
  Unmarshal (t ++ String ":" (s ++ rest)) = Ok (VString s).
Proof.
  intros Ha Hlen. destruct (Atoi_Some_shape t _ Ha) as [Hm Hocc].
  rewrite (Unmarshal_string_text t (s ++ rest) Hm Hocc), Ha.
  apply len_ok_range in Hlen.
  destruct (Z.ltb_spec (Z.of_nat (length s)) 0); [lia|].
  destruct (Z.ltb_spec maxAlloc (Z.of_nat (length s))); [lia|]. cbn [orb].
  rewrite str_length_app.
  destruct (Z.leb_spec (Z.of_nat (length s))
              (Z.of_nat (length s + length rest))); [|lia].
  now rewrite Nat2Z.id, take_length_app.
Qed.

Lemma X6_witness :
  Atoi "+004" = Some 4
  /\ Unmarshal "+004:spami1e" = Ok (VString "spam").
Proof.
  split; [reflexivity|].
  exact (X6_length_prefix_lenient "+004" "spam" "i1e" eq_refl eq_refl).
Defined.

(** X7: every length prefix [strconv.Atoi] reads as a negative number, or
    as a number above the allocation limit, makes [Unmarshal] panic in
    [make], whatever follows the colon. *)
Theorem X7_bad_length_panics (t rest : string) (n : Z) :
  Atoi t = Some n ->
  n < 0 \/ maxAlloc < n ->
  Unmarshal (t ++ String ":" rest)
  = Panic "runtime error: makeslice: len out of range".
Proof.
  intros Ha Hn. destruct (Atoi_Some_shape t _ Ha) as [Hm Hocc].
  rewrite (Unmarshal_string_text t rest Hm Hocc), Ha.
  destruct (Z.ltb_spec n 0); [reflexivity|].
  destruct (Z.ltb_spec maxAlloc n); [reflexivity | lia].
Qed.

Lemma X7_witness :
  Atoi "-0012" = Some (-12)
  /\ Unmarshal "-0012:twelve bytes" 
     = Panic "runtime error: makeslice: len out of range".
Proof.
  split; [reflexivity|].
  apply (X7_bad_length_panics "-0012" "twelve bytes" (-12));
    [reflexivity | left; reflexivity].
Defined.

(** X8: an input that does not start with ['i'], ['l'] or ['d'] and whose
    text before the first colon is no numeral for [strconv.Atoi] (empty,
    not decimal, out of the 64-bit range) fails with the invalid string
    length error. *)
Theorem X8_invalid_length_text (t rest : string) :
  head_marker t = false ->
  occurs ":" t = false ->
  Atoi t = None ->
  Unmarshal (t ++ String ":" rest) = Err ErrInvalidLength.
Proof.
  intros Hm Hocc Ha. now rewrite (Unmarshal_string_text t rest Hm Hocc), Ha.
Qed.

Lemma X8_witness :
  Unmarshal "4x:spam" = Err ErrInvalidLength
  /\ Unmarshal ":spam" = Err ErrInvalidLength
  /\ Unmarshal "99999999999999999999:" = Err ErrInvalidLength.
Proof.
  split; [|split].
  - apply (X8_invalid_length_text "4x" "spam"); reflexivity.
  - apply (X8_invalid_length_text "" "spam"); reflexivity.
  - apply (X8_invalid_length_text "99999999999999999999" ""); reflexivity.
Defined.

(** X9: a dictionary key has to be a string.  Behind any bindings, a key
    position that starts with a byte no length prefix starts with (an
    integer, a list, a dictionary, any other byte but the terminator)
    makes [Unmarshal] fail: with the invalid string length error when a
    colon follows somewhere, with [io.EOF] otherwise. *)
Theorem X9_key_must_be_string (es : list (string * any)) (c : ascii)
  (rest : string) :
  forallb (fun e => len_ok (fst e) && valid (snd e) && supported (snd e)) es
  = true ->
  not_numeral_head c = true ->
  Ascii.eqb c "e" = false ->
  Unmarshal (String "d" (enc_entries es ++ String c rest))
  = if occurs ":" (String c rest) then Err ErrInvalidLength else Err EOF.
Proof.
  intros Hes Hc He. rewrite forallb_forall in Hes.
  assert (Hall : forall e, In e es ->
            len_ok (fst e) = true /\ valid (snd e) = true
            /\ supported (snd e) = true).
  { intros e Hin. specialize (Hes e Hin).
    apply andb_true_iff in Hes as [Hes Hs].
    apply andb_true_iff in Hes as [Hk Hv]. auto. }
  assert (Hno : Forall (fun e => is_other (snd e) = false) es).
  { apply Forall_forall. intros e Hin.
    now apply supported_not_other, (Hall e Hin). }
  unfold Unmarshal, fuel_for.
  set (data := String "d" (enc_entries es ++ String c rest)).
  replace (2 * length data + 4)%nat with (S (2 * length data + 3)) by lia.
  cbn [unmarshalValue].
  rewrite (readByte_cons (NewReader data) "d" _ eq_refl).
  cbn [bind]. change (Ascii.eqb "d" "i") with false.
  change (Ascii.eqb "d" "l") with false.
  change (Ascii.eqb "d" "d") with true. cbv iota.
  destruct (unmarshalDict_entries es) with (fuel := (2 * length data + 3)%nat)
    (r := advance 1 (NewReader data)) (acc := @nil (string * any))
    (tl := String c rest) as (es' & _ & Hloop).
  { apply Forall_forall. intros e Hin. destruct (Hall e Hin) as (Hk & Hv & Hs).
    repeat split; [exact Hk | now apply supported_not_other|].
    now apply decodes_back_all. }
  { reflexivity. }
  { unfold data. cbn [length]. rewrite str_length_app. lia. }
  rewrite Hloop. pose proof (enc_entries_length es Hno) as Hn.
  assert (Hdata : length data
                  = S (length (enc_entries es) + S (length rest))).
  { unfold data. cbn [length]. rewrite str_length_app. reflexivity. }
  destruct (2 * length data + 3 - List.length es)%nat as [|g] eqn:Eg; [lia|].
  assert (Hrem : remaining (advance (length (enc_entries es))
                              (advance 1 (NewReader data)))
                 = String c rest).
  { rewrite remaining_advance.
    change (remaining (advance 1 (NewReader data)))
      with (enc_entries es ++ String c rest).
    apply drop_length_app. }
  cbn [unmarshalDict]. rewrite (readByte_cons _ _ _ Hrem). cbn [bind].
  rewrite He, unreadByte_advance. cbn [bind].
  rewrite (unmarshalString_bad_head c rest g _ Hrem Hc).
  - now destruct (occurs ":" (String c rest)).
  - cbn [length]. lia.
Qed.

Lemma X9_witness :
  Unmarshal "d1:ai1ei2e3:fooe" = Err ErrInvalidLength
  /\ Unmarshal "d1:ai1eli2ee" = Err EOF.
Proof.
  split.
  - exact (X9_key_must_be_string [("a", VInt 1)] "i" "2e3:fooe"
             eq_refl eq_refl eq_refl).
  - exact (X9_key_must_be_string [("a", VInt 1)] "l" "i2ee"
             eq_refl eq_refl eq_refl).
Defined.

(** X10: [unreadByte] undoes [readByte].  After a byte was read, the
    seek back by one cannot fail, it restores the reader, and the byte is
    the first of what was unread before; only on a reader at offset 0 does
    [unreadByte] fail, with the negative position error. *)
Theorem X10_unreadByte_undoes_readByte (r r1 : Reader) (c b : ascii)
  (data : string) :
  (readByte r = Ok (c, r1) ->
   unreadByte r1 b = Ok r /\ remaining r = String c (remaining r1))
  /\ unreadByte (NewReader data) b = Err ErrNegativePosition.
Proof.
  split; [|reflexivity]. intros H.
  pose proof H as H'. unfold readByte in H'.
  destruct (get (rd_i r) (rd_s r)) as [x|] eqn:E; [|discriminate].
  injection H' as -> <-.
  split; [apply unreadByte_advance|].
  rewrite get_drop in E. rewrite remaining_advance. unfold remaining in *.
  destruct (drop (rd_i r) (rd_s r)) as [|y s]; [discriminate|].
  now injection E as ->.
Qed.

Lemma X10_witness :
  unreadByte (advance 3 (NewReader "4:spam")) "x"
  = Ok (advance 2 (NewReader "4:spam"))
  /\ remaining (advance 2 (NewReader "4:spam")) = "spam".
Proof.
  destruct (X10_unreadByte_undoes_readByte
              (advance 2 (NewReader "4:spam"))
              (advance 3 (NewReader "4:spam")) "s" "x" "")
    as [H _].
  destruct (H eq_refl) as (H1 & H2). split; [exact H1 | exact H2].
Defined.

(** ** Outcomes of package torrent *)

Lemma agree_refl {A : Type} (a : outcome A) : agree a a.
Proof. destruct a; cbn; auto. Qed.

Lemma agree_sym {A : Type} (a b : outcome A) : agree a b -> agree b a.
Proof. destruct a, b; cbn; auto. Qed.

Lemma agree_trans {A : Type} (a b c : outcome A) :
  agree a b -> agree b c -> agree a c.
Proof. destruct a, b, c; cbn; try tauto; congruence. Qed.

Lemma agree_Done {A : Type} (a : outcome A) (x : A) :
  agree a (Done x) -> a = Done x.
Proof. destruct a; cbn; try tauto. now intros ->. Qed.

Lemma agree_and_then {A B : Type} (m m' : outcome A) (k k' : A -> outcome B) :
  agree m m' -> (forall a, agree (k a) (k' a)) ->
  agree (and_then m k) (and_then m' k').
Proof.
  intros Hm Hk. destruct m, m'; cbn in *; try tauto.
  subst. apply Hk.
Qed.

Lemma and_then_assoc {A B C : Type} (m : outcome A) (k : A -> outcome B)
  (h : B -> outcome C) :
  and_then (and_then m k) h = and_then m (fun a => and_then (k a) h).
Proof. now destruct m. Qed.

Lemma and_then_Done_inv {A B : Type} (m : outcome A) (k : A -> outcome B)
  (b : B) :
  and_then m k = Done b -> exists a, m = Done a /\ k a = Done b.
Proof. destruct m; cbn; try discriminate. eauto. Qed.

(** ** Loops over a map *)

Lemma filter_all {A : Type} (f : A -> bool) (l : list A) :
  (forall x, In x l -> f x = true) -> filter f l = l.
Proof.
  induction l as [|x l IH]; intros H; cbn; [reflexivity|].
  rewrite (H x (or_introl eq_refl)). f_equal. apply IH.
  intros y Hy. apply H. now right.
Qed.

Lemma perm_front (k : string) (v : any) (m : list (string * any)) :
  NoDup (map fst m) -> map_get k m = Some v ->
  Permutation m ((k, v) :: filter (fun kv => negb (String.eqb (fst kv) k)) m).
Proof.
  induction m as [|[k0 v0] m IH]; intros Hnd Hget; [discriminate|].
  cbn [map fst] in Hnd. inversion Hnd as [|? ? Hnin Hnd']; subst.
  cbn [map_get] in Hget. cbn [filter fst].
  destruct (String.eqb_spec k0 k) as [->|Hne].
  - inversion Hget; subst. cbn [negb]. rewrite filter_all; [reflexivity|].
    intros [k1 v1] Hin. cbn [fst].
    destruct (String.eqb_spec k1 k) as [->|]; [|reflexivity].
    exfalso. apply Hnin. now apply (in_map fst) in Hin.
  - cbn [negb]. rewrite perm_swap. constructor. now apply IH.
Qed.

Lemma map_get_filter (k k' : string) (m : list (string * any)) :
  k' <> k ->
  map_get k' (filter (fun kv => negb (String.eqb (fst kv) k)) m)
  = map_get k' m.
Proof.
  intros Hne. induction m as [|[k0 v0] m IH]; [reflexivity|].
  cbn [filter fst map_get].
  destruct (String.eqb_spec k0 k) as [->|Hk0]; cbn [negb map_get].
  - destruct (String.eqb_spec k k'); [congruence | exact IH].
  - now rewrite IH.
Qed.

Lemma NoDup_keys_filter (f : string * any -> bool) (m : list (string * any)) :
  NoDup (map fst m) -> NoDup (map fst (filter f m)).
Proof.
  induction m as [|kv m IH]; intros Hnd; [constructor|].
  cbn [map] in Hnd. inversion Hnd as [|? ? Hnin Hnd']; subst.
  cbn [filter]. destruct (f kv); [|now apply IH].
  cbn [map]. constructor; [|now apply IH].
  intros Hin. apply Hnin. apply in_map_iff in Hin as (e & He & Hin).
  apply filter_In in Hin as [Hin _]. rewrite <- He. now apply in_map.
Qed.

Section range_facts.

Context {St : Type}.

Variable body : string -> any -> St -> outcome St.

(** The bodies of two distinct keys can be run in either order. *)
Hypothesis body_commutes : forall k1 v1 k2 v2 s,
  k1 <> k2 ->
  agree (s1 <~ body k1 v1 s ;; body k2 v2 s1)
        (s1 <~ body k2 v2 s ;; body k1 v1 s1).

Lemma range_map_perm (m1 m2 : list (string * any)) :
  Permutation m1 m2 -> NoDup (map fst m1) ->
  forall s, agree (range_map body m1 s) (range_map body m2 s).
Proof.
  induction 1 as [| [k v] l l' Hp IH | [k1 v1] [k2 v2] l | l l' l'' H1 IH1 H2 IH2];
    intros Hnd s.
  - apply agree_refl.
  - cbn [range_map]. apply agree_and_then; [apply agree_refl|].
    intros s1. apply IH. cbn [map] in Hnd. now inversion Hnd.
  - cbn [range_map].
    rewrite <- !and_then_assoc. apply agree_and_then.
    + apply (body_commutes k2 v2 k1 v1 s).
      cbn [map fst] in Hnd. inversion Hnd as [|? ? Hnin _]; subst.
      intros ->. apply Hnin. now left.
    + intros a. apply agree_refl.
  - eapply agree_trans; [now apply IH1|]. apply IH2.
    eapply Permutation_NoDup; [|exact Hnd]. now apply Permutation_map.
Qed.

Lemma range_map_ignored (m : list (string * any)) (s : St) :
  (forall k v, In (k, v) m -> forall s', body k v s' = Done s') ->
  range_map body m s = Done s.
Proof.
  induction m as [|[k v] m IH]; intros H; [reflexivity|].
  cbn [range_map]. rewrite (H k v (or_introl eq_refl)). cbn [and_then].
  apply IH. intros k' v' Hin. apply H. now right.
Qed.

(** The loop over a map is the loop over its bindings for the keys the
    body knows, in any fixed order. *)
Lemma range_map_known (known : list string) :
  NoDup known ->
  forall (m m0 : list (string * any)) (s : St),
    NoDup (map fst m) ->
    (forall k v, In (k, v) m -> ~ In k known ->
                 forall s', body k v s' = Done s') ->
    (forall k, In k known -> map_get k m = map_get k m0) ->
    agree (range_map body m s) (range_map body (entries_at known m0) s).
Proof.
  induction known as [|k ks IH]; intros Hks m m0 s Hnd Hign Hget.
  - cbn [entries_at range_map]. rewrite range_map_ignored; [apply agree_refl|].
    intros k v Hin. apply (Hign k v Hin). intros [].
  - inversion Hks as [|? ? Hk Hks']; subst. cbn [entries_at].
    rewrite <- (Hget k (or_introl eq_refl)).
    destruct (map_get k m) as [v|] eqn:Ek.
    + eapply agree_trans.
      * apply (range_map_perm _ _ (perm_front k v m Hnd Ek) Hnd).
      * cbn [range_map]. apply agree_and_then; [apply agree_refl|].
        intros s1. apply IH.
        -- exact Hks'.
        -- now apply NoDup_keys_filter.
        -- intros k' v' Hin Hnin. apply filter_In in Hin as [Hin Hne].
           cbn [fst] in Hne. apply (Hign k' v' Hin).
           intros [<-|Hin']; [|now apply Hnin].
           now rewrite String.eqb_refl in Hne.
        -- intros k' Hin'. rewrite map_get_filter.
           ++ apply Hget. now right.
           ++ intros ->. now apply Hk.
    + apply IH.
      * exact Hks'.
      * exact Hnd.
      * intros k' v' Hin Hnin. apply (Hign k' v' Hin).
        intros [<-|Hin']; [|now apply Hnin].
        apply (in_map fst) in Hin. now apply map_get_key_In in Hin.
      * intros k' Hin'. apply Hget. now right.
Qed.

End range_facts.

(** ** The constructors of package torrent *)

Lemma no_error_and_then {A B : Type} (m : outcome A) (k : A -> outcome B) :
  no_error m -> (forall a, no_error (k a)) -> no_error (and_then m k).
Proof. destruct m; cbn; auto. Qed.

Lemma assert_string_no_error (v : any) : no_error (assert_string v).
Proof. now destruct v. Qed.

Lemma assert_int_no_error (v : any) : no_error (assert_int v).
Proof. now destruct v. Qed.

Lemma assert_slice_no_error (v : any) : no_error (assert_slice v).
Proof. now destruct v. Qed.

Lemma assert_map_no_error (v : any) : no_error (assert_map v).
Proof. now destruct v. Qed.

Lemma range_map_no_error {St : Type} (body : string -> any -> St -> outcome St)
  (m : list (string * any)) :
  (forall k v s, no_error (body k v s)) ->
  forall s, no_error (range_map body m s).
Proof.
  intros Hb. induction m as [|[k v] m IH]; intros s; cbn [range_map].
  - exact I.
  - apply no_error_and_then; auto.
Qed.

Lemma appendPaths_no_error (paths : list any) (acc : list string) :
  no_error (appendPaths paths acc).
Proof.
  revert acc. induction paths as [|p paths IH]; intros acc; cbn [appendPaths].
  - exact I.
  - apply no_error_and_then; [apply assert_string_no_error | auto].
Qed.

Lemma newFile_case_no_error (k : string) (v : any) (f : File) :
  no_error (newFile_case k v f).
Proof.
  unfold newFile_case.
  destruct (String.eqb k "length").
  { apply no_error_and_then; [apply assert_int_no_error | now intros]. }
  destruct (String.eqb k "path"); [|exact I].
  apply no_error_and_then; [apply assert_slice_no_error|]. intros l.
  apply no_error_and_then; [apply appendPaths_no_error | now intros].
Qed.

Lemma newFile_no_error (m : list (string * any)) : no_error (newFile m).
Proof. apply range_map_no_error, newFile_case_no_error. Qed.

Lemma appendFiles_no_error (files : list any) (acc : list File) :
  no_error (appendFiles files acc).
Proof.
  revert acc. induction files as [|f files IH]; intros acc; cbn [appendFiles].
  - exact I.
  - apply no_error_and_then; [apply assert_map_no_error|]. intros m.
    apply no_error_and_then; [apply newFile_no_error | auto].
Qed.

(** *** The split of the pieces *)

Lemma concat_cons (h : string) (t : list string) :
  String.concat "" (h :: t) = h ++ String.concat "" t.
Proof.
  destruct t; cbn [String.concat]; [now rewrite str_app_nil_r | reflexivity].
Qed.

Lemma take_drop (n : nat) (s : string) : take n s ++ drop n s = s.
Proof.
  revert s. induction n as [|n IH]; intros [|c s]; cbn [take drop append];
    try reflexivity. now rewrite IH.
Qed.

Lemma take_take_drop (a b : nat) (s : string) :
  take a s ++ take b (drop a s) = take (a + b) s.
Proof.
  revert s. induction a as [|a IH]; intros s; [reflexivity|].
  destruct s as [|c s]; cbn [take drop append plus].
  - now destruct b.
  - now rewrite IH.
Qed.

Lemma chunks_length (n : nat) (s : string) : List.length (chunks n s) = n.
Proof.
  revert s. induction n as [|n IH]; intros s; cbn [chunks List.length];
    [reflexivity | now rewrite IH].
Qed.

Lemma chunks_snoc (n : nat) (s : string) :
  chunks (S n) s = (chunks n s ++ [take 20 (drop (20 * n) s)])%list.
Proof.
  revert s. induction n as [|n IH]; intros s.
  - reflexivity.
  - change (chunks (S (S n)) s) with (take 20 s :: chunks (S n) (drop 20 s)).
    rewrite IH. cbn [chunks app]. rewrite drop_drop.
    now replace (20 * n + 20)%nat with (20 * S n)%nat by lia.
Qed.

Lemma chunks_concat (n : nat) (s : string) :
  String.concat "" (chunks n s) = take (20 * n) s.
Proof.
  revert s. induction n as [|n IH]; intros s.
  - reflexivity.
  - cbn [chunks]. rewrite concat_cons, IH, take_take_drop. f_equal. lia.
Qed.

Lemma chunks_sizes (n : nat) (s : string) :
  (20 * n <= length s)%nat -> Forall (fun p => length p = 20%nat) (chunks n s).
Proof.
  revert s. induction n as [|n IH]; intros s Hlen; cbn [chunks];
    constructor.
  - apply length_take. lia.
  - apply IH. rewrite length_drop. lia.
Qed.

Lemma take_all (n : nat) (s : string) : (length s <= n)%nat -> take n s = s.
Proof.
  revert s. induction n as [|n IH]; intros [|c s] H; cbn [take length] in *;
    try reflexivity; try lia. f_equal. apply IH. lia.
Qed.

Lemma list_set_middle {A : Type} (l1 : list A) (y x : A) (l2 : list A) :
  list_set (List.length l1) x (l1 ++ y :: l2) = (l1 ++ x :: l2)%list.
Proof.
  induction l1 as [|a l1 IH]; [reflexivity|].
  cbn [List.length app list_set]. now rewrite IH.
Qed.

(** The loop from offset [20 * j], with the first [j] pieces copied. *)
Lemma copyPieces_from (s : string) (k : nat) :
  forall j fuel,
    (j + k = length s / 20)%nat -> (k < fuel)%nat ->
    copyPieces fuel (20 * j) s (chunks j s ++ repeat zero20 k)
    = if (length s mod 20 =? 0)%nat
      then Done (chunks (length s / 20) s)
      else Crashed "runtime error: index out of range".
Proof.
  pose proof (Nat.div_mod_eq (length s) 20) as Hdm.
  pose proof (Nat.mod_upper_bound (length s) 20) as Hub.
  induction k as [|k IH]; intros j fuel Hj Hfuel;
    (destruct fuel as [|fuel]; [lia|]); cbn [copyPieces].
  - cbn [repeat]. rewrite app_nil_r, chunks_length.
    replace (20 * j / 20)%nat with j
      by (rewrite Nat.mul_comm; symmetry; apply Nat.div_mul; lia).
    rewrite Nat.ltb_irrefl.
    destruct (Nat.eqb_spec (length s mod 20) 0) as [Hz|Hz].
    + destruct (Nat.ltb_spec (20 * j) (length s)); [lia|].
      rewrite <- Hj. now rewrite Nat.add_0_r.
    + destruct (Nat.ltb_spec (20 * j) (length s)); [reflexivity | lia].
  - destruct (Nat.ltb_spec (20 * j) (length s)); [|lia].
    replace (20 * j / 20)%nat with j
      by (rewrite Nat.mul_comm; symmetry; apply Nat.div_mul; lia).
    rewrite length_app, chunks_length, repeat_length.
    destruct (Nat.ltb_spec j (j + S k)); [|lia].
    destruct (Nat.leb_spec (20 * j + 20) (length s)); [|lia].
    cbn [repeat].
    rewrite <- (chunks_length j s) at 2. rewrite list_set_middle.
    replace (20 * j + 20)%nat with (20 * S j)%nat by lia.
    replace (chunks j s ++ take 20 (drop (20 * j) s) :: repeat zero20 k)%list
      with (chunks (S j) s ++ repeat zero20 k)%list
      by (rewrite chunks_snoc, <- app_assoc; reflexivity).
    apply IH; lia.
Qed.

Lemma splitPieces_spec (s : string) :
  splitPieces s
  = if (length s mod 20 =? 0)%nat
    then Done (chunks (length s / 20) s)
    else Crashed "runtime error: index out of range".
Proof.
  unfold splitPieces.
  pose proof (copyPieces_from s (length s / 20) 0 (S (length s))) as H.
  change (20 * 0)%nat with 0%nat in H. cbn [chunks app] in H.
  apply H; [lia|].
  pose proof (Nat.div_mod_eq (length s) 20). lia.
Qed.

Lemma splitPieces_no_error (s : string) : no_error (splitPieces s).
Proof. rewrite splitPieces_spec. now destruct (_ =? _)%nat. Qed.

(** *** The bodies of the loops commute *)

Ltac split_keys :=
  repeat match goal with
         | |- context [String.eqb ?a ?b] =>
             destruct (String.eqb_spec a b); subst; try congruence
         end.

Ltac run_step :=
  cbn [and_then agree no_error assert_string assert_int assert_slice
         assert_map File_Length File_Path Info_Name Info_PieceLength
         Info_Pieces Info_Length Info_Files Torrent_InfoHash Torrent_Info
         Torrent_Announce].

Ltac run_call c lemma :=
  match goal with
  | E : c = _ |- _ => rewrite E
  | _ =>
      let H := fresh in
      let E := fresh "E" in
      pose proof lemma as H;
      destruct c eqn:E; cbn [no_error] in H; try contradiction; clear H
  end; run_step.

Ltac run_calls :=
  repeat match goal with
         | |- context [splitPieces ?s] =>
             run_call (splitPieces s) (splitPieces_no_error s)
         | |- context [appendPaths ?l ?acc] =>
             run_call (appendPaths l acc) (appendPaths_no_error l acc)
         | |- context [appendFiles ?l ?acc] =>
             run_call (appendFiles l acc) (appendFiles_no_error l acc)
         end.

Lemma newFile_case_commutes (k1 : string) (v1 : any) (k2 : string) (v2 : any)
  (f : File) :
  k1 <> k2 ->
  agree (s1 <~ newFile_case k1 v1 f ;; newFile_case k2 v2 s1)
        (s1 <~ newFile_case k2 v2 f ;; newFile_case k1 v1 s1).
Proof.
  intros Hne. unfold newFile_case. split_keys; destruct v1, v2; run_step;
    run_calls; auto.
Qed.

Lemma newInfo_case_no_error (k : string) (v : any) (info : Info) :
  no_error (newInfo_case k v info).
Proof.
  unfold newInfo_case. split_keys; destruct v; run_step; run_calls; auto.
Qed.

Lemma newInfo_no_error (m : list (string * any)) : no_error (newInfo m).
Proof. apply range_map_no_error, newInfo_case_no_error. Qed.

Lemma newInfo_case_commutes (k1 : string) (v1 : any) (k2 : string) (v2 : any)
  (info : Info) :
  k1 <> k2 ->
  agree (s1 <~ newInfo_case k1 v1 info ;; newInfo_case k2 v2 s1)
        (s1 <~ newInfo_case k2 v2 info ;; newInfo_case k1 v1 s1).
Proof.
  intros Hne. unfold newInfo_case. split_keys; destruct v1, v2; run_step;
    run_calls; auto.
Qed.

Lemma NewTorrentFromBencode_case_commutes (k1 : string) (v1 : any)
  (k2 : string) (v2 : any) (t : Torrent) :
  k1 <> k2 ->
  agree (s1 <~ NewTorrentFromBencode_case k1 v1 t ;;
         NewTorrentFromBencode_case k2 v2 s1)
        (s1 <~ NewTorrentFromBencode_case k2 v2 t ;;
         NewTorrentFromBencode_case k1 v1 s1).
Proof.
  intros Hne. unfold NewTorrentFromBencode_case. split_keys;
    destruct v1, v2; run_step;
    repeat match goal with
           | |- context [newInfo ?m] =>
               run_call (newInfo m) (newInfo_no_error m)
           end; auto.
Qed.

(** ** The bytes of the info hash *)

Lemma marshallableFile_loop_spec (Path : list string) (n : Z) (l : list any) :
  marshallableFile_loop Path [("length", VInt n); ("path", VList l)]
  = Done [("length", VInt n); ("path", VList (l ++ map VString Path))].
Proof.
  revert l. induction Path as [|p Path IH]; intros l; cbn [marshallableFile_loop].
  - cbn [map]. now rewrite app_nil_r.
  - change (map_index [("length", VInt n); ("path", VList l)] "path")
      with (VList l).
    cbn [assert_slice and_then].
    change (map_set "path" (VList (l ++ [VString p]))
              [("length", VInt n); ("path", VList l)])
      with [("length", VInt n); ("path", VList (l ++ [VString p]))].
    rewrite IH. cbn [map]. now rewrite <- app_assoc.
Qed.

Lemma marshallableFile_spec (f : File) :
  marshallableFile f
  = Done [("length", VInt (File_Length f));
          ("path", VList (map VString (File_Path f)))].
Proof. unfold marshallableFile. now rewrite marshallableFile_loop_spec. Qed.

Lemma marshallableInfo_pieces_spec (Pieces : list string) (a b : any) :
  marshallableInfo_pieces Pieces
    [("name", a); ("piece length", b); ("pieces", VOther "[]uint8")]
  = Done [("name", a); ("piece length", b); ("pieces", VOther "[]uint8")].
Proof.
  induction Pieces as [|p Pieces IH]; cbn [marshallableInfo_pieces];
    [reflexivity|].
  change (map_index
            [("name", a); ("piece length", b); ("pieces", VOther "[]uint8")]
            "pieces") with (VOther "[]uint8").
  change (assert_bytes (VOther "[]uint8")) with (Done tt).
  cbn [and_then]. exact IH.
Qed.

Lemma marshallableInfo_files_spec (Files : list File) (a b c : any)
  (l : list any) :
  marshallableInfo_files Files
    [("name", a); ("piece length", b); ("pieces", c); ("files", VList l)]
  = Done [("name", a); ("piece length", b); ("pieces", c);
          ("files", VList (l ++ map file_value Files))].
Proof.
  revert l. induction Files as [|f Files IH]; intros l;
    cbn [marshallableInfo_files].
  - cbn [map]. now rewrite app_nil_r.
  - change (map_index
              [("name", a); ("piece length", b); ("pieces", c);
               ("files", VList l)] "files") with (VList l).
    cbn [assert_slice and_then]. rewrite marshallableFile_spec.
    cbn [and_then].
    match goal with
    | |- marshallableInfo_files _ (map_set "files" ?v _) = _ =>
        change (map_set "files" v
                  [("name", a); ("piece length", b); ("pieces", c);
                   ("files", VList l)])
          with [("name", a); ("piece length", b); ("pieces", c); ("files", v)]
    end.
    rewrite IH. cbn [map]. rewrite <- app_assoc. reflexivity.
Qed.

Lemma marshallableInfo_spec (info : Info) :
  marshallableInfo info
  = Done [("name", VString (Info_Name info));
          ("piece length", VInt (Info_PieceLength info));
          ("pieces", VOther "[]uint8");
          info_first info].
Proof.
  unfold marshallableInfo, info_first.
  rewrite marshallableInfo_pieces_spec. cbn [and_then].
  destruct (Info_Files info) as [|f fs].
  - reflexivity.
  - change (0 <? List.length (f :: fs))%nat with true. cbv iota.
    match goal with
    | |- marshallableInfo_files _ (map_set "files" ?v ?m) = _ =>
        change (map_set "files" v m)
          with [("name", VString (Info_Name info));
                ("piece length", VInt (Info_PieceLength info));
                ("pieces", VOther "[]uint8"); ("files", v)]
    end.
    now rewrite marshallableInfo_files_spec.
Qed.

Lemma info_first_key (info : Info) :
  fst (info_first info) = "length" \/ fst (info_first info) = "files".
Proof. unfold info_first. destruct (Info_Files info); auto. Qed.

Lemma info_first_not_other (info : Info) :
  is_other (snd (info_first info)) = false.
Proof. unfold info_first. now destruct (Info_Files info). Qed.

Lemma Marshal_marshallableInfo (info : Info) :
  Marshal (VDict [("name", VString (Info_Name info));
                  ("piece length", VInt (Info_PieceLength info));
                  ("pieces", VOther "[]uint8");
                  info_first info])
  = Ok (info_bytes info).
Proof.
  unfold Marshal, info_bytes. cbn [marshalValue]. f_equal.
  unfold marshalDict. cbn [map fst].
  pose proof (info_first_not_other info) as Hno.
  destruct (info_first info) as [k v] eqn:E. cbn [fst snd] in *.
  assert (Hsort : sort_strings ["name"; "piece length"; "pieces"; k]
                  = [k; "name"; "piece length"; "pieces"]).
  { pose proof (info_first_key info) as Hk. rewrite E in Hk. cbn [fst] in Hk.
    destruct Hk as [-> | ->]; reflexivity. }
  assert (Hk : String.eqb "name" k = false /\ String.eqb "piece length" k = false
               /\ String.eqb "pieces" k = false).
  { pose proof (info_first_key info) as Hk. rewrite E in Hk. cbn [fst] in Hk.
    destruct Hk as [-> | ->]; repeat split; reflexivity. }
  destruct Hk as (H1 & H2 & H3).
  rewrite Hsort.
  set (M := [("name", VString (Info_Name info));
             ("piece length", VInt (Info_PieceLength info));
             ("pieces", VOther "[]uint8"); (k, v)]).
  assert (Gk : map_get k M = Some v).
  { unfold M. cbn [map_get]. now rewrite H1, H2, H3, String.eqb_refl. }
  assert (Gn : map_get "name" M = Some (VString (Info_Name info)))
    by reflexivity.
  assert (Gl : map_get "piece length" M
               = Some (VInt (Info_PieceLength info))) by reflexivity.
  assert (Gp : map_get "pieces" M = Some (VOther "[]uint8")) by reflexivity.
  cbn [marshalDict_loop].
  rewrite marshalValue_at_get, Gk, (marshalValue_ok v _ Hno). cbv iota beta.
  rewrite marshalValue_at_get, Gn,
    (marshalValue_ok (VString (Info_Name info)) _ eq_refl).
  cbv iota beta.
  rewrite marshalValue_at_get, Gl,
    (marshalValue_ok (VInt (Info_PieceLength info)) _ eq_refl).
  cbv iota beta.
  rewrite marshalValue_at_get, Gp. cbn [marshalValue].
  unfold WriteRune. cbn [enc_entries]. unfold enc_entry. cbn [fst snd].
  rewrite !(marshalString_app _ (_ ++ _)).
  rewrite !(marshalString_app _ "").
  cbn [append]. rewrite !str_app_assoc, ?str_app_nil_r. reflexivity.
Qed.

Lemma updateInfoHash_spec (sha1_Sum : string -> string) (t : Torrent) :
  updateInfoHash sha1_Sum t
  = Done (mkTorrent (sha1_Sum (info_bytes (Torrent_Info t))) (Torrent_Info t)
            (Torrent_Announce t)).
Proof.
  unfold updateInfoHash. rewrite marshallableInfo_spec. cbn [and_then].
  now rewrite Marshal_marshallableInfo.
Qed.

(** ** A dictionary cut after a key *)

Lemma Unmarshal_key_without_value (es : list (string * any)) (k : string) :
  forallb (fun e => len_ok (fst e) && valid (snd e) && supported (snd e)) es
  = true ->
  len_ok k = true ->
  Unmarshal (String "d" (enc_entries es ++ marshalString k "")) = Err EOF.
Proof.
  intros Hes Hk. rewrite forallb_forall in Hes.
  assert (Hall : forall e, In e es ->
            len_ok (fst e) = true /\ valid (snd e) = true
            /\ supported (snd e) = true).
  { intros e He. specialize (Hes e He).
    apply andb_true_iff in Hes as [Hes Hs].
    apply andb_true_iff in Hes as [Hk' Hv]. auto. }
  assert (Hno : Forall (fun e => is_other (snd e) = false) es).
  { apply Forall_forall. intros e He.
    now apply supported_not_other, (Hall e He). }
  unfold Unmarshal, fuel_for.
  set (data := String "d" (enc_entries es ++ marshalString k "")).
  replace (2 * length data + 4)%nat with (S (2 * length data + 3)) by lia.
  cbn [unmarshalValue].
  rewrite (readByte_cons (NewReader data) "d" _ eq_refl).
  cbn [bind]. change (Ascii.eqb "d" "i") with false.
  change (Ascii.eqb "d" "l") with false.
  change (Ascii.eqb "d" "d") with true. cbv iota.
  destruct (unmarshalDict_entries es) with (fuel := (2 * length data + 3)%nat)
    (r := advance 1 (NewReader data)) (acc := @nil (string * any))
    (tl := marshalString k "")
    as (es' & _ & Hloop).
  { apply Forall_forall. intros e He. destruct (Hall e He) as (Hk' & Hv & Hs).
    repeat split; [exact Hk' | now apply supported_not_other|].
    now apply decodes_back_all. }
  { reflexivity. }
  { unfold data. cbn [length]. rewrite str_length_app. lia. }
  rewrite Hloop. pose proof (enc_entries_length es Hno) as Hn.
  pose proof (marshalString_length k) as Hlen.
  assert (Hdata : length data
                  = S (length (enc_entries es) + length (marshalString k ""))).
  { unfold data. cbn [length]. now rewrite str_length_app. }
  set (r := advance (length (enc_entries es)) (advance 1 (NewReader data))).
  assert (Hr : remaining r = marshalString k "").
  { unfold r. rewrite remaining_advance.
    change (remaining (advance 1 (NewReader data)))
      with (enc_entries es ++ marshalString k "").
    apply drop_length_app. }
  destruct (2 * length data + 3 - List.length es)%nat as [|g] eqn:Eg; [lia|].
  cbn [unmarshalDict].
  destruct (marshalString_head k) as (c & t & Hc & Hd).
  rewrite (readByte_cons r c t) by now rewrite Hr.
  cbn [bind].
  assert (Hce : Ascii.eqb c "e" = false).
  { destruct (Ascii.eqb_spec c "e") as [->|]; [discriminate | reflexivity]. }
  rewrite Hce, unreadByte_advance. cbn [bind].
  rewrite (unmarshalString_spec k g r "" Hk);
    [| now rewrite str_app_nil_r | lia].
  cbn [bind].
  destruct g as [|g']; [lia|]. cbn [unmarshalValue].
  rewrite readByte_nil; [reflexivity|].
  rewrite remaining_advance, Hr.
  rewrite <- (str_app_nil_r (marshalString k "")) at 2.
  apply drop_length_app.
Qed.

(** ** The loop of [NewTorrentFromBencode] and its lookups *)

Lemma newFile_lookup (m : list (string * any)) :
  NoDup (map fst m) ->
  agree (newFile m)
        (range_map newFile_case (entries_at ["length"; "path"] m)
           (mkFile 0 [])).
Proof.
  intros Hnd. unfold newFile.
  apply (range_map_known newFile_case newFile_case_commutes);
    [repeat constructor; cbn; intuition discriminate | exact Hnd | | auto].
  intros k v _ Hk s'. unfold newFile_case.
  destruct (String.eqb_spec k "length") as [->|];
    [exfalso; apply Hk; cbn; auto|].
  destruct (String.eqb_spec k "path") as [->|];
    [exfalso; apply Hk; cbn; auto|]. reflexivity.
Qed.

Lemma newInfo_lookup (m : list (string * any)) :
  NoDup (map fst m) ->
  agree (newInfo m)
        (range_map newInfo_case
           (entries_at ["name"; "piece length"; "pieces"; "length"; "files"] m)
           (mkInfo "" 0 [] 0 [])).
Proof.
  intros Hnd. unfold newInfo.
  apply (range_map_known newInfo_case newInfo_case_commutes);
    [repeat constructor; cbn; intuition discriminate | exact Hnd | | auto].
  intros k v _ Hk s'. unfold newInfo_case.
  repeat match goal with
         | |- context [String.eqb k ?x] =>
             destruct (String.eqb_spec k x) as [->|];
             [exfalso; apply Hk; cbn; auto 10|]
         end.
  reflexivity.
Qed.

Lemma NewTorrentFromBencode_lookup (m : list (string * any)) (t : Torrent) :
  NoDup (map fst m) ->
  agree (range_map NewTorrentFromBencode_case m t)
        (range_map NewTorrentFromBencode_case
           (entries_at ["info"; "announce"] m) t).
Proof.
  intros Hnd.
  apply (range_map_known NewTorrentFromBencode_case
           NewTorrentFromBencode_case_commutes);
    [repeat constructor; cbn; intuition discriminate | exact Hnd | | auto].
  intros k v _ Hk s'. unfold NewTorrentFromBencode_case.
  repeat match goal with
         | |- context [String.eqb k ?x] =>
             destruct (String.eqb_spec k x) as [->|];
             [exfalso; apply Hk; cbn; auto 10|]
         end.
  reflexivity.
Qed.

Lemma well_formed_dict_inv (m : list (string * any)) :
  well_formed (VDict m) ->
  NoDup (map fst m)
  /\ forall k v, map_get k m = Some v -> well_formed v.
Proof.
  intros [Hv Hs]. destruct (valid_dict_inv m Hv) as [Hnd Hval].
  split; [exact Hnd|]. intros k v Hget. split; [now apply (Hval k)|].
  cbn [supported] in Hs. rewrite forallb_forall in Hs.
  apply (Hs (k, v)). now apply map_get_In.
Qed.

(** ** When the constructors panic, and what they return *)

Lemma range_map_crash {St : Type} (body : string -> any -> St -> outcome St)
  (m : list (string * any)) (k : string) (v : any) :
  (forall k v s, no_error (body k v s)) ->
  In (k, v) m ->
  (forall s, exists msg, body k v s = Crashed msg) ->
  forall s, exists msg, range_map body m s = Crashed msg.
Proof.
  intros Hne Hin Hcrash. induction m as [|[k0 v0] m IH]; intros s; [easy|].
  cbn [range_map]. destruct Hin as [Heq|Hin].
  - inversion Heq; subst. destruct (Hcrash s) as [msg ->]. now exists msg.
  - pose proof (Hne k0 v0 s) as H0.
    destruct (body k0 v0 s) as [s1| |msg|]; cbn [and_then no_error] in *;
      try contradiction; [now apply IH | now exists msg].
Qed.

Lemma existsb_false_In {A : Type} (f : A -> bool) (l : list A) (x : A) :
  existsb f l = false -> In x l -> f x = false.
Proof.
  intros H Hin. destruct (f x) eqn:E; [|reflexivity].
  rewrite <- H. symmetry. apply existsb_exists. eauto.
Qed.

Lemma appendPaths_ok (l : list any) (acc : list string) :
  forallb is_string l = true ->
  appendPaths l acc = Done (acc ++ strings_in l)%list.
Proof.
  revert acc. induction l as [|v l IH]; intros acc H; cbn [appendPaths].
  - cbn. now rewrite app_nil_r.
  - cbn [forallb] in H. apply andb_true_iff in H as [Hv Hl].
    destruct v; try discriminate. cbn [assert_string and_then].
    rewrite (IH _ Hl). unfold strings_in. cbn [flat_map].
    now rewrite <- app_assoc.
Qed.

Lemma appendPaths_crash (l : list any) (acc : list string) :
  forallb is_string l = false ->
  exists msg, appendPaths l acc = Crashed msg.
Proof.
  revert acc. induction l as [|v l IH]; intros acc H; [discriminate|].
  cbn [appendPaths]. cbn [forallb] in H.
  destruct v; cbn [assert_string and_then]; eauto.
Qed.

Lemma newFile_case_length (v : any) (f : File) :
  newFile_case "length" v f
  = (n <~ assert_int v ;; Done (mkFile n (File_Path f))).
Proof. reflexivity. Qed.

Lemma newFile_case_path (v : any) (f : File) :
  newFile_case "path" v f
  = (paths <~ assert_slice v ;;
     Path <~ appendPaths paths (File_Path f) ;;
     Done (mkFile (File_Length f) Path)).
Proof. reflexivity. Qed.

Lemma newFile_case_panics (k : string) (v : any) (f : File) :
  file_binding_panics k v = true ->
  exists msg, newFile_case k v f = Crashed msg.
Proof.
  unfold file_binding_panics, newFile_case.
  destruct (String.eqb k "length").
  { destruct v; cbn; try discriminate; eauto. }
  destruct (String.eqb k "path"); [|discriminate].
  destruct v as [| |l| |]; cbn [assert_slice and_then]; eauto.
  intros H. apply negb_true_iff in H.
  destruct (appendPaths_crash l (File_Path f) H) as [msg ->]. cbn. eauto.
Qed.

Lemma newFile_crash (m : list (string * any)) :
  file_panics (VDict m) = true -> exists msg, newFile m = Crashed msg.
Proof.
  cbn [file_panics]. intros H. apply existsb_exists in H as ([k v] & Hin & Hp).
  apply (range_map_crash newFile_case m k v newFile_case_no_error Hin).
  intros s. now apply newFile_case_panics.
Qed.

Lemma newFile_ok (m : list (string * any)) :
  NoDup (map fst m) -> file_panics (VDict m) = false ->
  newFile m = Done (file_of (VDict m)).
Proof.
  intros Hnd Hp. cbn [file_panics] in Hp. apply agree_Done.
  eapply agree_trans; [apply (newFile_lookup m Hnd)|].
  cbn [entries_at file_of]. unfold int_at.
  destruct (map_get "length" m) as [vl|] eqn:El;
    destruct (map_get "path" m) as [vp|] eqn:Ep;
    repeat match goal with
           | E : map_get ?k m = Some ?v |- _ =>
               let H := fresh in
               pose proof (existsb_false_In _ _ _ Hp (map_get_In _ _ _ E))
                 as H;
               cbn [fst snd] in H; unfold file_binding_panics in H;
               cbn in H; apply map_get_In in E
           end;
    try (destruct vl; try discriminate);
    try (destruct vp as [| |l| |]; try discriminate);
    cbn [range_map]; rewrite ?newFile_case_length, ?newFile_case_path;
    cbn [assert_int assert_slice and_then File_Path File_Length];
    rewrite ?newFile_case_path;
    cbn [assert_int assert_slice and_then File_Path File_Length];
    try (rewrite appendPaths_ok
           by (match goal with
               | H : negb _ = false |- _ =>
                   now apply negb_false_iff in H
               end));
    cbn [and_then app agree]; reflexivity.
Qed.

Lemma appendFiles_crash (l : list any) (acc : list File) :
  existsb file_panics l = true ->
  exists msg, appendFiles l acc = Crashed msg.
Proof.
  revert acc. induction l as [|v l IH]; intros acc H; [discriminate|].
  cbn [appendFiles]. cbn [existsb] in H.
  destruct (file_panics v) eqn:Ev.
  - destruct v as [| | |m|]; cbn [assert_map and_then]; eauto.
    destruct (newFile_crash m Ev) as [msg ->]. cbn. eauto.
  - cbn [orb] in H. destruct v as [| | |m|]; try discriminate.
    cbn [assert_map and_then]. pose proof (newFile_no_error m) as Hne.
    destruct (newFile m); cbn [and_then no_error] in *; try contradiction;
      eauto.
Qed.

Lemma appendFiles_ok (l : list any) (acc : list File) :
  forallb valid l = true -> existsb file_panics l = false ->
  appendFiles l acc = Done (acc ++ map file_of l)%list.
Proof.
  revert acc. induction l as [|v l IH]; intros acc Hv Hp; cbn [appendFiles].
  - cbn. now rewrite app_nil_r.
  - cbn [forallb] in Hv. apply andb_true_iff in Hv as [Hv Hl].
    cbn [existsb] in Hp. apply orb_false_iff in Hp as [Hp Hpl].
    destruct v as [| | |m|]; try discriminate.
    cbn [assert_map and_then].
    rewrite (newFile_ok m); [|now apply valid_dict_inv | exact Hp].
    cbn [and_then]. rewrite (IH _ Hl Hpl). cbn [map].
    now rewrite <- app_assoc.
Qed.

Lemma newInfo_case_name (v : any) (info : Info) :
  newInfo_case "name" v info
  = (s <~ assert_string v ;;
     Done (mkInfo s (Info_PieceLength info) (Info_Pieces info)
             (Info_Length info) (Info_Files info))).
Proof. reflexivity. Qed.

Lemma newInfo_case_piece_length (v : any) (info : Info) :
  newInfo_case "piece length" v info
  = (n <~ assert_int v ;;
     Done (mkInfo (Info_Name info) n (Info_Pieces info)
             (Info_Length info) (Info_Files info))).
Proof. reflexivity. Qed.

Lemma newInfo_case_pieces (v : any) (info : Info) :
  newInfo_case "pieces" v info
  = (piecesStr <~ assert_string v ;;
     Pieces <~ splitPieces piecesStr ;;
     Done (mkInfo (Info_Name info) (Info_PieceLength info) Pieces
             (Info_Length info) (Info_Files info))).
Proof. reflexivity. Qed.

Lemma newInfo_case_length (v : any) (info : Info) :
  newInfo_case "length" v info
  = (n <~ assert_int v ;;
     Done (mkInfo (Info_Name info) (Info_PieceLength info) (Info_Pieces info)
             n (Info_Files info))).
Proof. reflexivity. Qed.

Lemma newInfo_case_files (v : any) (info : Info) :
  newInfo_case "files" v info
  = (files <~ assert_slice v ;;
     Files <~ appendFiles files (Info_Files info) ;;
     Done (mkInfo (Info_Name info) (Info_PieceLength info) (Info_Pieces info)
             (Info_Length info) Files)).
Proof. reflexivity. Qed.

Lemma newInfo_case_panics (k : string) (v : any) (info : Info) :
  info_binding_panics k v = true ->
  exists msg, newInfo_case k v info = Crashed msg.
Proof.
  unfold info_binding_panics, newInfo_case.
  destruct (String.eqb k "name").
  { destruct v; cbn; try discriminate; eauto. }
  destruct (String.eqb k "piece length").
  { destruct v; cbn; try discriminate; eauto. }
  destruct (String.eqb k "pieces").
  { destruct v as [|s| | |]; cbn [assert_string and_then]; eauto.
    intros H. apply negb_true_iff in H. rewrite splitPieces_spec, H.
    cbn. eauto. }
  destruct (String.eqb k "length").
  { destruct v; cbn; try discriminate; eauto. }
  destruct (String.eqb k "files"); [|discriminate].
  destruct v as [| |l| |]; cbn [assert_slice and_then]; eauto.
  intros H. destruct (appendFiles_crash l (Info_Files info) H) as [msg ->].
  cbn. eauto.
Qed.

Lemma newInfo_crash (m : list (string * any)) :
  info_panics (VDict m) = true -> exists msg, newInfo m = Crashed msg.
Proof.
  cbn [info_panics]. intros H. apply existsb_exists in H as ([k v] & Hin & Hp).
  apply (range_map_crash newInfo_case m k v newInfo_case_no_error Hin).
  intros s. now apply newInfo_case_panics.
Qed.

Ltac binding_facts Hp Hv m :=
  repeat match goal with
         | E : map_get ?k m = Some ?v |- _ =>
             let H := fresh "Hb" in
             let H' := fresh "Hw" in
             pose proof (existsb_false_In _ _ _ Hp (map_get_In _ _ _ E)) as H;
             pose proof (Hv _ _ E) as H';
             cbv [info_binding_panics torrent_binding_panics String.eqb
                    Ascii.eqb Bool.eqb fst snd is_string is_int negb] in H;
             apply map_get_In in E
         end.

Lemma newInfo_ok (m : list (string * any)) :
  valid (VDict m) = true -> info_panics (VDict m) = false ->
  newInfo m = Done (info_of m).
Proof.
  intros Hval Hp. destruct (valid_dict_inv m Hval) as [Hnd Hv].
  cbn [info_panics] in Hp. apply agree_Done.
  eapply agree_trans; [apply (newInfo_lookup m Hnd)|].
  cbn [entries_at]. unfold info_of, string_at, int_at.
  destruct (map_get "name" m) as [vn|] eqn:En;
    destruct (map_get "piece length" m) as [vl|] eqn:El;
    destruct (map_get "pieces" m) as [vp|] eqn:Ep;
    destruct (map_get "length" m) as [vk|] eqn:Ek;
    destruct (map_get "files" m) as [vf|] eqn:Ef;
    binding_facts Hp Hv m;
    try (destruct vn; try discriminate);
    try (destruct vl; try discriminate);
    try (destruct vp as [|ps| | |]; try discriminate);
    try (destruct vk; try discriminate);
    try (destruct vf as [| |fl| |]; try discriminate);
    cbn [range_map];
    repeat (rewrite ?newInfo_case_name, ?newInfo_case_piece_length,
              ?newInfo_case_pieces, ?newInfo_case_length, ?newInfo_case_files;
            cbn [assert_int assert_string assert_slice and_then Info_Name
                   Info_PieceLength Info_Pieces Info_Length Info_Files];
            try (rewrite splitPieces_spec;
                 match goal with
                 | H : (if (_ =? 0)%nat then false else true) = false |- _ =>
                     let E := fresh in
                     destruct (_ =? 0)%nat eqn:E in H; [|discriminate H];
                     rewrite E
                 end);
            try (rewrite appendFiles_ok by assumption));
    cbn [and_then app agree]; reflexivity.
Qed.

Lemma NewTorrentFromBencode_case_info (v : any) (t : Torrent) :
  NewTorrentFromBencode_case "info" v t
  = (m <~ assert_map v ;;
     info <~ newInfo m ;;
     Done (mkTorrent (Torrent_InfoHash t) info (Torrent_Announce t))).
Proof. reflexivity. Qed.

Lemma NewTorrentFromBencode_case_announce (v : any) (t : Torrent) :
  NewTorrentFromBencode_case "announce" v t
  = (s <~ assert_string v ;;
     Done (mkTorrent (Torrent_InfoHash t) (Torrent_Info t) s)).
Proof. reflexivity. Qed.

Lemma NewTorrentFromBencode_case_no_error (k : string) (v : any) (t : Torrent) :
  no_error (NewTorrentFromBencode_case k v t).
Proof.
  unfold NewTorrentFromBencode_case.
  destruct (String.eqb k "info").
  { apply no_error_and_then; [apply assert_map_no_error|]. intros m.
    apply no_error_and_then; [apply newInfo_no_error | now intros]. }
  destruct (String.eqb k "announce"); [|exact I].
  apply no_error_and_then; [apply assert_string_no_error | now intros].
Qed.

Lemma NewTorrentFromBencode_case_panics (k : string) (v : any) (t : Torrent) :
  torrent_binding_panics k v = true ->
  exists msg, NewTorrentFromBencode_case k v t = Crashed msg.
Proof.
  unfold torrent_binding_panics, NewTorrentFromBencode_case.
  destruct (String.eqb k "info").
  { destruct v as [| | |m|]; cbn [assert_map and_then]; eauto.
    intros H. destruct (newInfo_crash m H) as [msg ->]. cbn. eauto. }
  destruct (String.eqb k "announce"); [|discriminate].
  destruct v; cbn; try discriminate; eauto.
Qed.

Lemma NewTorrentFromBencode_loop_crash (m : list (string * any)) (t : Torrent) :
  metainfo_panics (VDict m) = true ->
  exists msg, range_map NewTorrentFromBencode_case m t = Crashed msg.
Proof.
  cbn [metainfo_panics]. intros H.
  apply existsb_exists in H as ([k v] & Hin & Hp).
  apply (range_map_crash NewTorrentFromBencode_case m k v
           NewTorrentFromBencode_case_no_error Hin).
  intros s. now apply NewTorrentFromBencode_case_panics.
Qed.

Lemma NewTorrentFromBencode_loop_ok (m : list (string * any)) :
  valid (VDict m) = true -> metainfo_panics (VDict m) = false ->
  range_map NewTorrentFromBencode_case m
    (mkTorrent zero20 (mkInfo "" 0 [] 0 []) "")
  = Done (mkTorrent zero20
            match map_get "info" m with
            | Some (VDict im) => info_of im
            | _ => mkInfo "" 0 [] 0 []
            end
            (string_at "announce" m)).
Proof.
  intros Hval Hp. destruct (valid_dict_inv m Hval) as [Hnd Hv].
  cbn [metainfo_panics] in Hp. apply agree_Done.
  eapply agree_trans; [apply (NewTorrentFromBencode_lookup m _ Hnd)|].
  cbn [entries_at]. unfold string_at.
  destruct (map_get "info" m) as [vi|] eqn:Ei;
    destruct (map_get "announce" m) as [va|] eqn:Ea;
    binding_facts Hp Hv m;
    try (destruct vi as [| | |im|]; try discriminate);
    try (destruct va; try discriminate);
    cbn [range_map];
    repeat (rewrite ?NewTorrentFromBencode_case_info,
              ?NewTorrentFromBencode_case_announce;
            cbn [assert_map assert_string and_then Torrent_InfoHash
                   Torrent_Info Torrent_Announce];
            try (rewrite newInfo_ok by assumption));
    cbn [and_then agree]; reflexivity.
Qed.

Lemma NewTorrentFromBencode_ok (sha1_Sum : string -> string) (data : string)
  (m : list (string * any)) :
  Unmarshal data = Ok (VDict m) -> metainfo_panics (VDict m) = false ->
  NewTorrentFromBencode sha1_Sum data = Done (torrent_of sha1_Sum m).
Proof.
  intros Hu Hp. unfold NewTorrentFromBencode. rewrite Hu.
  cbn [call assert_map and_then].
  rewrite NewTorrentFromBencode_loop_ok;
    [| now apply (Unmarshal_well_formed data) | exact Hp].
  cbn [and_then]. now rewrite updateInfoHash_spec.
Qed.

Lemma NewTorrentFromBencode_crash (sha1_Sum : string -> string) (data : string)
  (v : any) :
  Unmarshal data = Ok v -> metainfo_panics v = true ->
  exists msg, NewTorrentFromBencode sha1_Sum data = Crashed msg.
Proof.
  intros Hu Hp. unfold NewTorrentFromBencode. rewrite Hu. cbn [call].
  destruct v as [| | |m|]; cbn [assert_map and_then]; eauto.
  destruct (NewTorrentFromBencode_loop_crash m
              (mkTorrent zero20 (mkInfo "" 0 [] 0 []) "") Hp) as [msg ->].
  cbn. eauto.
Qed.

(** ** The peers of a tracker response *)

Lemma byte_range (c : ascii) : 0 <= Z.of_nat (nat_of_ascii c) < 256.
Proof. pose proof (nat_ascii_bounded c). lia. Qed.

Lemma port_value (hi lo : Z) :
  0 <= hi < 256 -> 0 <= lo < 256 ->
  Z.lor (uint16 (Z.shiftl (uint16 hi) 8)) (uint16 lo) = 256 * hi + lo.
Proof.
  intros Hhi Hlo. unfold uint16.
  rewrite (Z.mod_small hi), (Z.mod_small lo) by lia.
  rewrite Z.shiftl_mul_pow2 by lia.
  rewrite Z.mod_small by lia.
  assert (Hland : Z.land (hi * 2 ^ 8) lo = 0).
  { apply Z.bits_inj'. intros n Hn. rewrite Z.land_spec, Z.bits_0.
    destruct (Z.lt_ge_cases n 8) as [Hlt|Hge].
    - now rewrite Z.mul_pow2_bits_low by lia.
    - assert (Hb : Z.testbit lo n = false).
      { destruct (Z.eq_dec lo 0) as [->|Hnz]; [apply Z.bits_0|].
        apply Z.bits_above_log2; [lia|].
        assert (Z.log2 lo < 8) by (apply Z.log2_lt_pow2; lia). lia. }
      rewrite Hb. apply andb_false_r. }
  rewrite <- Z.lxor_lor by exact Hland.
  rewrite <- Z.add_nocarry_lxor by exact Hland. lia.
Qed.

Lemma length_6_inv (r : string) :
  length r = 6%nat ->
  exists c0 c1 c2 c3 c4 c5,
    r = String c0 (String c1 (String c2 (String c3 (String c4
          (String c5 EmptyString))))).
Proof.
  intros H.
  do 6 (destruct r as [|? r]; [discriminate H|]; cbn [length] in H;
        apply Nat.succ_inj in H).
  destruct r; [|discriminate H]. repeat eexists.
Qed.

Lemma parsePeers_line_spec (peer : string) :
  length peer = 6%nat -> parsePeers_line peer = Done (peer_text peer).
Proof.
  intros H. destruct (length_6_inv peer H) as (c0 & c1 & c2 & c3 & c4 & c5 & ->).
  unfold parsePeers_line, peer_text, byte_at, byte_val.
  cbn [String.get and_then].
  rewrite port_value by apply byte_range. cbv zeta.
  now rewrite !str_app_assoc.
Qed.

Lemma parsePeers_loop_spec (records : list string) (tail : string) :
  Forall (fun r => length r = 6%nat) records ->
  forall (pre : string) (i : nat) (out : list string),
    length pre = (i * 6)%nat ->
    parsePeers_loop (List.length records) i
      (pre ++ String.concat "" records ++ tail) out
    = Done (out ++ map peer_text records)%list.
Proof.
  induction 1 as [|r records Hr Hrs IH]; intros pre i out Hpre.
  - cbn [List.length parsePeers_loop map]. now rewrite app_nil_r.
  - cbn [List.length parsePeers_loop]. rewrite concat_cons.
    set (peers := pre ++ (r ++ String.concat "" records) ++ tail).
    assert (Hslice : slice peers (i * 6) ((i + 1) * 6) = Done r).
    { unfold slice.
      assert (Hlen : ((i + 1) * 6 <= length peers)%nat).
      { unfold peers. rewrite !str_length_app. lia. }
      destruct (Nat.leb_spec (i * 6) ((i + 1) * 6)); [|lia].
      destruct (Nat.leb_spec ((i + 1) * 6) (length peers)); [|lia].
      cbn [andb]. f_equal.
      replace ((i + 1) * 6 - i * 6)%nat with (length r) by lia.
      unfold peers. rewrite <- Hpre, drop_length_app.
      rewrite !str_app_assoc. apply take_length_app. }
    rewrite Hslice. cbn [and_then].
    rewrite (parsePeers_line_spec r Hr). cbn [and_then].
    unfold peers.
    replace (pre ++ (r ++ String.concat "" records) ++ tail)
      with ((pre ++ r) ++ String.concat "" records ++ tail)
      by now rewrite !str_app_assoc.
    rewrite IH by (rewrite str_length_app; lia).
    cbn [map]. now rewrite <- app_assoc.
Qed.

Lemma concat_length_6 (records : list string) :
  Forall (fun r => length r = 6%nat) records ->
  length (String.concat "" records) = (6 * List.length records)%nat.
Proof.
  induction 1 as [|r records Hr _ IH]; [reflexivity|].
  rewrite concat_cons, str_length_app, IH, Hr. cbn [List.length]. lia.
Qed.

Lemma parsePeers_spec (records : list string) (tail : string) :
  Forall (fun r => length r = 6%nat) records -> (length tail < 6)%nat ->
  parsePeers (String.concat "" records ++ tail)
  = Done (map peer_text records).
Proof.
  intros Hrs Htail. unfold parsePeers.
  rewrite str_length_app, (concat_length_6 records Hrs).
  replace ((6 * List.length records + length tail) / 6)%nat
    with (List.length records).
  - apply (parsePeers_loop_spec records tail Hrs "" 0 []). reflexivity.
  - symmetry. rewrite Nat.mul_comm, Nat.div_add_l by lia.
    rewrite (Nat.div_small (length tail)) by lia. lia.
Qed.

(** ** Properties of package torrent *)

Lemma file_value_supported (f : File) : supported (file_value f) = true.
Proof.
  unfold file_value. cbn [supported forallb snd]. rewrite andb_true_r.
  induction (File_Path f) as [|p l IH]; [reflexivity | exact IH].
Qed.

Lemma info_first_supported (info : Info) :
  supported (snd (info_first info)) = true.
Proof.
  unfold info_first. destruct (Info_Files info) as [|f fs]; [reflexivity|].
  cbn [snd]. generalize (f :: fs). intros l. cbn [supported].
  induction l as [|x l IH]; [reflexivity|].
  cbn [map forallb]. now rewrite file_value_supported.
Qed.

Lemma info_bytes_fields (a b : Info) :
  Info_Name a = Info_Name b -> Info_PieceLength a = Info_PieceLength b ->
  Info_Length a = Info_Length b -> Info_Files a = Info_Files b ->
  info_bytes a = info_bytes b.
Proof.
  intros Hn Hp Hl Hf. unfold info_bytes, info_first.
  now rewrite Hn, Hp, Hl, Hf.
Qed.

Lemma NewTorrentFromBencode_hash (sha1_Sum : string -> string) (data : string)
  (t : Torrent) :
  NewTorrentFromBencode sha1_Sum data = Done t ->
  Torrent_InfoHash t = sha1_Sum (info_bytes (Torrent_Info t)).
Proof.
  unfold NewTorrentFromBencode. destruct (Unmarshal data) as [v| | |];
    cbn [call]; try discriminate.
  intros H. apply and_then_Done_inv in H as (m & _ & H).
  apply and_then_Done_inv in H as (t0 & _ & H).
  rewrite updateInfoHash_spec in H. inversion H. reflexivity.
Qed.

(** X11: the ["pieces"] case of [newInfo].  A string whose length is a
    multiple of 20 is cut into its consecutive blocks of 20 bytes, one per
    piece, and the other fields are left as they were; any other length
    makes the loop index past the slice it allocated, and panic. *)
Theorem X11_pieces_split (info : Info) (piecesStr : string) :
  ((length piecesStr mod 20)%nat = 0%nat ->
   exists Pieces,
     newInfo_case "pieces" (VString piecesStr) info
     = Done (mkInfo (Info_Name info) (Info_PieceLength info) Pieces
               (Info_Length info) (Info_Files info))
     /\ String.concat "" Pieces = piecesStr
     /\ List.length Pieces = (length piecesStr / 20)%nat
     /\ Forall (fun p => length p = 20%nat) Pieces)
  /\ ((length piecesStr mod 20)%nat <> 0%nat ->
      newInfo_case "pieces" (VString piecesStr) info
      = Crashed "runtime error: index out of range").
Proof.
  rewrite newInfo_case_pieces. cbn [assert_string and_then].
  rewrite splitPieces_spec.
  pose proof (Nat.div_mod_eq (length piecesStr) 20) as Hdm.
  split; intros H.
  - rewrite H. cbn [Nat.eqb and_then].
    exists (chunks (length piecesStr / 20) piecesStr).
    split; [reflexivity|]. split; [|split].
    + rewrite chunks_concat. apply take_all. lia.
    + apply chunks_length.
    + apply chunks_sizes. lia.
  - destruct (Nat.eqb_spec (length piecesStr mod 20) 0); [contradiction|].
    reflexivity.
Qed.

Lemma X11_witness :
  (exists Pieces,
     newInfo_case "pieces"
       (VString "aaaaaaaaaaaaaaaaaaaabbbbbbbbbbbbbbbbbbbb")
       (mkInfo "n" 4 [] 5 [])
     = Done (mkInfo "n" 4 Pieces 5 [])
     /\ String.concat "" Pieces = "aaaaaaaaaaaaaaaaaaaabbbbbbbbbbbbbbbbbbbb"
     /\ List.length Pieces = 2%nat
     /\ Forall (fun p => length p = 20%nat) Pieces)
  /\ newInfo_case "pieces" (VString "aaaaaaaaaaaaaaaaaaaab")
       (mkInfo "n" 4 [] 5 [])
     = Crashed "runtime error: index out of range".
Proof.
  split.
  - apply (X11_pieces_split (mkInfo "n" 4 [] 5 [])
             "aaaaaaaaaaaaaaaaaaaabbbbbbbbbbbbbbbbbbbb"). reflexivity.
  - apply (X11_pieces_split (mkInfo "n" 4 [] 5 [])
             "aaaaaaaaaaaaaaaaaaaab"). discriminate.
Defined.

(** X12: the three loops over a map do not depend on the order in which
    the map yields its bindings.  For two orders of the same bindings
    (distinct keys), [newFile], [newInfo] and the loop of
    [NewTorrentFromBencode] return the same value, or panic in both
    (possibly at different bindings). *)
Theorem X12_map_order_irrelevant (m1 m2 : list (string * any)) :
  nodupb (map fst m1) = true -> Permutation m1 m2 ->
  agree (newFile m1) (newFile m2)
  /\ agree (newInfo m1) (newInfo m2)
  /\ forall t, agree (range_map NewTorrentFromBencode_case m1 t)
                     (range_map NewTorrentFromBencode_case m2 t).
Proof.
  intros Hnd Hp. apply nodupb_NoDup in Hnd. split; [|split].
  - apply (range_map_perm newFile_case newFile_case_commutes _ _ Hp Hnd).
  - apply (range_map_perm newInfo_case newInfo_case_commutes _ _ Hp Hnd).
  - intros t.
    apply (range_map_perm NewTorrentFromBencode_case
             NewTorrentFromBencode_case_commutes _ _ Hp Hnd).
Qed.

Lemma X12_witness :
  agree (newInfo [("name", VString "n"); ("length", VInt 7); ("files", VInt 0)])
        (newInfo [("files", VInt 0); ("name", VString "n"); ("length", VInt 7)])
  /\ agree (newInfo [("name", VString "n"); ("length", VInt 7)])
           (newInfo [("length", VInt 7); ("name", VString "n")]).
Proof.
  split.
  - apply (X12_map_order_irrelevant
             [("name", VString "n"); ("length", VInt 7); ("files", VInt 0)]
             [("files", VInt 0); ("name", VString "n"); ("length", VInt 7)]);
      [reflexivity|].
    apply Permutation_sym.
    apply (Permutation_cons_append
             [("name", VString "n"); ("length", VInt 7)] ("files", VInt 0)).
  - apply (X12_map_order_irrelevant
             [("name", VString "n"); ("length", VInt 7)]
             [("length", VInt 7); ("name", VString "n")]);
      [reflexivity | apply perm_swap].
Defined.

(** X13: how [NewTorrentFromBencode] fails.  An error of [Unmarshal] is
    returned wrapped, and no other error is ever returned; a decoded value
    that is no dictionary, or holds a binding of a known key with a value
    of the wrong type or pieces of a bad length, makes it panic. *)
Theorem X13_NewTorrentFromBencode_failures (sha1_Sum : string -> string)
  (data : string) :
  (forall err, Unmarshal data = Err err ->
     NewTorrentFromBencode sha1_Sum data = Failed (ErrUnmarshalBencoded err))
  /\ (forall e, NewTorrentFromBencode sha1_Sum data = Failed e ->
        exists err, Unmarshal data = Err err /\ e = ErrUnmarshalBencoded err)
  /\ (forall v, Unmarshal data = Ok v -> metainfo_panics v = true ->
        exists msg, NewTorrentFromBencode sha1_Sum data = Crashed msg)
  /\ NewTorrentFromBencode sha1_Sum data <> Starved.
Proof.
  assert (Hcases : forall v, Unmarshal data = Ok v ->
            exists r, NewTorrentFromBencode sha1_Sum data = r
                      /\ no_error r).
  { intros v Hu. destruct (metainfo_panics v) eqn:Hp.
    - destruct (NewTorrentFromBencode_crash sha1_Sum data v Hu Hp)
        as [msg ->]. now eexists.
    - destruct v as [| | |m|]; try discriminate.
      rewrite (NewTorrentFromBencode_ok sha1_Sum data m Hu Hp). now eexists. }
  split; [|split; [|split]].
  - intros err Hu. unfold NewTorrentFromBencode. now rewrite Hu.
  - intros e H. destruct (Unmarshal data) as [v|err|msg|] eqn:Hu.
    + destruct (Hcases v eq_refl) as (r & Hr & Hne). rewrite H in Hr.
      subst r. contradiction.
    + unfold NewTorrentFromBencode in H. rewrite Hu in H. cbn [call] in H.
      inversion H. eauto.
    + unfold NewTorrentFromBencode in H. rewrite Hu in H. discriminate.
    + now apply Unmarshal_fuel in Hu.
  - intros v Hu Hp. now apply (NewTorrentFromBencode_crash sha1_Sum data v).
  - intros H. destruct (Unmarshal data) as [v|err|msg|] eqn:Hu.
    + destruct (Hcases v eq_refl) as (r & Hr & Hne). rewrite H in Hr.
      subst r. contradiction.
    + unfold NewTorrentFromBencode in H. rewrite Hu in H. discriminate.
    + unfold NewTorrentFromBencode in H. rewrite Hu in H. discriminate.
    + now apply Unmarshal_fuel in Hu.
Qed.

Lemma X13_witness :
  NewTorrentFromBencode (fun b => b) "d4:infod4:name"
  = Failed (ErrUnmarshalBencoded EOF)
  /\ (exists msg,
        NewTorrentFromBencode (fun b => b) "d4:infod6:lengthi5e4:namei1eee"
        = Crashed msg)
  /\ (exists msg, NewTorrentFromBencode (fun b => b) "le" = Crashed msg).
Proof.
  split; [|split].
  - apply (X13_NewTorrentFromBencode_failures (fun b => b) "d4:infod4:name").
    reflexivity.
  - apply (proj1 (proj2 (proj2
             (X13_NewTorrentFromBencode_failures (fun b => b)
                "d4:infod6:lengthi5e4:namei1eee")))
             (VDict [("info", VDict [("length", VInt 5); ("name", VInt 1)])]));
      reflexivity.
  - apply (proj1 (proj2 (proj2
             (X13_NewTorrentFromBencode_failures (fun b => b) "le")))
             (VList [])); reflexivity.
Defined.

(** X14: what [NewTorrentFromBencode] returns.  When the input decodes to
    a dictionary none of whose bindings makes a loop panic, the call
    succeeds, and the torrent is the one read off the dictionary by
    lookups: the announce string, the name, the piece length, the length,
    the pieces as blocks of 20 bytes and the files, each the zero value
    when its key is absent (no key is required), and the hash of the bytes
    [updateInfoHash] builds. *)
Theorem X14_NewTorrentFromBencode_value (sha1_Sum : string -> string)
  (data : string) (m : list (string * any)) :
  Unmarshal data = Ok (VDict m) -> metainfo_panics (VDict m) = false ->
  NewTorrentFromBencode sha1_Sum data = Done (torrent_of sha1_Sum m).
Proof.
  intros Hu Hp. unfold NewTorrentFromBencode, torrent_of. rewrite Hu.
  cbn [call assert_map and_then].
  rewrite NewTorrentFromBencode_loop_ok.
  - cbn [and_then]. rewrite updateInfoHash_spec. reflexivity.
  - now apply (Unmarshal_well_formed data).
  - exact Hp.
Qed.

Lemma X14_witness :
  NewTorrentFromBencode (fun b => b)
    "d8:announce9:http://tr7:comment1:c4:infod5:filesld6:lengthi3e4:pathl1:a1:beee4:name1:x6:pieces20:aaaaaaaaaaaaaaaaaaaaee"
  = Done (mkTorrent "d5:filesld6:lengthi3e4:pathl1:a1:beee4:name1:x12:piece lengthi0e6:pieces"
            (mkInfo "x" 0 ["aaaaaaaaaaaaaaaaaaaa"] 0 [mkFile 3 ["a"; "b"]])
            "http://tr").
Proof.
  exact (X14_NewTorrentFromBencode_value (fun b => b)
           "d8:announce9:http://tr7:comment1:c4:infod5:filesld6:lengthi3e4:pathl1:a1:beee4:name1:x6:pieces20:aaaaaaaaaaaaaaaaaaaaee"
           [("announce", VString "http://tr"); ("comment", VString "c");
            ("info", VDict [("files", VList [VDict [("length", VInt 3);
                                                   ("path", VList [VString "a"; VString "b"])]]);
                            ("name", VString "x");
                            ("pieces", VString "aaaaaaaaaaaaaaaaaaaa")])]
           eq_refl eq_refl).
Defined.

(** X15: the info hash does not cover the pieces.  Whenever
    [NewTorrentFromBencode] succeeds, the hash is that of the bytes built
    from the name, the piece length and the length or the files, which end
    with the key ["pieces"] and hold none of the pieces; two inputs whose
    torrents differ in their pieces only get the same hash; and the error
    of [updateInfoHash] is never returned. *)
Theorem X15_info_hash_ignores_pieces (sha1_Sum : string -> string)
  (data data' : string) (t t' : Torrent) :
  (NewTorrentFromBencode sha1_Sum data = Done t ->
   Torrent_InfoHash t = sha1_Sum (info_bytes (Torrent_Info t)))
  /\ (NewTorrentFromBencode sha1_Sum data = Done t ->
      NewTorrentFromBencode sha1_Sum data' = Done t' ->
      Info_Name (Torrent_Info t) = Info_Name (Torrent_Info t') ->
      Info_PieceLength (Torrent_Info t) = Info_PieceLength (Torrent_Info t') ->
      Info_Length (Torrent_Info t) = Info_Length (Torrent_Info t') ->
      Info_Files (Torrent_Info t) = Info_Files (Torrent_Info t') ->
      Torrent_InfoHash t = Torrent_InfoHash t')
  /\ (forall err,
        NewTorrentFromBencode sha1_Sum data <> Failed (ErrUpdateInfoHash err)).
Proof.
  split; [|split].
  - apply NewTorrentFromBencode_hash.
  - intros H H' Hn Hp Hl Hf.
    rewrite (NewTorrentFromBencode_hash sha1_Sum data t H).
    rewrite (NewTorrentFromBencode_hash sha1_Sum data' t' H').
    f_equal. now apply info_bytes_fields.
  - intros err He. unfold NewTorrentFromBencode in He.
    destruct (Unmarshal data) as [v|e|msg|]; cbn [call] in He;
      try discriminate.
    destruct v as [| | |m|]; cbn [assert_map and_then] in He;
      try discriminate.
    pose proof (range_map_no_error NewTorrentFromBencode_case m
                  NewTorrentFromBencode_case_no_error
                  (mkTorrent zero20 (mkInfo "" 0 [] 0 []) "")) as Hne.
    destruct (range_map NewTorrentFromBencode_case m _) as [t0|e| |];
      cbn [and_then no_error] in *; try discriminate; try contradiction.
    rewrite updateInfoHash_spec in He. discriminate.
Qed.

Lemma X15_witness :
  NewTorrentFromBencode (fun b => b)
    "d4:infod6:lengthi5e4:name1:x6:pieces20:aaaaaaaaaaaaaaaaaaaaee"
  = Done (mkTorrent "d6:lengthi5e4:name1:x12:piece lengthi0e6:pieces"
            (mkInfo "x" 0 ["aaaaaaaaaaaaaaaaaaaa"] 5 []) "")
  /\ NewTorrentFromBencode (fun b => b)
       "d4:infod6:lengthi5e4:name1:x6:pieces20:bbbbbbbbbbbbbbbbbbbbee"
     = Done (mkTorrent "d6:lengthi5e4:name1:x12:piece lengthi0e6:pieces"
               (mkInfo "x" 0 ["bbbbbbbbbbbbbbbbbbbb"] 5 []) "")
  /\ Torrent_InfoHash
       (mkTorrent "d6:lengthi5e4:name1:x12:piece lengthi0e6:pieces"
          (mkInfo "x" 0 ["aaaaaaaaaaaaaaaaaaaa"] 5 []) "")
     = Torrent_InfoHash
         (mkTorrent "d6:lengthi5e4:name1:x12:piece lengthi0e6:pieces"
            (mkInfo "x" 0 ["bbbbbbbbbbbbbbbbbbbb"] 5 []) "").
Proof.
  split; [reflexivity|]. split; [reflexivity|].
  apply (proj1 (proj2 (X15_info_hash_ignores_pieces (fun b => b)
           "d4:infod6:lengthi5e4:name1:x6:pieces20:aaaaaaaaaaaaaaaaaaaaee"
           "d4:infod6:lengthi5e4:name1:x6:pieces20:bbbbbbbbbbbbbbbbbbbbee"
           _ _))); reflexivity.
Defined.

Lemma peers_records (n : nat) :
  forall s, (length s <= 6 * n + 5)%nat ->
  exists records tail,
    s = String.concat "" records ++ tail
    /\ Forall (fun r => length r = 6%nat) records
    /\ (length tail < 6)%nat.
Proof.
  induction n as [|n IH]; intros s Hlen.
  - exists [], s. repeat split; [constructor | lia].
  - destruct (Nat.lt_ge_cases (length s) 6) as [Hlt|Hge].
    + exists [], s. repeat split; [constructor | lia].
    + destruct (IH (drop 6 s)) as (records & tail & Hs & Hrs & Htail).
      { rewrite length_drop. lia. }
      exists (take 6 s :: records), tail. split; [|split].
      * rewrite concat_cons, str_app_assoc, <- Hs. symmetry. apply take_drop.
      * constructor; [now apply length_take | exact Hrs].
      * exact Htail.
Qed.

Lemma parsePeers_total (peers : string) :
  exists lines,
    parsePeers peers = Done lines
    /\ List.length lines = (length peers / 6)%nat.
Proof.
  destruct (peers_records (length peers) peers) as (records & tail & -> & Hrs & Ht);
    [lia|].
  exists (map peer_text records). split; [now apply parsePeers_spec|].
  rewrite length_map, str_length_app, (concat_length_6 records Hrs).
  rewrite Nat.mul_comm, Nat.div_add_l by lia.
  rewrite (Nat.div_small (length tail)) by lia. lia.
Qed.

Lemma appendPaths_strings (l : list string) (acc : list string) :
  appendPaths (map VString l) acc = Done (acc ++ l)%list.
Proof.
  revert acc. induction l as [|s l IH]; intros acc; cbn [map appendPaths].
  - now rewrite app_nil_r.
  - cbn [assert_string and_then]. rewrite IH. now rewrite <- app_assoc.
Qed.

(** X16: the bytes [updateInfoHash] hashes are no bencoding.  For an info
    whose fields are Go values, they stop after the key ["pieces"]:
    [Unmarshal] fails on them with [io.EOF], and they are the encoding of
    no value of the four variants. *)
Theorem X16_hashed_bytes_not_bencode (info : Info) (v : any) :
  len_ok (Info_Name info) = true ->
  int_rangeb (Info_PieceLength info) = true ->
  valid (snd (info_first info)) = true ->
  Unmarshal (info_bytes info) = Err EOF
  /\ (valid v = true -> supported v = true ->
      Marshal v <> Ok (info_bytes info)).
Proof.
  intros Hn Hp Hf.
  assert (Heof : Unmarshal (info_bytes info) = Err EOF).
  { unfold info_bytes. apply Unmarshal_key_without_value; [|reflexivity].
    cbn [forallb fst snd valid supported]. rewrite Hn, Hp, Hf.
    rewrite info_first_supported.
    destruct (info_first_key info) as [-> | ->]; reflexivity. }
  split; [exact Heof|]. intros Hv Hs HM.
  rewrite (Marshal_ok v (supported_not_other v Hs)) in HM.
  inversion HM as [Henc].
  destruct (Unmarshal_enc v "" Hv Hs) as (v' & Hu & _).
  rewrite str_app_nil_r, Henc, Heof in Hu. discriminate.
Qed.

Lemma X16_witness :
  Unmarshal (info_bytes (mkInfo "x" 16384 [] 0 [mkFile 3 ["a"; "b"]]))
  = Err EOF
  /\ (Marshal (VDict []) <> Ok (info_bytes (mkInfo "x" 16384 [] 0
                                              [mkFile 3 ["a"; "b"]]))).
Proof.
  destruct (X16_hashed_bytes_not_bencode
              (mkInfo "x" 16384 [] 0 [mkFile 3 ["a"; "b"]]) (VDict [])
              eq_refl eq_refl eq_refl) as [H1 H2].
  split; [exact H1 | apply H2; reflexivity].
Defined.

(** X17: [newFile] reads back what [marshallableFile] builds.  For every
    file, [marshallableFile] returns a map (its type assertion cannot
    panic), and [newFile] of that map, in whatever order the map yields
    its two bindings, is the file. *)
Theorem X17_newFile_marshallableFile (f : File) (m0 m : list (string * any)) :
  (exists m1, marshallableFile f = Done m1)
  /\ (marshallableFile f = Done m0 -> Permutation m0 m -> newFile m = Done f).
Proof.
  rewrite marshallableFile_spec. split; [eauto|].
  intros H Hp. inversion H; subst m0. clear H.
  apply agree_Done. eapply agree_trans.
  - apply agree_sym.
    apply (range_map_perm newFile_case newFile_case_commutes _ _ Hp).
    repeat constructor; cbn; intuition discriminate.
  - unfold newFile. cbn [range_map].
    rewrite newFile_case_length. cbn [assert_int and_then File_Path].
    rewrite newFile_case_path. cbn [assert_slice and_then File_Path].
    rewrite appendPaths_strings. cbn [and_then app File_Length agree].
    now destruct f.
Qed.

Lemma X17_witness :
  marshallableFile (mkFile 3 ["a"; "b"])
  = Done [("length", VInt 3); ("path", VList [VString "a"; VString "b"])]
  /\ newFile [("path", VList [VString "a"; VString "b"]); ("length", VInt 3)]
     = Done (mkFile 3 ["a"; "b"]).
Proof.
  split; [reflexivity|].
  apply (proj2 (X17_newFile_marshallableFile (mkFile 3 ["a"; "b"])
                  [("length", VInt 3);
                   ("path", VList [VString "a"; VString "b"])]
                  [("path", VList [VString "a"; VString "b"]);
                   ("length", VInt 3)]));
    [reflexivity | apply perm_swap].
Defined.

(** X18: [parsePeers] cannot panic and prints one line per group of six
    bytes.  For peers made of records of six bytes followed by fewer than
    six bytes, the lines are those of the records, in their order: the
    four bytes of the address in decimal, and the port with the fifth
    byte as its high byte; the bytes left over are ignored.  Every string
    is of that form, and gives [len(peers)/6] lines. *)
Theorem X18_parsePeers (records : list string) (tail peers : string) :
  (Forall (fun r => length r = 6%nat) records -> (length tail < 6)%nat ->
   parsePeers (String.concat "" records ++ tail)
   = Done (map peer_text records))
  /\ (exists lines,
        parsePeers peers = Done lines
        /\ List.length lines = (length peers / 6)%nat).
Proof.
  split; [apply parsePeers_spec | apply parsePeers_total].
Qed.

Lemma X18_witness :
  parsePeers ("abcdef" ++ "ghijkl" ++ "mno")
  = Done [peer_text "abcdef"; peer_text "ghijkl"]
  /\ peer_text "abcdef"
     = "Peer: 97.98.99.100:25958" ++ newline.
Proof.
  split; [|reflexivity].
  apply (proj1 (X18_parsePeers ["abcdef"; "ghijkl"] "mno" ""));
    [repeat constructor | cbn; lia].
Defined.

(** X19: [parseTrackerResponse].  It returns [nil] exactly when the
    response decodes to a dictionary whose ["interval"] is an integer and
    whose ["peers"] is a string, after printing the lines of
    [parsePeers]; a decoded dictionary never makes it panic; and an
    interval that is absent or no integer is reported before the peers
    are looked at. *)
Theorem X19_parseTrackerResponse (data : string) (lines : list string)
  (m : list (string * any)) :
  (parseTrackerResponse data = Done lines <->
   exists m' n peers,
     Unmarshal data = Ok (VDict m')
     /\ map_get "interval" m' = Some (VInt n)
     /\ map_get "peers" m' = Some (VString peers)
     /\ parsePeers peers = Done lines)
  /\ (Unmarshal data = Ok (VDict m) ->
      forall msg, parseTrackerResponse data <> Crashed msg)
  /\ (Unmarshal data = Ok (VDict m) ->
      is_int (map_index m "interval") = false ->
      parseTrackerResponse data = Failed ErrInvalidInterval).
Proof.
  unfold parseTrackerResponse, map_index. split; [split|split].
  - intros H. destruct (Unmarshal data) as [v| | |]; cbn [call] in H;
      try discriminate.
    destruct v as [| | |m'|]; cbn [assert_map and_then] in H;
      try discriminate.
    destruct (map_get "interval" m') as [[n| | | |]|] eqn:Ei;
      try discriminate.
    destruct (map_get "peers" m') as [[|peers| | |]|] eqn:Ep;
      try discriminate.
    exists m', n, peers. auto.
  - intros (m' & n & peers & Hu & Hi & Hp & Hl).
    rewrite Hu. cbn [call assert_map and_then]. now rewrite Hi, Hp.
  - intros Hu msg. rewrite Hu. cbn [call assert_map and_then].
    destruct (map_get "interval" m) as [[n| | | |]|]; try discriminate.
    destruct (map_get "peers" m) as [[|peers| | |]|]; try discriminate.
    destruct (parsePeers_total peers) as (l & -> & _). discriminate.
  - intros Hu Hi. rewrite Hu. cbn [call assert_map and_then].
    destruct (map_get "interval" m) as [[n| | | |]|];
      try reflexivity; discriminate.
Qed.

Lemma X19_witness :
  parseTrackerResponse "d8:intervali1800e5:peers8:abcdefghe"
  = Done [peer_text "abcdef"]
  /\ parseTrackerResponse "d8:interval4:18005:peersi0ee"
     = Failed ErrInvalidInterval.
Proof.
  split.
  - apply (proj1 (X19_parseTrackerResponse
                    "d8:intervali1800e5:peers8:abcdefghe"
                    [peer_text "abcdef"] [])).
    exists [("interval", VInt 1800); ("peers", VString "abcdefgh")],
      1800, "abcdefgh".
    repeat split; reflexivity.
  - apply (proj2 (proj2 (X19_parseTrackerResponse
                           "d8:interval4:18005:peersi0ee" []
                           [("interval", VString "1800"); ("peers", VInt 0)])));
      reflexivity.
Defined.

(** ** The runtime and the decoder *)


